(** * Overdue-task scheduler and daily-updates file validation

    A shallow embedding of
    - [apps/api/src/tasks/overdue-scheduler.service.ts]
      ([detectOverdueTasks], [sendDailyOverdueReminders]) and
    - the daily-updates service with its file validation ([validateFile]),
      the storage service behind it and the handlers of its controller,
    followed by their properties.

    Time is a number of milliseconds since the epoch ([Z]), identifiers and
    user ids are strings.  The collaborators of the scheduler (task store,
    notification sink, event bus, logger) are components of an explicit
    [World]; every call to the store, the sink or the bus is recorded in a
    trace, takes some time and may fail, as decided by an environment. *)

From Stdlib Require Import ZArith Lia.
From stdpp Require Import base list strings pretty gmap.

(** ** Data model *)

(** A row of the assignment table as selected by
    [include: { assignments: { select: { userId: true } } }]. *)
Record Assignment := { userId : string }.

(** The fields of a task row that the scheduler reads or writes. *)
Record Task := {
  id : string;
  title : string;
  titleAr : string;
  dueDate : option Z;
  status : string;
  isDeleted : bool;
  lastOverdueNotifiedAt : option Z;
  assigneeUserId : option string;
  createdById : option string;
  trackId : option string;
  assignments : list Assignment
}.

(** [data: { lastOverdueNotifiedAt: ts }] applied to one row. *)
Definition set_lastOverdueNotifiedAt (ts : Z) (t : Task) : Task :=
  {| id := id t; title := title t; titleAr := titleAr t;
     dueDate := dueDate t; status := status t; isDeleted := isDeleted t;
     lastOverdueNotifiedAt := Some ts;
     assigneeUserId := assigneeUserId t; createdById := createdById t;
     trackId := trackId t; assignments := assignments t |}.

(** The payload handed to [notifications.createForUsers]. *)
Record Payload := {
  n_type : string;
  n_title : string;
  n_titleAr : string;
  n_body : string;
  n_bodyAr : string;
  entityType : string;
  entityId : string;
  n_trackId : option string
}.

(** One durable record of the notification sink: a payload addressed to an
    array of user ids. *)
Record Notification := { recipients : list string; payload : Payload }.

(** One real-time event pushed with [events.emitToUser]. *)
Record Event := {
  ev_to : string;
  ev_name : string;
  ev_type : string;
  ev_taskId : string;
  ev_titleAr : string
}.

(** The [where] object of the two [findMany] queries. *)
Inductive NullFilter := IsNull | NotNull.

Record Where := {
  w_isDeleted : bool;
  w_dueDate_lt : Z;
  w_status_notIn : list string;
  w_lastOverdueNotifiedAt : NullFilter
}.

(** Calls that leave the scheduler, as recorded in the trace. *)
Inductive Op :=
| OpFindMany (wh : Where) (n : nat)
| OpCreateForUsers (uids : list string) (p : Payload)
| OpEmitToUser (e : Event)
| OpUpdate (tid : string) (ts : Z).

Inductive Error :=
| CollaboratorFailure (op : Op)
| RecordNotFound (tid : string).

Inductive LogLine :=
| LogInfo (msg : string)
| LogError (msg : string) (e : Error).

Record World := {
  tasks : list Task;
  notifications : list Notification;
  events : list Event;
  logs : list LogLine;
  trace : list Op;
  clock : Z
}.

Definition set_tasks (ts : list Task) (w : World) : World :=
  {| tasks := ts; notifications := notifications w; events := events w;
     logs := logs w; trace := trace w; clock := clock w |}.

Definition add_notification (n : Notification) (w : World) : World :=
  {| tasks := tasks w; notifications := notifications w ++ [n];
     events := events w; logs := logs w; trace := trace w; clock := clock w |}.

Definition add_event (e : Event) (w : World) : World :=
  {| tasks := tasks w; notifications := notifications w;
     events := events w ++ [e]; logs := logs w; trace := trace w;
     clock := clock w |}.

Definition add_log (l : LogLine) (w : World) : World :=
  {| tasks := tasks w; notifications := notifications w; events := events w;
     logs := logs w ++ [l]; trace := trace w; clock := clock w |}.

(** Entering a call: the call is appended to the trace and [dt]
    milliseconds pass. *)
Definition enter_call (op : Op) (dt : Z) (w : World) : World :=
  {| tasks := tasks w; notifications := notifications w; events := events w;
     logs := logs w; trace := trace w ++ [op]; clock := (clock w + dt)%Z |}.

(** The environment decides, for the [k]-th call of the trace, whether the
    collaborator fails and how long the call takes. *)
Record Env := { fails : nat → bool; latency : nat → Z }.

(** ** The monad of the scheduler: state and exceptions *)

Inductive Result (A : Type) :=
| Ok (a : A)
| Throw (e : Error).
Arguments Ok {A} a.
Arguments Throw {A} e.

Definition M (A : Type) : Type := World → Result A * World.

#[global] Instance M_ret : MRet M := λ A a w, (Ok a, w).

#[global] Instance M_bind : MBind M := λ A B f m w,
  match m w with
  | (Ok a, w1) => f a w1
  | (Throw e, w1) => (Throw e, w1)
  end.

(** [try { body } catch (error) { handler(error) }] *)
Definition try_catch {A} (body : M A) (handler : Error → M A) : M A :=
  λ w, match body w with
       | (Ok a, w1) => (Ok a, w1)
       | (Throw e, w1) => handler e w1
       end.

(** [for (const x of l) { body(x) }] *)
Fixpoint for_of {A} (l : list A) (body : A → M unit) : M unit :=
  match l with
  | [] => mret tt
  | x :: r => body x ;; for_of r body
  end.

(** ** JavaScript values used by the scheduler *)

(** [if (s)] on a value of type [string | null]: [null] and the empty string
    are falsy. *)
Definition truthy (o : option string) : option string :=
  match o with
  | Some s => if decide (s = EmptyString) then None else Some s
  | None => None
  end.

(** [Set<string>]: the elements in insertion order, without duplicates. *)
Module JSSet.
Definition t := list string.
Definition empty : t := [].
Definition add (x : string) (s : t) : t :=
  if decide (x ∈ s) then s else s ++ [x].
Definition size (s : t) : nat := length s.
(** [[...s]] *)
Definition to_array (s : t) : list string := s.
End JSSet.

(** The double quote of the template literals. *)
Definition dq : string := String (Ascii.ascii_of_nat 34) EmptyString.

(** [Math.ceil(a / b)] for integers [a] and [0 < b].  JavaScript divides in
    double precision; for two millisecond counts less than a hundred
    thousand years apart and [b] a day, the rounded quotient lies strictly
    between the same two integers as the exact one, or is the exact
    integer, so that the ceiling is the one of the exact quotient. *)
Definition Math_ceil_div (a b : Z) : Z := (- ((- a) / b))%Z.

Definition MS_PER_DAY : Z := (1000 * 60 * 60 * 24)%Z.

(** ** The collaborators *)

(** A row satisfies a [where] object: [isDeleted] is the given flag, the
    due date is set and before the bound ([lt] is false on null), the status
    is none of the listed ones, and [lastOverdueNotifiedAt] is null or not
    null as asked. *)
Definition matches (wh : Where) (t : Task) : bool :=
  eqb (isDeleted t) (w_isDeleted wh)
  && match dueDate t with
     | Some d => (d <? w_dueDate_lt wh)%Z
     | None => false
     end
  && negb (bool_decide (status t ∈ w_status_notIn wh))
  && match w_lastOverdueNotifiedAt wh, lastOverdueNotifiedAt t with
     | IsNull, None => true
     | NotNull, Some _ => true
     | _, _ => false
     end.

(** [update] of the row whose id is [tid]. *)
Definition stamp (ts : Z) (tid : string) (rows : list Task) : list Task :=
  (λ t, if decide (id t = tid) then set_lastOverdueNotifiedAt ts t else t)
    <$> rows.

Section Scheduler.
Context (env : Env).

(** A call to a collaborator: recorded, timed, and failing when the
    environment says so; otherwise [act] is its effect. *)
Definition call {A} (op : Op) (act : M A) : M A :=
  λ w, let k := length (trace w) in
       let w1 := enter_call op (Z.max 0 (latency env k)) w in
       if fails env k then (Throw (CollaboratorFailure op), w1)
       else act w1.

(** [new Date()] *)
Definition new_Date : M Z := λ w, (Ok (clock w), w).

(** [this.logger.log] and [this.logger.error] *)
Definition logger_log (msg : string) : M unit :=
  λ w, (Ok tt, add_log (LogInfo msg) w).

Definition logger_error (msg : string) (e : Error) : M unit :=
  λ w, (Ok tt, add_log (LogError msg e) w).

(** Modelled from the spec: the task repository behind [prisma.task], which
    is not among the sources.  [findMany({ where, include, take })] returns
    the first [n] rows that match, in the order of the table (the query has
    no [orderBy]); the included [track] is not read by the scheduler and is
    left out. *)
Definition prisma_task_findMany (wh : Where) (n : nat) : M (list Task) :=
  call (OpFindMany wh n)
    (λ w, (Ok (take n (filter (λ t, matches wh t) (tasks w))), w)).

(** Modelled from the spec: [markNotified] of the task repository,
    [prisma.task.update({ where: { id }, data: { lastOverdueNotifiedAt } })],
    which throws when no row has this id. *)
Definition prisma_task_update (tid : string) (ts : Z) : M unit :=
  call (OpUpdate tid ts)
    (λ w, if decide (tid ∈ id <$> tasks w)
          then (Ok tt, set_tasks (stamp ts tid (tasks w)) w)
          else (Throw (RecordNotFound tid), w)).

(** Modelled from the spec: [notifications.createForUsers(userIds, payload)]
    of the notification service, which is not among the sources; it durably
    records one notification addressed to the given users. *)
Definition notifications_createForUsers (uids : list string) (p : Payload)
  : M unit :=
  call (OpCreateForUsers uids p)
    (λ w, (Ok tt, add_notification {| recipients := uids; payload := p |} w)).

(** Modelled from the spec: [events.emitToUser(uid, name, payload)] of the
    events gateway, which is not among the sources; it pushes one event to
    one user. *)
Definition events_emitToUser (e : Event) : M unit :=
  call (OpEmitToUser e) (λ w, (Ok tt, add_event e w)).

(** *** The 15-minute scan *)

Definition where_newly_overdue (now : Z) : Where :=
  {| w_isDeleted := false; w_dueDate_lt := now;
     w_status_notIn := ["completed"; "cancelled"];
     w_lastOverdueNotifiedAt := IsNull |}.

(** Lines 45-48: assignee, creator, then the assignment users. *)
Definition overdue_userIds (task : Task) : JSSet.t :=
  let userIds := JSSet.empty in
  let userIds := match truthy (assigneeUserId task) with
                 | Some u => JSSet.add u userIds
                 | None => userIds
                 end in
  let userIds := match truthy (createdById task) with
                 | Some u => JSSet.add u userIds
                 | None => userIds
                 end in
  foldl (λ s a, JSSet.add (userId a) s) userIds (assignments task).

Definition overdue_payload (task : Task) : Payload :=
  {| n_type := "task_overdue";
     n_title := "Task Overdue";
     n_titleAr := "مهمة متأخرة";
     n_body := "Task " ++ dq ++ title task ++ dq ++ " is overdue";
     n_bodyAr := "المهمة " ++ dq ++ titleAr task ++ dq ++ " تجاوزت الموعد المحدد";
     entityType := "task";
     entityId := id task;
     n_trackId := truthy (trackId task) |}.

Definition overdue_event (task : Task) (uid : string) : Event :=
  {| ev_to := uid; ev_name := "notification.new";
     ev_type := "task_overdue"; ev_taskId := id task;
     ev_titleAr := titleAr task |}.

(** The body of the loop, lines 44-76. *)
Definition detect_one (now : Z) (task : Task) : M unit :=
  let userIds := overdue_userIds task in
  (if (0 <? JSSet.size userIds)%nat then
     notifications_createForUsers (JSSet.to_array userIds)
       (overdue_payload task) ;;
     for_of (JSSet.to_array userIds)
       (λ uid, events_emitToUser (overdue_event task uid))
   else mret tt) ;;
  prisma_task_update (id task) now.

Definition detectOverdueTasks : M unit :=
  try_catch
    (now ← new_Date;
     overdueTasks ← prisma_task_findMany (where_newly_overdue now) 100;
     if (length overdueTasks =? 0)%nat then mret tt
     else
       logger_log ("Found " ++ pretty (length overdueTasks)
                   ++ " newly overdue tasks") ;;
       for_of overdueTasks (detect_one now) ;;
       logger_log ("Notified for " ++ pretty (length overdueTasks)
                   ++ " overdue tasks"))
    (λ error, logger_error "Error in overdue task detection" error).

(** *** The daily reminder scan *)

Definition where_still_overdue (now : Z) : Where :=
  {| w_isDeleted := false; w_dueDate_lt := now;
     w_status_notIn := ["completed"; "cancelled"];
     w_lastOverdueNotifiedAt := NotNull |}.

(** Lines 111-113: assignee, then the assignment users. *)
Definition reminder_userIds (task : Task) : JSSet.t :=
  let userIds := JSSet.empty in
  let userIds := match truthy (assigneeUserId task) with
                 | Some u => JSSet.add u userIds
                 | None => userIds
                 end in
  foldl (λ s a, JSSet.add (userId a) s) userIds (assignments task).

(** Line 116.  The query only returns rows with a due date; on [null],
    [new Date(null).getTime()] is 0. *)
Definition daysDiff (now : Z) (task : Task) : Z :=
  Math_ceil_div (now - default 0%Z (dueDate task)) MS_PER_DAY.

Definition reminder_payload (now : Z) (task : Task) : Payload :=
  {| n_type := "task_overdue";
     n_title := "Overdue Reminder";
     n_titleAr := "تذكير بمهمة متأخرة";
     n_body := "Task " ++ dq ++ title task ++ dq ++ " is "
               ++ pretty (daysDiff now task) ++ " days overdue";
     n_bodyAr := "المهمة " ++ dq ++ titleAr task ++ dq ++ " متأخرة منذ "
                 ++ pretty (daysDiff now task) ++ " يوم";
     entityType := "task";
     entityId := id task;
     n_trackId := truthy (trackId task) |}.

(** The body of the loop, lines 111-134. *)
Definition remind_one (now : Z) (task : Task) : M unit :=
  let userIds := reminder_userIds task in
  (if (0 <? JSSet.size userIds)%nat then
     notifications_createForUsers (JSSet.to_array userIds)
       (reminder_payload now task)
   else mret tt) ;;
  prisma_task_update (id task) now.

Definition sendDailyOverdueReminders : M unit :=
  try_catch
    (now ← new_Date;
     overdueTasks ← prisma_task_findMany (where_still_overdue now) 200;
     if (length overdueTasks =? 0)%nat then mret tt
     else
       logger_log ("Sending daily reminders for "
                   ++ pretty (length overdueTasks) ++ " overdue tasks") ;;
       for_of overdueTasks (remind_one now))
    (λ error, logger_error "Error sending daily overdue reminders" error).

End Scheduler.

(** ** Scripts of collaborator calls

    The control flow of both loop bodies depends only on the row read by
    [findMany] and on [now], so a loop body is a fixed sequence of
    collaborator calls.  The definitions below describe such sequences and
    their effect; the lemmas of the second part relate them to the code. *)

(** The effect of a call that got through. *)
Definition effect (op : Op) (w : World) : World :=
  match op with
  | OpFindMany _ _ => w
  | OpCreateForUsers uids p =>
      add_notification {| recipients := uids; payload := p |} w
  | OpEmitToUser e => add_event e w
  | OpUpdate tid ts => set_tasks (stamp ts tid (tasks w)) w
  end.

Definition effects (ops : list Op) (w : World) : World :=
  foldl (λ w op, effect op w) w ops.

(** What the collaborator does once the call got through. *)
Definition perform (op : Op) : M unit :=
  λ w, match op with
       | OpUpdate tid _ =>
           if decide (tid ∈ id <$> tasks w) then (Ok tt, effect op w)
           else (Throw (RecordNotFound tid), w)
       | _ => (Ok tt, effect op w)
       end.

Definition run_ops (env : Env) (ops : list Op) : M unit :=
  for_of ops (λ op, call env op (perform op)).

(** The calls of one iteration, up to the stamp. *)
Definition overdue_calls (task : Task) : list Op :=
  let userIds := overdue_userIds task in
  if (0 <? JSSet.size userIds)%nat then
    OpCreateForUsers (JSSet.to_array userIds) (overdue_payload task)
    :: ((λ uid, OpEmitToUser (overdue_event task uid))
          <$> JSSet.to_array userIds)
  else [].

Definition reminder_calls (now : Z) (task : Task) : list Op :=
  let userIds := reminder_userIds task in
  if (0 <? JSSet.size userIds)%nat then
    [OpCreateForUsers (JSSet.to_array userIds) (reminder_payload now task)]
  else [].

(** The calls of one iteration: [pre task], then the stamp. *)
Definition iteration (pre : Task → list Op) (now : Z) (task : Task)
  : list Op :=
  pre task ++ [OpUpdate (id task) now].

(** The calls of a whole run that selected [sel]. *)
Definition script (wh : Where) (n : nat) (pre : Task → list Op) (now : Z)
    (sel : list Task) : list Op :=
  OpFindMany wh n :: (sel ≫= iteration pre now).

(** The rows returned by the query of a run started in [w]. *)
Definition selected (wh : Where) (n : nat) (w : World) : list Task :=
  take n (filter (λ t, matches wh t) (tasks w)).

Definition newly_overdue (w : World) : list Task :=
  selected (where_newly_overdue (clock w)) 100 w.

Definition still_overdue (w : World) : list Task :=
  selected (where_still_overdue (clock w)) 200 w.

(** Stamping every row whose id is in [ids]. *)
Definition stamp_all (ts : Z) (ids : list string) (rows : list Task)
  : list Task :=
  (λ t, if decide (id t ∈ ids) then set_lastOverdueNotifiedAt ts t else t)
    <$> rows.

Definition is_update (op : Op) : bool :=
  match op with OpUpdate _ _ => true | _ => false end.

Definition notification_of (op : Op) : option Notification :=
  match op with
  | OpCreateForUsers uids p => Some {| recipients := uids; payload := p |}
  | _ => None
  end.

(** The durable notification of the 15-minute scan for one row, if any. *)
Definition overdue_notifications (task : Task) : list Notification :=
  if (0 <? JSSet.size (overdue_userIds task))%nat then
    [{| recipients := JSSet.to_array (overdue_userIds task);
        payload := overdue_payload task |}]
  else [].

(** What a run added to the trace and to the sink. *)
Definition new_trace (w w' : World) : list Op :=
  drop (length (trace w)) (trace w').

Definition new_notifications (w w' : World) : list Notification :=
  drop (length (notifications w)) (notifications w').

Definition about (tid : string) (ns : list Notification) : list Notification :=
  filter (λ n, entityId (payload n) = tid) ns.

(** The row with a given id. *)
Fixpoint row (tid : string) (rows : list Task) : option Task :=
  match rows with
  | [] => None
  | t :: rows => if decide (id t = tid) then Some t else row tid rows
  end.

(** The primary key of the task table. *)
Definition unique_ids (rows : list Task) : Prop := NoDup (id <$> rows).

Definition no_faults (env : Env) : Prop := ∀ k, fails env k = false.

(** [n] runs of the 15-minute scan in succession. *)
Fixpoint detect_runs (env : Env) (n : nat) (w : World) : World :=
  match n with
  | O => w
  | S n => detect_runs env n (detectOverdueTasks env w).2
  end.

(** Two worlds with the same store, sink and bus. *)
Definition data_eq (w1 w2 : World) : Prop :=
  tasks w1 = tasks w2 ∧ notifications w1 = notifications w2
  ∧ events w1 = events w2.

(** How a script ends when started in [w]: either every call got through, or
    the calls [done] got through and the next call [op] failed, which ends
    the script. *)
Inductive outcome (env : Env) (w : World) (ops : list Op)
    : Result unit → World → Prop :=
| Completed (w' : World) :
    trace w' = trace w ++ ops →
    (∀ j, j < length ops → fails env (length (trace w) + j) = false) →
    data_eq w' (effects ops w) →
    outcome env w ops (Ok tt) w'
| Aborted (w' : World) (done : list Op) (op : Op) (rest : list Op) :
    ops = done ++ op :: rest →
    trace w' = trace w ++ done ++ [op] →
    (∀ j, j < length done → fails env (length (trace w) + j) = false) →
    fails env (length (trace w) + length done) = true →
    data_eq w' (effects done w) →
    outcome env w ops (Throw (CollaboratorFailure op)) w'.

(** Updates of a script address rows of the store. *)
Definition addressed (ops : list Op) (w : World) : Prop :=
  Forall (λ op, ∀ tid ts, op = OpUpdate tid ts → tid ∈ id <$> tasks w) ops.

(** The calls before the stamp are not stamps. *)
Definition no_update (pre : Task → list Op) : Prop :=
  ∀ t, Forall (λ op, is_update op = false) (pre t).

(** ** File validation of the daily-updates service *)

Module DailyUpdates.

(** The fields of [Express.Multer.File] that the service reads. *)
Record File := { originalname : string; mimetype : string; size : Z }.

Inductive Exception := BadRequestException (msg : string).

Definition ALLOWED_EXTENSIONS : list string :=
  [".xlsx"; ".xls"; ".docx"; ".doc"; ".pptx"; ".ppt";
   ".pdf"; ".png"; ".jpg"; ".jpeg"; ".webp";
   ".txt"; ".csv"; ".zip"].

Definition BLOCKED_EXTENSIONS : list string :=
  [".exe"; ".js"; ".sh"; ".bat"; ".dll"; ".apk"; ".cmd";
   ".com"; ".msi"; ".ps1"; ".vbs"; ".wsf"; ".scr"; ".pif"].

Definition ALLOWED_MIMES : list string :=
  ["application/vnd.openxmlformats-officedocument.spreadsheetml.sheet";
   "application/vnd.ms-excel";
   "application/vnd.openxmlformats-officedocument.wordprocessingml.document";
   "application/msword";
   "application/vnd.openxmlformats-officedocument.presentationml.presentation";
   "application/vnd.ms-powerpoint";
   "application/pdf";
   "image/png"; "image/jpeg"; "image/webp";
   "text/plain"; "text/csv";
   "application/zip"; "application/x-zip-compressed";
   "application/octet-stream"].

(** [Set.prototype.has] *)
Definition has (s : list string) (x : string) : bool := bool_decide (x ∈ s).

(** [String.prototype.toLowerCase].  A name is the sequence of its UTF-16
    code units, and these are taken below 256: there the letters with a
    lower case are A to Z and, but for the sign of multiplication, those
    from U+00C0 to U+00DE, and the lower case is 32 further. *)
Definition lower_unit (c : Ascii.ascii) : Ascii.ascii :=
  let n := Ascii.nat_of_ascii c in
  if ((65 <=? n)%nat && (n <=? 90)%nat)
     || ((192 <=? n)%nat && (n <=? 222)%nat && negb (n =? 215)%nat)
  then Ascii.ascii_of_nat (n + 32)
  else c.

Fixpoint toLowerCase (s : string) : string :=
  match s with
  | EmptyString => EmptyString
  | String c s => String (lower_unit c) (toLowerCase s)
  end.

(** [extname] of Node's [path] module (posix), which is not part of the
    repository: the extension of the last portion of the path, from its
    last dot, empty when there is no dot or when the portion starts with
    its only dot.  The loop runs from the last character to the first. *)
Record ExtState := {
  startDot : Z; startPart : Z; end_ : Z;
  matchedSlash : bool; preDotState : Z
}.

Definition see_char (i : Z) (c : Ascii.ascii) (st : ExtState) : ExtState :=
  let st :=
    if (end_ st =? -1)%Z then
      {| startDot := startDot st; startPart := startPart st;
         end_ := (i + 1)%Z; matchedSlash := false;
         preDotState := preDotState st |}
    else st in
  if Ascii.eqb c (Ascii.ascii_of_nat 46) then
    if (startDot st =? -1)%Z then
      {| startDot := i; startPart := startPart st; end_ := end_ st;
         matchedSlash := matchedSlash st; preDotState := preDotState st |}
    else if negb (preDotState st =? 1)%Z then
      {| startDot := startDot st; startPart := startPart st;
         end_ := end_ st; matchedSlash := matchedSlash st;
         preDotState := 1 |}
    else st
  else if negb (startDot st =? -1)%Z then
    {| startDot := startDot st; startPart := startPart st; end_ := end_ st;
       matchedSlash := matchedSlash st; preDotState := -1 |}
  else st.

(** The characters are visited in reverse; [i] is the index of the head. *)
Fixpoint extname_loop (rev_path : list Ascii.ascii) (i : Z) (st : ExtState)
  : ExtState :=
  match rev_path with
  | [] => st
  | c :: rest =>
      if Ascii.eqb c (Ascii.ascii_of_nat 47) then
        if negb (matchedSlash st) then
          {| startDot := startDot st; startPart := (i + 1)%Z;
             end_ := end_ st; matchedSlash := matchedSlash st;
             preDotState := preDotState st |}
        else extname_loop rest (i - 1) st
      else extname_loop rest (i - 1) (see_char i c st)
  end.

Definition extname (path : string) : string :=
  let st := extname_loop (reverse (String.list_ascii_of_string path))
              (Z.of_nat (String.length path) - 1)
              {| startDot := -1; startPart := 0; end_ := -1;
                 matchedSlash := true; preDotState := 0 |} in
  if (startDot st =? -1)%Z || (end_ st =? -1)%Z || (preDotState st =? 0)%Z
     || ((preDotState st =? 1)%Z && (startDot st =? end_ st - 1)%Z
         && (startDot st =? startPart st + 1)%Z)
  then EmptyString
  else String.substring (Z.to_nat (startDot st))
         (Z.to_nat (end_ st - startDot st)) path.

(** [Array.prototype.join] *)
Definition join (sep : string) (l : list string) : string :=
  String.concat sep l.

(** The service reads [MAX_UPLOAD_MB] from the configuration (default 25). *)
Record Service := { maxFileSize : Z; maxFilesPerUpdate : nat }.

Definition new_Service (MAX_UPLOAD_MB : Z) : Service :=
  {| maxFileSize := (MAX_UPLOAD_MB * 1024 * 1024)%Z;
     maxFilesPerUpdate := 10 |}.

(** [validateFile]: returns normally or throws a [BadRequestException]. *)
Definition validateFile (this : Service) (file : File)
  : unit + Exception :=
  let ext := toLowerCase (extname (originalname file)) in
  if has BLOCKED_EXTENSIONS ext then
    inr (BadRequestException ("نوع الملف غير مسموح: " ++ ext))
  else if negb (has ALLOWED_EXTENSIONS ext) then
    inr (BadRequestException
           ("نوع الملف غير مدعوم: " ++ ext ++ ". الأنواع المدعومة: "
            ++ join ", " ALLOWED_EXTENSIONS))
  else if (maxFileSize this <? size file)%Z then
    inr (BadRequestException
           ("حجم الملف " ++ originalname file ++ " يتجاوز الحد الأقصى ("
            ++ pretty (maxFileSize this / 1024 / 1024)%Z ++ " MB)"))
  else inl tt.

(** A PDF file name carrying the MIME type of a Windows executable. *)
Definition disguised : File :=
  {| originalname := "report.pdf"; mimetype := "application/x-msdownload";
     size := 1024 |}.

End DailyUpdates.

(** Every row with this id carries a stamp. *)
Definition already_notified (tid : string) (rows : list Task) : Prop :=
  ∀ t, t ∈ rows → id t = tid → lastOverdueNotifiedAt t ≠ None.

(** ** Environments and worlds of the examples *)

(** No collaborator fails; every call takes 5 ms. *)
Definition quiet : Env := {| fails := λ _, false; latency := λ _, 5%Z |}.

(** The [k]-th call fails. *)
Definition failing_at (k : nat) : Env :=
  {| fails := λ j, bool_decide (j = k); latency := λ _, 5%Z |}.

(** An open task that fell due at time 0, assigned to U1. *)
Definition backlog_task (i : nat) : Task :=
  {| id := "task-" ++ pretty i; title := "Task " ++ pretty i;
     titleAr := "Task " ++ pretty i; dueDate := Some 0%Z;
     status := "in_progress"; isDeleted := false;
     lastOverdueNotifiedAt := None; assigneeUserId := Some "U1";
     createdById := None; trackId := None; assignments := [] |}.

(** [n] such tasks at time 1000, none of them notified yet. *)
Definition backlog (n : nat) : World :=
  {| tasks := backlog_task <$> seq 0 n; notifications := []; events := [];
     logs := []; trace := []; clock := 1000 |}.

(** The same tasks at time 2000, all of them notified at time 500. *)
Definition reminded (n : nat) : World :=
  {| tasks := set_lastOverdueNotifiedAt 500 <$> tasks (backlog n);
     notifications := []; events := []; logs := []; trace := [];
     clock := 2000 |}.

(** Assignee and creator U1, assignment users U2 and U3. *)
Definition shared_task : Task :=
  {| id := "task-s"; title := "Shared"; titleAr := "Shared";
     dueDate := Some 0%Z; status := "in_progress"; isDeleted := false;
     lastOverdueNotifiedAt := None; assigneeUserId := Some "U1";
     createdById := Some "U1"; trackId := None;
     assignments := [{| userId := "U2" |}; {| userId := "U3" |}] |}.

(** A task without assignee, creator or assignment users. *)
Definition orphan_task : Task :=
  {| id := "task-o"; title := "Orphan"; titleAr := "Orphan";
     dueDate := Some 0%Z; status := "in_progress"; isDeleted := false;
     lastOverdueNotifiedAt := None; assigneeUserId := None;
     createdById := None; trackId := None; assignments := [] |}.

Definition small_world : World :=
  {| tasks := [shared_task; orphan_task]; notifications := []; events := [];
     logs := []; trace := []; clock := 1000 |}.

(** ** Further observations of a run *)

(** The event pushed by a call, if any. *)
Definition event_of (op : Op) : option Event :=
  match op with
  | OpEmitToUser e => Some e
  | _ => None
  end.

(** The real-time events of the 15-minute scan for one row. *)
Definition overdue_events (task : Task) : list Event :=
  overdue_event task <$> JSSet.to_array (overdue_userIds task).

(** The durable notification of the daily scan for one row, if any. *)
Definition reminder_notifications (now : Z) (task : Task)
  : list Notification :=
  if (0 <? JSSet.size (reminder_userIds task))%nat then
    [{| recipients := JSSet.to_array (reminder_userIds task);
        payload := reminder_payload now task |}]
  else [].

(** What a run added to the log. *)
Definition new_logs (w w' : World) : list LogLine :=
  drop (length (logs w)) (logs w').

(** The notifications of the calls before the stamp are about the task. *)
Definition about_own_task (pre : Task → list Op) : Prop :=
  ∀ t, Forall (λ op, ∀ uids p,
                 op = OpCreateForUsers uids p → entityId p = id t) (pre t).

(** ** Characters of file names *)

Definition dot : Ascii.ascii := Ascii.ascii_of_nat 46.
Definition slash : Ascii.ascii := Ascii.ascii_of_nat 47.

(** Neither a dot nor a slash. *)
Definition plain (c : Ascii.ascii) : Prop :=
  Ascii.eqb c dot = false ∧ Ascii.eqb c slash = false.

(** The state of [extname] before the first character is read. *)
Definition ext_start : DailyUpdates.ExtState :=
  {| DailyUpdates.startDot := -1; DailyUpdates.startPart := 0;
     DailyUpdates.end_ := -1; DailyUpdates.matchedSlash := true;
     DailyUpdates.preDotState := 0 |}.

(** [validateFile] returns normally. *)
Definition accepted (r : unit + DailyUpdates.Exception) : Prop := r = inl tt.

(** ** The daily-updates service and the storage service

    [apps/api/src/daily-updates/daily-updates.service.ts],
    [apps/api/src/storage/storage.service.ts] and the handlers of
    [apps/api/src/daily-updates/daily-updates.controller.ts].

    The tables of daily updates, attachments and read marks, the files of
    the storage service and the counter behind generated identifiers make up
    a [Store].  A table is the list of its rows in the order of their
    insertion; a query by key returns the first row with that key, and an
    update by key rewrites every row with that key, so that the two agree
    when keys are unique.  Columns and relations that these functions
    neither test nor write (author, track, creation times, and the legacy
    [attachments] column that only [update] copies from its DTO) are left
    out, and so are [findAll], whose query parameters reach it as the
    framework parsed them, and the streams of [getStream].  Database calls
    fail only as written below; a call to the file system fails for what the
    store shows (a file that is not there) or as an oracle decides. *)

Module DU.
Import DailyUpdates.

Inductive HttpException :=
| BadRequest (msg : string)
| NotFound (msg : string)
| Forbidden (msg : string)
| Error (msg : string).

(** An entry pushed to [editHistory] by [update]; [editedAt] is the instant
    that [toISOString] prints. *)
Record EditEntry := {
  editedBy : string;
  editedAt : Z;
  previousTitle : string;
  previousContent : string
}.

Record DailyUpdate := {
  id : string;
  title : string;
  titleAr : string;
  content : string;
  contentAr : option string;
  type : option string;
  status : option string;
  progress : option Z;
  trackId : option string;
  pinned : bool;
  priority : option string;
  authorId : string;
  isDeleted : bool;
  editHistory : option (list EditEntry)
}.

Record Attachment := {
  att_id : string;
  att_updateId : string;
  originalName : string;
  storedName : string;
  mimeType : string;
  sizeBytes : Z;
  storageProvider : string;
  storagePath : string;
  uploadedById : string
}.

(** The columns of an attachment selected for the client. *)
Record AttachmentView := {
  v_id : string;
  v_originalName : string;
  v_mimeType : string;
  v_sizeBytes : Z
}.

Definition view (a : Attachment) : AttachmentView :=
  {| v_id := att_id a; v_originalName := originalName a;
     v_mimeType := mimeType a; v_sizeBytes := sizeBytes a |}.

(** A row of the read marks; the pair is unique in the table. *)
Record Read := { read_updateId : string; read_userId : string }.

#[global] Instance Read_eq_dec : EqDecision Read.
Proof. solve_decision. Defined.

(** [CreateDailyUpdateDto] without [attachments], which [create] does not
    read. *)
Record CreateDto := {
  c_title : string;
  c_titleAr : string;
  c_content : string;
  c_contentAr : option string;
  c_type : option string;
  c_status : option string;
  c_progress : option Z;
  c_trackId : option string;
  c_pinned : option bool;
  c_priority : option string
}.

(** [UpdateDailyUpdateDto] without [attachments]. *)
Record UpdateDto := {
  u_title : option string;
  u_titleAr : option string;
  u_content : option string;
  u_contentAr : option string;
  u_type : option string;
  u_status : option string;
  u_progress : option Z;
  u_trackId : option string;
  u_pinned : option bool;
  u_priority : option string
}.

(** The defaults of the columns that [create] may leave unset; the schema
    is not among the sources. *)
Record Defaults := {
  d_type : option string;
  d_status : option string;
  d_progress : option Z;
  d_pinned : bool;
  d_priority : option string;
  d_isDeleted : bool;
  d_editHistory : option (list EditEntry)
}.

(** An uploaded file as multer hands it over: on disk at [path] or in
    memory in [buffer]. *)
Record MulterFile := {
  file : File;
  path : option string;
  buffer : option string
}.

(** [StoredFile] *)
Record StoredFile := {
  sf_storedName : string;
  sf_storagePath : string;
  sf_storageProvider : string
}.

Record StorageService := { provider : string; uploadDir : string }.

Record Store := {
  updates : list DailyUpdate;
  attachments : list Attachment;
  reads : list Read;
  files : gmap string string;
  warnings : list string;
  generated : nat;
  now : Z
}.

Definition set_updates (us : list DailyUpdate) (s : Store) : Store :=
  {| updates := us; attachments := attachments s; reads := reads s;
     files := files s; warnings := warnings s; generated := generated s;
     now := now s |}.

Definition set_attachments (as_ : list Attachment) (s : Store) : Store :=
  {| updates := updates s; attachments := as_; reads := reads s;
     files := files s; warnings := warnings s; generated := generated s;
     now := now s |}.

Definition set_reads (rs : list Read) (s : Store) : Store :=
  {| updates := updates s; attachments := attachments s; reads := rs;
     files := files s; warnings := warnings s; generated := generated s;
     now := now s |}.

Definition set_files (fs : gmap string string) (s : Store) : Store :=
  {| updates := updates s; attachments := attachments s; reads := reads s;
     files := fs; warnings := warnings s; generated := generated s;
     now := now s |}.

Definition add_warning (msg : string) (s : Store) : Store :=
  {| updates := updates s; attachments := attachments s; reads := reads s;
     files := files s; warnings := warnings s ++ [msg];
     generated := generated s; now := now s |}.

Definition next_generated (s : Store) : Store :=
  {| updates := updates s; attachments := attachments s; reads := reads s;
     files := files s; warnings := warnings s; generated := S (generated s);
     now := now s |}.

(** *** State and exceptions *)

Definition M (A : Type) : Type := Store → (A + HttpException) * Store.

#[global] Instance M_ret : MRet M := λ A a s, (inl a, s).

#[global] Instance M_bind : MBind M := λ A B f m s,
  match m s with
  | (inl a, s1) => f a s1
  | (inr e, s1) => (inr e, s1)
  end.

Definition throw {A} (e : HttpException) : M A := λ s, (inr e, s).

Definition gets {A} (f : Store → A) : M A := λ s, (inl (f s), s).

Definition modify (f : Store → Store) : M unit := λ s, (inl tt, f s).

Fixpoint for_of {A} (l : list A) (body : A → M unit) : M unit :=
  match l with
  | [] => mret tt
  | x :: r => body x ;; for_of r body
  end.

(** [for (const x of l) { out.push(await body(x)) }] *)
Fixpoint collect {A B} (l : list A) (body : A → M B) : M (list B) :=
  match l with
  | [] => mret []
  | x :: r => y ← body x; ys ← collect r body; mret (y :: ys)
  end.

(** The identifier that the database, or [randomUUID], generates next. *)
Definition generate (prefix : string) : M string :=
  λ s, (inl (prefix +:+ pretty (generated s)), next_generated s).

(** [if (s)] on an optional string. *)
Definition truthy_string (o : option string) : option string :=
  match o with
  | Some s => if decide (s = EmptyString) then None else Some s
  | None => None
  end.

(** *** The database *)

(** The row with a given primary key, if any. *)
Definition find_update (i : string) (s : Store) : option DailyUpdate :=
  snd <$> list_find (λ u, id u = i) (updates s).

Definition dailyUpdate_findUnique (i : string) : M (option DailyUpdate) :=
  gets (find_update i).

Definition new_row (d : Defaults) (i : string) (dto : CreateDto)
    (author : string) : DailyUpdate :=
  {| id := i; title := c_title dto; titleAr := c_titleAr dto;
     content := c_content dto; contentAr := c_contentAr dto;
     type := from_option Some (d_type d) (c_type dto);
     status := from_option Some (d_status d) (c_status dto);
     progress := from_option Some (d_progress d) (c_progress dto);
     trackId := c_trackId dto;
     pinned := default (d_pinned d) (c_pinned dto);
     priority := from_option Some (d_priority d) (c_priority dto);
     authorId := author; isDeleted := d_isDeleted d;
     editHistory := d_editHistory d |}.

Definition dailyUpdate_create (d : Defaults) (dto : CreateDto)
    (author : string) : M DailyUpdate :=
  i ← generate "upd-";
  let row := new_row d i dto author in
  modify (λ s, set_updates (updates s ++ [row]) s) ;;
  mret row.

(** [update({ where: { id }, data })]; throws when no row has this id. *)
Definition dailyUpdate_update (i : string) (data : DailyUpdate → DailyUpdate)
  : M DailyUpdate :=
  found ← dailyUpdate_findUnique i;
  match found with
  | None => throw (Error "Record to update not found.")
  | Some u =>
      modify (λ s, set_updates
                     ((λ r, if decide (id r = i) then data r else r)
                        <$> updates s) s) ;;
      mret (data u)
  end.

Definition attachments_of (i : string) (s : Store) : list Attachment :=
  filter (λ a, att_updateId a = i) (attachments s).

Definition find_attachment (i : string) (s : Store) : option Attachment :=
  snd <$> list_find (λ a, att_id a = i) (attachments s).

Definition attachment_findUnique (i : string) : M (option Attachment) :=
  gets (find_attachment i).

Definition attachment_create (updateId : string) (f : MulterFile)
    (stored : StoredFile) (uploader : string) : M Attachment :=
  i ← generate "att-";
  let row := {| att_id := i; att_updateId := updateId;
                originalName := originalname (file f);
                storedName := sf_storedName stored;
                mimeType := mimetype (file f);
                sizeBytes := size (file f);
                storageProvider := sf_storageProvider stored;
                storagePath := sf_storagePath stored;
                uploadedById := uploader |} in
  modify (λ s, set_attachments (attachments s ++ [row]) s) ;;
  mret row.


Definition has_read (i user : string) (s : Store) : bool :=
  bool_decide
    (Exists (λ r, read_updateId r = i ∧ read_userId r = user) (reads s)).

(** [upsert({ where: { updateId_userId }, create, update: {} })] *)
Definition read_upsert (i user : string) : M unit :=
  modify (λ s, if has_read i user s then s
               else set_reads
                      (reads s
                       ++ [{| read_updateId := i; read_userId := user |}]) s).

(** [createMany({ data, skipDuplicates: true })] *)
Definition read_createMany (data : list Read) : M unit :=
  for_of data (λ r, read_upsert (read_updateId r) (read_userId r)).

(** *** The storage service *)

(** A call to Node's [fs] module that can fail. *)
Inductive FsCall :=
| CopyFileSync (src dest : string)
| WriteFileSync (dest : string)
| UnlinkSync (p : string).

Definition try_catch {A} (m : M A) (handler : HttpException → M A) : M A :=
  λ s, match m s with
       | (inl a, s1) => (inl a, s1)
       | (inr e, s1) => handler e s1
       end.

Section Storage.
(** [join] of Node's [path] module. *)
Context (join : string → string → string).
(** The faults of the file system that the store does not explain: a
    missing directory (the constructor of the storage service creates the
    upload directory only when the provider is LOCAL), a refused
    permission, a full disk.  [fs_fault] tells for every call, in every
    store, whether the call fails in this way, and then with which
    message. *)
Context (fs_fault : FsCall → Store → option string).

Definition copyFileSync (src dest : string) : M unit :=
  fault ← gets (fs_fault (CopyFileSync src dest));
  match fault with
  | Some msg => throw (Error msg)
  | None =>
      found ← gets (λ s, files s !! src);
      match found with
      | None =>
          throw (Error ("ENOENT: no such file or directory, copyfile '"
                        +:+ src +:+ "' -> '" +:+ dest +:+ "'"))
      | Some bytes => modify (λ s, set_files (<[dest := bytes]> (files s)) s)
      end
  end.

Definition writeFileSync (dest bytes : string) : M unit :=
  fault ← gets (fs_fault (WriteFileSync dest));
  match fault with
  | Some msg => throw (Error msg)
  | None => modify (λ s, set_files (<[dest := bytes]> (files s)) s)
  end.

Definition unlinkSync (p : string) : M unit :=
  fault ← gets (fs_fault (UnlinkSync p));
  match fault with
  | Some msg => throw (Error msg)
  | None =>
      found ← gets (λ s, files s !! p);
      match found with
      | None =>
          throw (Error ("ENOENT: no such file or directory, unlink '"
                        +:+ p +:+ "'"))
      | Some _ => modify (λ s, set_files (delete p (files s)) s)
      end
  end.


Definition uploadToLocal (this : StorageService) (f : MulterFile)
    (name : string) : M StoredFile :=
  let storagePath := join (uploadDir this) name in
  match truthy_string (path f) with
  | Some p =>
      copyFileSync p storagePath ;;
      try_catch (unlinkSync p) (λ _, mret tt)
  | None =>
      match buffer f with
      | Some bytes => writeFileSync storagePath bytes
      | None => mret tt
      end
  end ;;
  mret {| sf_storedName := name; sf_storagePath := storagePath;
          sf_storageProvider := "LOCAL" |}.

Definition uploadToS3 (this : StorageService) (f : MulterFile)
    (name : string) : M StoredFile :=
  modify (add_warning
            "S3 not fully configured — falling back to local storage") ;;
  result ← uploadToLocal this f name;
  mret {| sf_storedName := sf_storedName result;
          sf_storagePath := sf_storagePath result;
          sf_storageProvider := "LOCAL" |}.

Definition upload (this : StorageService) (f : MulterFile) : M StoredFile :=
  let ext := toLowerCase (extname (originalname (file f))) in
  uuid ← generate "uuid-";
  let name := uuid +:+ ext in
  if decide (provider this = "S3") then uploadToS3 this f name
  else uploadToLocal this f name.




(** *** The daily-updates service *)

Definition not_found_update : HttpException := NotFound "التحديث غير موجود".
Definition not_found_attachment : HttpException := NotFound "المرفق غير موجود".

Definition validate (this : Service) (f : MulterFile) : M unit :=
  match validateFile this (file f) with
  | inl _ => mret tt
  | inr (BadRequestException msg) => throw (BadRequest msg)
  end.

(** The [fileAttachments] included with an update. *)
Definition fileAttachments (i : string) (s : Store) : list AttachmentView :=
  view <$> attachments_of i s.

Definition findById (i : string) : M (DailyUpdate * list AttachmentView) :=
  update ← dailyUpdate_findUnique i;
  match update with
  | Some u =>
      if isDeleted u then throw not_found_update
      else atts ← gets (fileAttachments i); mret (u, atts)
  | None => throw not_found_update
  end.

Definition store_file (this : StorageService) (updateId uploader : string)
    (f : MulterFile) : M Attachment :=
  stored ← upload this f;
  attachment_create updateId f stored uploader.

Definition create (this : Service) (storage : StorageService) (d : Defaults)
    (dto : CreateDto) (author : string) (fs : option (list MulterFile))
  : M (DailyUpdate * list AttachmentView) :=
  match fs with
  | Some l =>
      if (maxFilesPerUpdate this <? length l)%nat then
        throw (BadRequest ("الحد الأقصى " +:+ pretty (maxFilesPerUpdate this)
                           +:+ " ملفات لكل تحديث"))
      else mret tt
  | None => mret tt
  end ;;
  match fs with
  | Some l => for_of l (validate this)
  | None => mret tt
  end ;;
  update ← dailyUpdate_create d dto author;
  match fs with
  | Some l =>
      if (0 <? length l)%nat then
        for_of l (λ f, store_file storage (id update) author f ;; mret tt)
      else mret tt
  | None => mret tt
  end ;;
  findById (id update).

Definition may_edit (u : DailyUpdate) (user role : string) : bool :=
  bool_decide (authorId u = user) || bool_decide (role ∈ ["admin"; "pm"]).

Definition apply_dto (dto : UpdateDto) (history : list EditEntry)
    (u : DailyUpdate) : DailyUpdate :=
  {| id := id u;
     title := default (title u) (u_title dto);
     titleAr := default (titleAr u) (u_titleAr dto);
     content := default (content u) (u_content dto);
     contentAr := from_option Some (contentAr u) (u_contentAr dto);
     type := from_option Some (type u) (u_type dto);
     status := from_option Some (status u) (u_status dto);
     progress := from_option Some (progress u) (u_progress dto);
     trackId := from_option Some (trackId u) (u_trackId dto);
     pinned := default (pinned u) (u_pinned dto);
     priority := from_option Some (priority u) (u_priority dto);
     authorId := authorId u; isDeleted := isDeleted u;
     editHistory := Some history |}.

Definition update (i : string) (dto : UpdateDto) (user role : string)
  : M (DailyUpdate * list AttachmentView) :=
  existing ← dailyUpdate_findUnique i;
  match existing with
  | None => throw not_found_update
  | Some u =>
      if isDeleted u then throw not_found_update
      else if negb (may_edit u user role) then
        throw (Forbidden "لا يمكنك تعديل هذا التحديث")
      else
        t ← gets now;
        let history :=
          default [] (editHistory u)
          ++ [{| editedBy := user; editedAt := t;
                 previousTitle := titleAr u;
                 previousContent :=
                   default (content u) (truthy_string (contentAr u)) |}] in
        row ← dailyUpdate_update i (apply_dto dto history);
        atts ← gets (fileAttachments i);
        mret (row, atts)
  end.

Definition soft_delete (u : DailyUpdate) : DailyUpdate :=
  {| id := id u; title := title u; titleAr := titleAr u;
     content := content u; contentAr := contentAr u; type := type u;
     status := status u; progress := progress u; trackId := trackId u;
     pinned := pinned u; priority := priority u; authorId := authorId u;
     isDeleted := true; editHistory := editHistory u |}.

(** [delete], a soft delete. *)
Definition delete (i user role : string) : M string :=
  existing ← dailyUpdate_findUnique i;
  match existing with
  | None => throw not_found_update
  | Some u =>
      if negb (may_edit u user role) then
        throw (Forbidden "لا يمكنك حذف هذا التحديث")
      else
        dailyUpdate_update i soft_delete ;;
        mret "تم حذف التحديث"
  end.

Definition addAttachments (this : Service) (storage : StorageService)
    (updateId : string) (l : list MulterFile) (uploader : string)
  : M (list AttachmentView) :=
  update ← dailyUpdate_findUnique updateId;
  match update with
  | None => throw not_found_update
  | Some u =>
      if isDeleted u then throw not_found_update
      else
        existingCount ← gets (λ s, length (attachments_of updateId s));
        if (maxFilesPerUpdate this <? existingCount + length l)%nat then
          throw (BadRequest
                   ("الحد الأقصى " +:+ pretty (maxFilesPerUpdate this)
                    +:+ " ملفات لكل تحديث. الموجود: "
                    +:+ pretty existingCount))
        else
          for_of l (validate this) ;;
          collect l (λ f, att ← store_file storage updateId uploader f;
                          mret (view att))
  end.

Definition getAttachment (i : string) : M Attachment :=
  att ← attachment_findUnique i;
  match att with
  | None => throw not_found_attachment
  | Some a =>
      update ← dailyUpdate_findUnique (att_updateId a);
      match update with
      | Some u => if isDeleted u then throw not_found_attachment else mret a
      | None => throw (Error "Cannot read properties of null")
      end
  end.


Definition markAsRead (updateId user : string) : M bool :=
  existing ← dailyUpdate_findUnique updateId;
  match existing with
  | None => throw not_found_update
  | Some u =>
      if isDeleted u then throw not_found_update
      else read_upsert updateId user ;; mret true
  end.

(** The live updates without a read mark of [user]. *)
Definition unread (user : string) (s : Store) : list DailyUpdate :=
  filter (λ u, isDeleted u = false ∧ has_read (id u) user s = false)
    (updates s).

Definition markAllAsRead (user : string) : M nat :=
  unreadUpdates ← gets (unread user);
  (if (0 <? length unreadUpdates)%nat then
     read_createMany
       ((λ u, {| read_updateId := id u; read_userId := user |})
          <$> unreadUpdates)
   else mret tt) ;;
  mret (length unreadUpdates).

Definition getUnreadCount (user : string) : M Z :=
  totalUpdates ←
    gets (λ s, length (filter (λ u, isDeleted u = false) (updates s)));
  readCount ←
    gets (λ s, length (filter (λ r, read_userId r = user) (reads s)));
  mret (Z.max 0 (Z.of_nat totalUpdates - Z.of_nat readCount)).

Definition set_pinned (b : bool) (u : DailyUpdate) : DailyUpdate :=
  {| id := id u; title := title u; titleAr := titleAr u;
     content := content u; contentAr := contentAr u; type := type u;
     status := status u; progress := progress u; trackId := trackId u;
     pinned := b; priority := priority u; authorId := authorId u;
     isDeleted := isDeleted u; editHistory := editHistory u |}.

Definition togglePin (i : string) : M (DailyUpdate * list AttachmentView) :=
  existing ← dailyUpdate_findUnique i;
  match existing with
  | None => throw not_found_update
  | Some u =>
      row ← dailyUpdate_update i (set_pinned (negb (pinned u)));
      atts ← gets (fileAttachments i);
      mret (row, atts)
  end.

End Storage.
(** *** The controller

    The handler methods that do more than pass their arguments on, without
    the guards and interceptors of their decorators.  The audit service is
    not among the sources: [audit_log] is any computation on the store.
    [user] and [role] are the fields [id] and [role] of the current user,
    [req_ip] is [req.ip]. *)

Record AuditEntry := {
  actorId : string;
  actionType : string;
  entityType : string;
  entityId : string;
  a_trackId : option string;
  beforeData : option (DailyUpdate * list AttachmentView);
  afterData : option (DailyUpdate * list AttachmentView);
  ip : string
}.

Section Controller.
Context (join : string → string → string).
Context (fs_fault : FsCall → Store → option string).
Context (audit_log : AuditEntry → M unit).

Definition controller_create (this : Service) (storage : StorageService)
    (d : Defaults) (dto : CreateDto) (fs : option (list MulterFile))
    (user req_ip : string) : M (DailyUpdate * list AttachmentView) :=
  result ← create join fs_fault this storage d dto user fs;
  audit_log {| actorId := user; actionType := "create";
               entityType := "daily_update"; entityId := id result.1;
               a_trackId := c_trackId dto; beforeData := None;
               afterData := Some result; ip := req_ip |} ;;
  mret result.

Definition controller_update (i : string) (dto : UpdateDto)
    (user role req_ip : string) : M (DailyUpdate * list AttachmentView) :=
  before ← findById i;
  result ← update i dto user role;
  audit_log {| actorId := user; actionType := "update";
               entityType := "daily_update"; entityId := i;
               a_trackId := truthy_string (trackId before.1);
               beforeData := Some before; afterData := Some result;
               ip := req_ip |} ;;
  mret result.

Definition controller_delete (i user role req_ip : string) : M string :=
  before ← findById i;
  result ← delete i user role;
  audit_log {| actorId := user; actionType := "delete";
               entityType := "daily_update"; entityId := i;
               a_trackId := truthy_string (trackId before.1);
               beforeData := Some before; afterData := None;
               ip := req_ip |} ;;
  mret result.

Definition controller_addAttachments (this : Service)
    (storage : StorageService) (updateId : string)
    (fs : option (list MulterFile)) (user : string)
  : M (list AttachmentView) :=
  match fs with
  | Some (f :: l) =>
      addAttachments join fs_fault this storage updateId (f :: l) user
  | _ => throw (BadRequest "لم يتم اختيار ملفات")
  end.

End Controller.

End DU.

(** The message of the first file that [validateFile] rejects. *)
Fixpoint first_invalid (this : DailyUpdates.Service)
    (l : list DU.MulterFile) : option string :=
  match l with
  | [] => None
  | f :: l =>
      match DailyUpdates.validateFile this (DU.file f) with
      | inl _ => first_invalid this l
      | inr (DailyUpdates.BadRequestException msg) => Some msg
      end
  end.

(** The primary key of the table of daily updates. *)
Definition unique_update_ids (s : DU.Store) : Prop :=
  NoDup (DU.id <$> DU.updates s).

(** The unique pair of the table of read marks. *)
Definition unique_reads (s : DU.Store) : Prop := NoDup (DU.reads s).

(** Every read mark refers to a daily update. *)
Definition reads_refer_to_updates (s : DU.Store) : Prop :=
  Forall (λ r, DU.read_updateId r ∈ DU.id <$> DU.updates s) (DU.reads s).

(** The read marks of a user on deleted updates. *)
Definition stale_reads (user : string) (s : DU.Store) : list DU.DailyUpdate :=
  filter (λ u, DU.isDeleted u = true ∧ DU.has_read (DU.id u) user s = true)
    (DU.updates s).

(** The attachment row that [upload] and [dailyUpdateAttachment.create]
    write for a file when [n] identifiers have been generated. *)
Definition stored_attachment (join : string → string → string)
    (storage : DU.StorageService) (i who : string) (n : nat)
    (f : DU.MulterFile) : DU.Attachment :=
  let name := ("uuid-" +:+ pretty n)
              +:+ DailyUpdates.toLowerCase
                    (DailyUpdates.extname
                       (DailyUpdates.originalname (DU.file f))) in
  {| DU.att_id := "att-" +:+ pretty (S n); DU.att_updateId := i;
     DU.originalName := DailyUpdates.originalname (DU.file f);
     DU.storedName := name;
     DU.mimeType := DailyUpdates.mimetype (DU.file f);
     DU.sizeBytes := DailyUpdates.size (DU.file f);
     DU.storageProvider := "LOCAL";
     DU.storagePath := join (DU.uploadDir storage) name;
     DU.uploadedById := who |}.

Fixpoint stored_attachments (join : string → string → string)
    (storage : DU.StorageService) (i who : string) (n : nat)
    (l : list DU.MulterFile) : list DU.Attachment :=
  match l with
  | [] => []
  | f :: l =>
      stored_attachment join storage i who n f
      :: stored_attachments join storage i who (S (S n)) l
  end.

(** An attachment row, or its view, holds the name, type and size of a
    file. *)
Definition holds (a : DU.Attachment) (f : DU.MulterFile) : Prop :=
  DU.originalName a = DailyUpdates.originalname (DU.file f)
  ∧ DU.mimeType a = DailyUpdates.mimetype (DU.file f)
  ∧ DU.sizeBytes a = DailyUpdates.size (DU.file f).

Definition shows (v : DU.AttachmentView) (f : DU.MulterFile) : Prop :=
  DU.v_originalName v = DailyUpdates.originalname (DU.file f)
  ∧ DU.v_mimeType v = DailyUpdates.mimetype (DU.file f)
  ∧ DU.v_sizeBytes v = DailyUpdates.size (DU.file f).

(** The read mark of a user on an update. *)
Definition mark (i user : string) : DU.Read :=
  {| DU.read_updateId := i; DU.read_userId := user |}.

(** ** Stores of the daily-updates examples *)

Definition simple_join (dir name : string) : string := dir +:+ "/" +:+ name.

(** A file system without faults. *)
Definition no_fault (c : DU.FsCall) (s : DU.Store) : option string := None.


(** A file system without the upload directory. *)
Definition no_upload_dir (c : DU.FsCall) (s : DU.Store) : option string :=
  match c with
  | DU.CopyFileSync src dest =>
      Some ("ENOENT: no such file or directory, copyfile '" +:+ src
            +:+ "' -> '" +:+ dest +:+ "'")
  | DU.WriteFileSync dest =>
      Some ("ENOENT: no such file or directory, open '" +:+ dest +:+ "'")
  | DU.UnlinkSync _ => None
  end.

Definition defaults : DU.Defaults :=
  {| DU.d_type := Some "global"; DU.d_status := None; DU.d_progress := None;
     DU.d_pinned := false; DU.d_priority := Some "normal";
     DU.d_isDeleted := false; DU.d_editHistory := None |}.

Definition local_storage : DU.StorageService :=
  {| DU.provider := "LOCAL"; DU.uploadDir := "/srv/uploads" |}.

Definition s3_storage : DU.StorageService :=
  {| DU.provider := "S3"; DU.uploadDir := "/srv/uploads" |}.

(** A small PDF that multer wrote to [/tmp]. *)
Definition temp_file (name : string) : DU.MulterFile :=
  {| DU.file := {| DailyUpdates.originalname := name;
                   DailyUpdates.mimetype := "application/pdf";
                   DailyUpdates.size := 10 |};
     DU.path := Some ("/tmp/" +:+ name); DU.buffer := None |}.

Definition fresh_store : DU.Store :=
  {| DU.updates := []; DU.attachments := []; DU.reads := [];
     DU.files := {["/tmp/a.PDF" := "AAA"; "/tmp/b.pdf" := "BBB"]};
     DU.warnings := []; DU.generated := 0; DU.now := 1000 |}.

Definition plain_dto : DU.CreateDto :=
  {| DU.c_title := "Title"; DU.c_titleAr := "TitleAr";
     DU.c_content := "Content"; DU.c_contentAr := None; DU.c_type := None;
     DU.c_status := None; DU.c_progress := None; DU.c_trackId := None;
     DU.c_pinned := None; DU.c_priority := None |}.

(** The store after alice created an update with two attachments. *)
Definition one_update : DU.Store :=
  (DU.create simple_join no_fault (DailyUpdates.new_Service 25)
     local_storage defaults plain_dto "alice"
     (Some [temp_file "a.PDF"; temp_file "b.pdf"]) fresh_store).2.

(** A small image that multer holds in memory. *)
Definition memory_file (name : string) : DU.MulterFile :=
  {| DU.file := {| DailyUpdates.originalname := name;
                   DailyUpdates.mimetype := "image/png";
                   DailyUpdates.size := 20 |};
     DU.path := None; DU.buffer := Some "PNG" |}.

(** An edit of the Arabic title alone. *)
Definition retitle : DU.UpdateDto :=
  {| DU.u_title := None; DU.u_titleAr := Some "NewTitleAr";
     DU.u_content := None; DU.u_contentAr := None; DU.u_type := None;
     DU.u_status := None; DU.u_progress := None; DU.u_trackId := None;
     DU.u_pinned := None; DU.u_priority := None |}.

(** The store after alice created a second update, without files. *)
Definition two_updates : DU.Store :=
  (DU.create simple_join no_fault (DailyUpdates.new_Service 25)
     local_storage defaults plain_dto "alice" None one_update).2.

(** The store after bob read the first update and alice deleted it. *)
Definition read_then_deleted : DU.Store :=
  (DU.delete "upd-0" "alice" "user"
     (DU.markAsRead "upd-0" "bob" two_updates).2).2.

(** An audit service that keeps its entries among the warnings. *)
Definition audit_to_warnings (e : DU.AuditEntry) : DU.M unit :=
  DU.modify (DU.add_warning
               ("audit " +:+ DU.actionType e +:+ " " +:+ DU.entityId e)).

(** ** Further worlds of the scheduler examples *)

(** A completed task that fell due at time 0. *)
Definition done_task : Task :=
  {| id := "task-d"; title := "Done"; titleAr := "Done";
     dueDate := Some 0%Z; status := "completed"; isDeleted := false;
     lastOverdueNotifiedAt := None; assigneeUserId := Some "U1";
     createdById := None; trackId := None; assignments := [] |}.

Definition mixed_world : World :=
  {| tasks := [done_task; shared_task]; notifications := []; events := [];
     logs := []; trace := []; clock := 1000 |}.

(** * Properties *)

(** ** The monad and the loops *)

Lemma bind_unfold {A B} (m : M A) (f : A → M B) (w : World) :
  (m ≫= f) w = match m w with
               | (Ok a, w1) => f a w1
               | (Throw e, w1) => (Throw e, w1)
               end.
Proof. reflexivity. Qed.

Lemma bind_ext {A B} (m m' : M A) (f f' : A → M B) (w : World) :
  m w = m' w → (∀ a w1, f a w1 = f' a w1) → (m ≫= f) w = (m' ≫= f') w.
Proof.
  intros Hm Hf. rewrite !bind_unfold, Hm.
  destruct (m' w) as [[a|e] w1]; [apply Hf | reflexivity].
Qed.

Lemma bind_ret_unit (m : M unit) (w : World) : (m ;; mret tt) w = m w.
Proof.
  rewrite bind_unfold. destruct (m w) as [[[]|e] w1]; reflexivity.
Qed.

Lemma for_of_app {A} (l1 l2 : list A) (body : A → M unit) (w : World) :
  for_of (l1 ++ l2) body w = (for_of l1 body ;; for_of l2 body) w.
Proof.
  revert w. induction l1 as [|x l1 IH]; intros w; [reflexivity|].
  simpl. rewrite !bind_unfold.
  destruct (body x w) as [[[]|e] w1]; [apply IH | reflexivity].
Qed.

Lemma for_of_ext {A} (l : list A) (body body' : A → M unit) (w : World) :
  (∀ x w1, body x w1 = body' x w1) → for_of l body w = for_of l body' w.
Proof.
  intros Hb. revert w. induction l as [|x l IH]; intros w; [reflexivity|].
  simpl. apply bind_ext; [apply Hb | intros _ w1; apply IH].
Qed.

Lemma for_of_fmap {A B} (g : A → B) (l : list A) (body : B → M unit) w :
  for_of (g <$> l) body w = for_of l (λ x, body (g x)) w.
Proof.
  revert w. induction l as [|x l IH]; intros w; [reflexivity|].
  simpl. apply bind_ext; [reflexivity | intros _ w1; apply IH].
Qed.

Lemma for_of_flatten {A B} (g : A → list B) (l : list A) (body : B → M unit) w :
  for_of (l ≫= g) body w = for_of l (λ x, for_of (g x) body) w.
Proof.
  revert w. induction l as [|x l IH]; intros w; [reflexivity|].
  simpl. rewrite for_of_app.
  apply bind_ext; [reflexivity | intros _ w1; apply IH].
Qed.

Section Scripts.
Context (env : Env).

Lemma run_ops_app (ops1 ops2 : list Op) (w : World) :
  run_ops env (ops1 ++ ops2) w = (run_ops env ops1 ;; run_ops env ops2) w.
Proof. apply for_of_app. Qed.

Lemma run_ops_one (op : Op) (w : World) :
  run_ops env [op] w = call env op (perform op) w.
Proof. apply bind_ret_unit. Qed.

(** The loop bodies are their scripts. *)
Lemma detect_one_script (now : Z) (task : Task) (w : World) :
  detect_one env now task w
  = run_ops env (iteration overdue_calls now task) w.
Proof.
  unfold detect_one, iteration. rewrite run_ops_app.
  apply bind_ext; [|intros _ w1; symmetry; apply run_ops_one].
  unfold overdue_calls.
  destruct (0 <? JSSet.size (overdue_userIds task))%nat; [|reflexivity].
  change (?x :: ?l) with ([x] ++ l). rewrite run_ops_app.
  apply bind_ext; [symmetry; apply run_ops_one|].
  intros _ w1. unfold run_ops. rewrite for_of_fmap. reflexivity.
Qed.

Lemma remind_one_script (now : Z) (task : Task) (w : World) :
  remind_one env now task w
  = run_ops env (iteration (reminder_calls now) now task) w.
Proof.
  unfold remind_one, iteration. rewrite run_ops_app.
  apply bind_ext; [|intros _ w1; symmetry; apply run_ops_one].
  unfold reminder_calls.
  destruct (0 <? JSSet.size (reminder_userIds task))%nat; [|reflexivity].
  symmetry. apply run_ops_one.
Qed.

End Scripts.

Lemma data_eq_refl (w : World) : data_eq w w.
Proof. repeat split. Qed.

Lemma data_eq_trans (w1 w2 w3 : World) :
  data_eq w1 w2 → data_eq w2 w3 → data_eq w1 w3.
Proof. unfold data_eq. intuition congruence. Qed.

Lemma effect_data_eq (op : Op) (w1 w2 : World) :
  data_eq w1 w2 → data_eq (effect op w1) (effect op w2).
Proof.
  intros (Ht & Hn & He). destruct op; unfold data_eq; simpl;
    rewrite ?Ht, ?Hn, ?He; auto.
Qed.

Lemma effects_data_eq (ops : list Op) (w1 w2 : World) :
  data_eq w1 w2 → data_eq (effects ops w1) (effects ops w2).
Proof.
  revert w1 w2. induction ops as [|op ops IH]; intros w1 w2 H; [exact H|].
  apply IH, effect_data_eq, H.
Qed.

Lemma effects_app (ops1 ops2 : list Op) (w : World) :
  effects (ops1 ++ ops2) w = effects ops2 (effects ops1 w).
Proof. apply foldl_app. Qed.

Lemma stamp_ids (ts : Z) (tid : string) (rows : list Task) :
  id <$> stamp ts tid rows = id <$> rows.
Proof.
  unfold stamp. rewrite <- list_fmap_compose. apply list_fmap_ext.
  intros i t _. simpl. destruct (decide (id t = tid)); reflexivity.
Qed.

Lemma effect_ids (op : Op) (w : World) :
  id <$> tasks (effect op w) = id <$> tasks w.
Proof. destruct op; simpl; auto using stamp_ids. Qed.

Lemma effect_clock op w : clock (effect op w) = clock w.
Proof. destruct op; reflexivity. Qed.
Lemma effect_logs op w : logs (effect op w) = logs w.
Proof. destruct op; reflexivity. Qed.
Lemma effect_trace op w : trace (effect op w) = trace w.
Proof. destruct op; reflexivity. Qed.

(** ** Outcome of a script *)

Section Outcome.
Context (env : Env).

Lemma perform_ok (op : Op) (w : World) :
  (∀ tid ts, op = OpUpdate tid ts → tid ∈ id <$> tasks w) →
  perform op w = (Ok tt, effect op w).
Proof.
  intros H. destruct op; try reflexivity.
  unfold perform. rewrite decide_True; [reflexivity | eauto].
Qed.

(** A call that got through, followed by a script. *)
Lemma outcome_cons (w w1 w' : World) (op : Op) (ops : list Op) r :
  fails env (length (trace w)) = false →
  trace w1 = trace w ++ [op] →
  data_eq w1 (effect op w) →
  outcome env w1 ops r w' →
  outcome env w (op :: ops) r w'.
Proof.
  intros Hf Htr Hd1 Ho.
  assert (Hshift : ∀ j, length (trace w1) + j = length (trace w) + S j)
    by (intros j; rewrite Htr, length_app; simpl; lia).
  inversion Ho as [w'' Ht Hnf Hde Hr Hw
                  | w'' done op' rest Hops Ht Hnf Hfl Hde Hr Hw]; subst.
  - apply Completed.
    + rewrite Ht, Htr, <- app_assoc. reflexivity.
    + intros [|j] Hj; [by rewrite Nat.add_0_r|].
      rewrite <- Hshift. apply Hnf. simpl in Hj. lia.
    + eapply data_eq_trans; [exact Hde|].
      apply (effects_data_eq ops w1 (effect op w)), Hd1.
  - apply (Aborted env w _ _ (op :: done) op' rest).
    + reflexivity.
    + rewrite Ht, Htr, <- !app_assoc. reflexivity.
    + intros [|j] Hj; [by rewrite Nat.add_0_r|].
      rewrite <- Hshift. apply Hnf. simpl in Hj. lia.
    + simpl. rewrite <- Hshift. exact Hfl.
    + eapply data_eq_trans; [exact Hde|].
      apply (effects_data_eq done w1 (effect op w)), Hd1.
Qed.

(** The first call fails. *)
Lemma outcome_fail_first (w w' : World) (op : Op) (ops : list Op) :
  fails env (length (trace w)) = true →
  trace w' = trace w ++ [op] →
  data_eq w' w →
  outcome env w (op :: ops) (Throw (CollaboratorFailure op)) w'.
Proof.
  intros Hf Htr Hd.
  apply (Aborted env w _ _ [] op ops);
    [reflexivity | exact Htr | simpl; lia | simpl; by rewrite Nat.add_0_r
    | exact Hd].
Qed.

Lemma outcome_add_log (w w' : World) (ops : list Op) r (l : LogLine) :
  outcome env w ops r w' → outcome env w ops r (add_log l w').
Proof.
  intros Ho. inversion Ho; subst.
  - apply Completed; auto.
  - eapply Aborted; eauto.
Qed.

(** The code of a script ends as [outcome] says, leaves the log alone and
    does not turn the clock back. *)
Lemma run_ops_outcome (ops : list Op) (w : World) :
  addressed ops w →
  outcome env w ops (run_ops env ops w).1 (run_ops env ops w).2
  ∧ logs (run_ops env ops w).2 = logs w
  ∧ (clock w ≤ clock (run_ops env ops w).2)%Z.
Proof.
  revert w. induction ops as [|op ops IH]; intros w Hadd.
  - simpl. split; [|split; [reflexivity | lia]].
    apply Completed; [by rewrite app_nil_r | simpl; lia | apply data_eq_refl].
  - apply Forall_cons in Hadd as [Hop Hadd].
    change (run_ops env (op :: ops) w)
      with ((call env op (perform op) ;; run_ops env ops) w).
    rewrite bind_unfold. unfold call.
    destruct (fails env (length (trace w))) eqn:Hf.
    + simpl. split; [|split; [reflexivity | lia]].
      by apply outcome_fail_first.
    + set (w1 := enter_call op _ w).
      rewrite perform_ok by exact Hop.
      destruct (IH (effect op w1)) as (Ho & Hl & Hc).
      { unfold addressed in *. rewrite effect_ids. exact Hadd. }
      rewrite effect_logs, effect_clock in *.
      split; [|split; [exact Hl | simpl in Hc; lia]].
      eapply outcome_cons; [exact Hf | | | exact Ho].
      * by rewrite effect_trace.
      * by apply effect_data_eq.
Qed.
End Outcome.

(** ** The two scans *)

Section Scans.
Context (env : Env).

Lemma selected_elem (wh : Where) (n : nat) (w : World) (t : Task) :
  t ∈ selected wh n w → t ∈ tasks w ∧ matches wh t = true.
Proof.
  unfold selected. intros Ht. apply elem_of_take in Ht as (i & Hi & _).
  apply list_elem_of_lookup_2, list_elem_of_filter in Hi as [Hm Hin].
  split; [exact Hin | by apply Is_true_eq_true].
Qed.

Lemma addressed_script pre now (sel : list Task) (w : World) :
  no_update pre →
  (∀ t, t ∈ sel → id t ∈ id <$> tasks w) →
  addressed (sel ≫= iteration pre now) w.
Proof.
  intros Hpre Hsel. apply Forall_bind, Forall_forall. intros t Ht.
  apply Forall_app. split.
  - eapply Forall_impl; [apply Hpre|]. simpl. intros op Hop tid ts ->.
    discriminate.
  - apply Forall_singleton. intros tid ts [= <- _]. auto.
Qed.

(** The loop of a scan, started after a successful query. *)
Lemma loop_outcome wh n pre now (body : Task → M unit) (w w1 : World) :
  (∀ t w2, body t w2 = run_ops env (iteration pre now t) w2) →
  no_update pre →
  fails env (length (trace w)) = false →
  trace w1 = trace w ++ [OpFindMany wh n] →
  data_eq w1 w →
  outcome env w (script wh n pre now (selected wh n w))
    (for_of (selected wh n w) body w1).1
    (for_of (selected wh n w) body w1).2
  ∧ logs (for_of (selected wh n w) body w1).2 = logs w1
  ∧ (clock w1 ≤ clock (for_of (selected wh n w) body w1).2)%Z.
Proof.
  intros Hbody Hpre Hf Htr Hd.
  assert (Hrun : for_of (selected wh n w) body w1
                 = run_ops env (selected wh n w ≫= iteration pre now) w1).
  { unfold run_ops. rewrite for_of_flatten. apply for_of_ext, Hbody. }
  rewrite Hrun.
  destruct (run_ops_outcome env (selected wh n w ≫= iteration pre now) w1)
    as (Ho & Hl & Hc).
  { apply addressed_script; [exact Hpre|]. intros t Ht.
    destruct Hd as (-> & _). apply list_elem_of_fmap_2.
    by apply selected_elem in Ht as [? _]. }
  split; [|by split].
  eapply outcome_cons; eauto.
Qed.

Lemma overdue_calls_no_update : no_update overdue_calls.
Proof.
  intros t. unfold overdue_calls.
  destruct (0 <? _)%nat; [|constructor].
  constructor; [reflexivity|]. apply Forall_fmap, Forall_true. reflexivity.
Qed.

Lemma reminder_calls_no_update now : no_update (reminder_calls now).
Proof.
  intros t. unfold reminder_calls.
  destruct (0 <? _)%nat; repeat constructor.
Qed.

(** A run of the 15-minute scan follows the script of the rows it
    selected, and returns normally. *)
Lemma detect_outcome (w : World) :
  (detectOverdueTasks env w).1 = Ok tt
  ∧ (∃ r, outcome env w
            (script (where_newly_overdue (clock w)) 100 overdue_calls
               (clock w) (newly_overdue w))
            r (detectOverdueTasks env w).2)
  ∧ (clock w ≤ clock (detectOverdueTasks env w).2)%Z.
Proof.
  unfold detectOverdueTasks, try_catch, newly_overdue.
  rewrite bind_unfold. simpl. rewrite bind_unfold.
  unfold prisma_task_findMany, call.
  destruct (fails env (length (trace w))) eqn:Hf.
  - simpl. split; [reflexivity|]. split; [|lia]. eexists.
    apply outcome_add_log, outcome_fail_first; [exact Hf | done | done].
  - set (w1 := enter_call _ _ w).
    change (take 100 (filter _ (tasks w1)))
      with (selected (where_newly_overdue (clock w)) 100 w).
    destruct (selected (where_newly_overdue (clock w)) 100 w) as [|t sel] eqn:Hsel.
    + simpl. split; [reflexivity|]. split; [|lia]. eexists.
      apply Completed; [reflexivity| |repeat split].
      intros j Hj. simpl in Hj. replace j with 0 by lia.
      by rewrite Nat.add_0_r.
    + rewrite <- Hsel. simpl (length _ =? 0)%nat.
      replace (length (selected (where_newly_overdue (clock w)) 100 w) =? 0)%nat
        with false by (by rewrite Hsel).
      rewrite !bind_unfold. unfold logger_log.
      set (w2 := add_log _ w1). rewrite bind_unfold.
      destruct (loop_outcome (where_newly_overdue (clock w)) 100
                  overdue_calls (clock w) (detect_one env (clock w)) w w2)
        as (Ho & Hl & Hc);
        [apply detect_one_script | apply overdue_calls_no_update | exact Hf
        | reflexivity | repeat split |].
      destruct (for_of _ (detect_one env (clock w)) w2) as [[[]|e] w3];
        simpl in Ho, Hc |- *.
      * split; [reflexivity|]. split; [|lia]. eexists.
        apply outcome_add_log. exact Ho.
      * split; [reflexivity|]. split; [|lia]. eexists.
        apply outcome_add_log. exact Ho.
Qed.

Lemma daily_outcome (w : World) :
  (sendDailyOverdueReminders env w).1 = Ok tt
  ∧ (∃ r, outcome env w
            (script (where_still_overdue (clock w)) 200
               (reminder_calls (clock w)) (clock w) (still_overdue w))
            r (sendDailyOverdueReminders env w).2)
  ∧ (clock w ≤ clock (sendDailyOverdueReminders env w).2)%Z.
Proof.
  unfold sendDailyOverdueReminders, try_catch, still_overdue.
  rewrite bind_unfold. simpl. rewrite bind_unfold.
  unfold prisma_task_findMany, call.
  destruct (fails env (length (trace w))) eqn:Hf.
  - simpl. split; [reflexivity|]. split; [|lia]. eexists.
    apply outcome_add_log, outcome_fail_first; [exact Hf | done | done].
  - set (w1 := enter_call _ _ w).
    change (take 200 (filter _ (tasks w1)))
      with (selected (where_still_overdue (clock w)) 200 w).
    destruct (selected (where_still_overdue (clock w)) 200 w) as [|t sel] eqn:Hsel.
    + simpl. split; [reflexivity|]. split; [|lia]. eexists.
      apply Completed; [reflexivity| |repeat split].
      intros j Hj. simpl in Hj. replace j with 0 by lia.
      by rewrite Nat.add_0_r.
    + rewrite <- Hsel. simpl (length _ =? 0)%nat.
      replace (length (selected (where_still_overdue (clock w)) 200 w) =? 0)%nat
        with false by (by rewrite Hsel).
      rewrite !bind_unfold. unfold logger_log.
      set (w2 := add_log _ w1).
      destruct (loop_outcome (where_still_overdue (clock w)) 200
                  (reminder_calls (clock w)) (clock w)
                  (remind_one env (clock w)) w w2)
        as (Ho & Hl & Hc);
        [apply remind_one_script | apply reminder_calls_no_update | exact Hf
        | reflexivity | repeat split |].
      destruct (for_of _ (remind_one env (clock w)) w2) as [[[]|e] w3];
        simpl in Ho, Hc |- *.
      * split; [reflexivity|]. split; [|lia]. eexists. exact Ho.
      * split; [reflexivity|]. split; [|lia]. eexists.
        apply outcome_add_log. exact Ho.
Qed.
End Scans.

(** ** Effects of scripts on the store and on the sink *)

Lemma stamp_all_nil (ts : Z) (rows : list Task) : stamp_all ts [] rows = rows.
Proof.
  unfold stamp_all. rewrite <- (list_fmap_id rows) at 2.
  apply list_fmap_ext. intros i t _. rewrite decide_False; [done|].
  apply not_elem_of_nil.
Qed.

Lemma stamp_all_cons (ts : Z) (tid : string) (ids : list string) rows :
  stamp_all ts ids (stamp ts tid rows) = stamp_all ts (tid :: ids) rows.
Proof.
  unfold stamp_all, stamp. rewrite <- list_fmap_compose.
  apply list_fmap_ext. intros i t _. simpl.
  destruct (decide (id t = tid)) as [Ht|Ht].
  - simpl. rewrite (decide_True (P := id t ∈ tid :: ids))
      by (rewrite Ht; apply list_elem_of_here).
    by destruct (decide (id t ∈ ids)).
  - destruct (decide (id t ∈ ids)) as [Hi|Hi].
    + rewrite decide_True; [done|]. by apply list_elem_of_further.
    + rewrite decide_False; [done|]. by intros [?|?]%elem_of_cons.
Qed.

Lemma stamp_all_ids (ts : Z) (ids : list string) (rows : list Task) :
  id <$> stamp_all ts ids rows = id <$> rows.
Proof.
  unfold stamp_all. rewrite <- list_fmap_compose. apply list_fmap_ext.
  intros i t _. simpl. by destruct (decide (id t ∈ ids)).
Qed.

Lemma effects_no_update (ops : list Op) (w : World) :
  Forall (λ op, is_update op = false) ops → tasks (effects ops w) = tasks w.
Proof.
  revert w. induction ops as [|op ops IH]; intros w Hops; [done|].
  apply Forall_cons in Hops as [Hop Hops]. simpl.
  change (tasks (effects ops (effect op w)) = tasks w).
  rewrite IH by done. by destruct op.
Qed.

Lemma tasks_effects_iterations pre now (sel : list Task) (w : World) :
  no_update pre →
  tasks (effects (sel ≫= iteration pre now) w)
  = stamp_all now (id <$> sel) (tasks w).
Proof.
  intros Hpre. revert w. induction sel as [|t sel IH]; intros w.
  - simpl. by rewrite stamp_all_nil.
  - rewrite bind_cons, effects_app, IH, fmap_cons, <- stamp_all_cons.
    f_equal. unfold iteration. rewrite effects_app. simpl.
    by rewrite effects_no_update.
Qed.

Lemma notifications_effects (ops : list Op) (w : World) :
  notifications (effects ops w) = notifications w ++ omap notification_of ops.
Proof.
  revert w. induction ops as [|op ops IH]; intros w.
  - simpl. by rewrite app_nil_r.
  - change (effects (op :: ops) w) with (effects ops (effect op w)).
    rewrite IH. destruct op; simpl; try done. by rewrite <- app_assoc.
Qed.

Lemma overdue_iteration_notifications now (t : Task) :
  omap notification_of (iteration overdue_calls now t)
  = overdue_notifications t.
Proof.
  unfold iteration, overdue_calls, overdue_notifications.
  rewrite omap_app. simpl. rewrite app_nil_r.
  destruct (0 <? _)%nat; [|done]. simpl. f_equal.
  induction (JSSet.to_array (overdue_userIds t)); [done|]. done.
Qed.

Lemma overdue_script_notifications now (sel : list Task) :
  omap notification_of (sel ≫= iteration overdue_calls now)
  = sel ≫= overdue_notifications.
Proof.
  induction sel as [|t sel IH]; [done|].
  by rewrite !bind_cons, omap_app, IH, overdue_iteration_notifications.
Qed.

(** Where a script of iterations can be cut. *)
Lemma iterations_split pre now (sel : list Task) done op rest :
  sel ≫= iteration pre now = done ++ op :: rest →
  ∃ sel1 t sel2 d1 d2,
    sel = sel1 ++ t :: sel2
    ∧ done = (sel1 ≫= iteration pre now) ++ d1
    ∧ iteration pre now t = d1 ++ op :: d2.
Proof.
  revert done. induction sel as [|t sel IH]; intros done Heq.
  - by destruct done.
  - rewrite bind_cons in Heq.
    apply app_eq_inv in Heq as [(l & Hit & Hrest)|(l & Hdone & Hsel)].
    + destruct l as [|x l].
      * rewrite app_nil_r in Hit. simpl in Hrest.
        destruct (IH [] (eq_sym Hrest)) as (s1 & t' & s2 & d1 & d2 & -> & Hd & Hi).
        exists (t :: s1), t', s2, d1, d2. split; [done|]. split; [|done].
        rewrite bind_cons, <- app_assoc, <- Hd, app_nil_r. done.
      * simpl in Hrest. injection Hrest as -> ->.
        exists [], t, sel, done, l. by rewrite Hit.
    + destruct (IH l Hsel) as (s1 & t' & s2 & d1 & d2 & -> & Hd & Hi).
      exists (t :: s1), t', s2, d1, d2. split; [done|]. split; [|done].
      by rewrite bind_cons, <- app_assoc, <- Hd.
Qed.

(** An iteration cut before one of its calls has not stamped yet. *)
Lemma iteration_cut_no_update pre now (t : Task) d1 op d2 :
  no_update pre →
  iteration pre now t = d1 ++ op :: d2 →
  Forall (λ op, is_update op = false) d1
  ∧ (op = OpUpdate (id t) now ∨ op ∈ pre t).
Proof.
  intros Hpre. unfold iteration. intros Heq.
  apply app_eq_inv in Heq as [(l & Hit & Hrest)|(l & Hdone & Hsel)].
  - destruct l as [|x l].
    + injection Hrest as -> ->. rewrite app_nil_r in Hit. subst d1.
      split; [apply Hpre | by left].
    + injection Hrest as <- Hl. split.
      * specialize (Hpre t). rewrite Hit in Hpre.
        by apply Forall_app in Hpre as [? _].
      * right. rewrite Hit. apply elem_of_app. right. apply list_elem_of_here.
  - destruct l as [|x l]; [|by destruct l].
    rewrite app_nil_r in Hdone. simpl in Hsel. injection Hsel as <- _. subst.
    split; [apply Hpre | by left].
Qed.

(** ** Rows *)

Lemma row_elem (rows : list Task) (t : Task) :
  unique_ids rows → t ∈ rows → row (id t) rows = Some t.
Proof.
  unfold unique_ids. induction rows as [|t' rows IH]; intros Hnd Hin.
  - by apply elem_of_nil in Hin.
  - rewrite fmap_cons in Hnd. apply NoDup_cons in Hnd as [Hni Hnd]. simpl.
    apply elem_of_cons in Hin as [->|Hin]; [by rewrite decide_True|].
    rewrite decide_False; [by apply IH|].
    intros Heq. apply Hni. rewrite Heq. by apply list_elem_of_fmap_2.
Qed.

Lemma row_stamp_all (ts : Z) (ids : list string) (tid : string) rows :
  row tid (stamp_all ts ids rows)
  = (λ t, if decide (tid ∈ ids) then set_lastOverdueNotifiedAt ts t else t)
      <$> row tid rows.
Proof.
  induction rows as [|t rows IH]; [done|]. simpl.
  destruct (decide (id t ∈ ids)) as [Hi|Hi]; simpl;
    destruct (decide (id t = tid)) as [Ht|Ht]; simpl; try apply IH.
  - rewrite <- Ht. by rewrite decide_True.
  - rewrite <- Ht. by rewrite decide_False.
Qed.

Section Progress.
Context (env : Env).

(** What a run added to the trace is a prefix of its script. *)
Lemma outcome_prefix (w w' : World) ops r :
  outcome env w ops r w' → new_trace w w' `prefix_of` ops.
Proof.
  unfold new_trace. intros Ho. inversion Ho; subst.
  - match goal with H : trace w' = _ |- _ => rewrite H end.
    by rewrite drop_app_length.
  - match goal with H : trace w' = _ |- _ => rewrite H end.
    rewrite drop_app_length. exists rest. by rewrite <- app_assoc.
Qed.

(** A failing call is the last call of the run. *)
Lemma outcome_abort (w w' : World) ops r (j : nat) :
  outcome env w ops r w' →
  length (trace w) ≤ j → j < length (trace w') → fails env j = true →
  S j = length (trace w') ∧ ∃ op, r = Throw (CollaboratorFailure op).
Proof.
  intros Ho Hlo Hhi Hf. inversion Ho as [w'' Ht Hnf Hde Hr Hw
                  | w'' done op' rest Hops Ht Hnf Hfl Hde Hr Hw]; subst.
  - rewrite Ht, length_app in Hhi.
    specialize (Hnf (j - length (trace w))).
    replace (length (trace w) + (j - length (trace w))) with j in Hnf by lia.
    rewrite Hnf in Hf by lia. discriminate.
  - rewrite Ht, !length_app in Hhi |- *. simpl in *. split; [|by eexists].
    destruct (decide (j - length (trace w) < length done)) as [Hlt|Hge];
      [|lia].
    specialize (Hnf _ Hlt).
    replace (length (trace w) + (j - length (trace w))) with j in Hnf by lia.
    congruence.
Qed.

(** Without failures the whole script is performed. *)
Lemma outcome_no_faults (w w' : World) ops r :
  (∀ j, length (trace w) ≤ j → j < length (trace w') → fails env j = false) →
  outcome env w ops r w' →
  r = Ok tt ∧ trace w' = trace w ++ ops ∧ data_eq w' (effects ops w).
Proof.
  intros Hnf Ho. inversion Ho as [w'' Ht Hnf' Hde Hr Hw
                  | w'' done op' rest Hops Ht Hnf' Hfl Hde Hr Hw]; subst.
  - done.
  - rewrite Hnf in Hfl; [done | lia |].
    rewrite Ht, !length_app. simpl. lia.
Qed.

(** The store after a run: the rows of the first [k] selected tasks are
    stamped, for some [k]. *)
Lemma outcome_progress wh n pre now (sel : list Task) (w w' : World) r :
  no_update pre →
  outcome env w (script wh n pre now sel) r w' →
  ∃ k, k ≤ length sel
       ∧ tasks w' = stamp_all now (id <$> take k sel) (tasks w)
       ∧ (r = Ok tt → k = length sel).
Proof.
  intros Hpre Ho. unfold script in Ho.
  inversion Ho as [w'' Ht Hnf Hde Hr Hw
                  | w'' done op' rest Hops Ht Hnf Hfl Hde Hr Hw]; subst.
  - exists (length sel). split; [done|]. split; [|done].
    destruct Hde as (-> & _). rewrite firstn_all.
    change (effects (?op :: ?ops) w) with (effects ops (effect op w)).
    by rewrite tasks_effects_iterations.
  - destruct Hde as (-> & _). destruct done as [|x done].
    + exists 0. split; [lia|]. split; [|done]. simpl.
      by rewrite stamp_all_nil.
    + simpl in Hops. injection Hops as <- Hops.
      apply iterations_split in Hops
        as (s1 & t & s2 & d1 & d2 & -> & -> & Hit).
      apply iteration_cut_no_update in Hit as [Hd1 _]; [|done].
      exists (length s1). split; [rewrite length_app; lia|].
      split; [|done]. rewrite take_app_length.
      change (effects (?op :: ?ops) w) with (effects ops (effect op w)).
      by rewrite effects_app, effects_no_update, tasks_effects_iterations.
Qed.
End Progress.

(** ** Selection *)

Lemma selected_NoDup (wh : Where) (n : nat) (w : World) :
  unique_ids (tasks w) → NoDup (id <$> selected wh n w).
Proof.
  intros Hu. apply (sublist_NoDup _ (id <$> tasks w)); [exact Hu|].
  apply fmap_sublist. unfold selected.
  etrans; [apply sublist_take | apply sublist_filter].
Qed.

Lemma matches_newly_overdue (now : Z) (t : Task) :
  matches (where_newly_overdue now) t = true
  ↔ isDeleted t = false
    ∧ (∃ d, dueDate t = Some d ∧ (d < now)%Z)
    ∧ status t ≠ "completed" ∧ status t ≠ "cancelled"
    ∧ lastOverdueNotifiedAt t = None.
Proof.
  unfold matches. simpl. rewrite !andb_true_iff, negb_true_iff.
  rewrite bool_decide_eq_false, !elem_of_cons, elem_of_nil.
  destruct (isDeleted t), (dueDate t) as [d|], (lastOverdueNotifiedAt t);
    simpl; try (split; [intuition discriminate | intros (?&(?&?&?)&?); try done; intuition discriminate]).
  rewrite Z.ltb_lt. split.
  - intros ([[_ Hd] Hs] & _). repeat split; eauto.
  - intros (_ & (d' & [= <-] & Hd) & Hs1 & Hs2 & _). intuition.
Qed.

Lemma matches_still_overdue (now : Z) (t : Task) :
  matches (where_still_overdue now) t = true
  ↔ isDeleted t = false
    ∧ (∃ d, dueDate t = Some d ∧ (d < now)%Z)
    ∧ status t ≠ "completed" ∧ status t ≠ "cancelled"
    ∧ lastOverdueNotifiedAt t ≠ None.
Proof.
  unfold matches. simpl. rewrite !andb_true_iff, negb_true_iff.
  rewrite bool_decide_eq_false, !elem_of_cons, elem_of_nil.
  destruct (isDeleted t), (dueDate t) as [d|], (lastOverdueNotifiedAt t);
    simpl; try (split; [intuition discriminate | intros (?&(?&?&?)&?); try done; intuition discriminate]).
  rewrite Z.ltb_lt. split.
  - intros ([[_ Hd] Hs] & _). repeat split; eauto.
  - intros (_ & (d' & [= <-] & Hd) & Hs1 & Hs2 & _). intuition.
Qed.

(** A row that matches keeps matching as time passes. *)
Lemma matches_later (wh : Where) (now' : Z) (t : Task) :
  (w_dueDate_lt wh ≤ now')%Z →
  matches wh t = true →
  matches {| w_isDeleted := w_isDeleted wh; w_dueDate_lt := now';
             w_status_notIn := w_status_notIn wh;
             w_lastOverdueNotifiedAt := w_lastOverdueNotifiedAt wh |} t = true.
Proof.
  unfold matches. simpl. intros Hle.
  rewrite !andb_true_iff. intros [[[? Hd] ?] ?]. repeat split; try done.
  destruct (dueDate t); [|done]. apply Z.ltb_lt in Hd. apply Z.ltb_lt. lia.
Qed.

(** ** Recipient sets *)

Lemma JSSet_elem_of_add (x u : string) (s : JSSet.t) :
  u ∈ JSSet.add x s ↔ u = x ∨ u ∈ s.
Proof.
  unfold JSSet.add. destruct (decide (x ∈ s)) as [Hx|Hx].
  - split; [by right | by intros [->|?]].
  - rewrite elem_of_app, list_elem_of_singleton. tauto.
Qed.

Lemma JSSet_NoDup_add (x : string) (s : JSSet.t) :
  NoDup s → NoDup (JSSet.add x s).
Proof.
  intros Hs. unfold JSSet.add. destruct (decide (x ∈ s)) as [Hx|Hx]; [done|].
  apply NoDup_app. split; [done|]. split; [|apply NoDup_singleton].
  intros y Hy ->%list_elem_of_singleton. done.
Qed.

Lemma add_assignments_elem (l : list Assignment) (s : JSSet.t) (u : string) :
  u ∈ foldl (λ s a, JSSet.add (userId a) s) s l ↔ u ∈ s ∨ u ∈ userId <$> l.
Proof.
  revert s. induction l as [|a l IH]; intros s; simpl.
  - rewrite elem_of_nil. tauto.
  - rewrite IH, JSSet_elem_of_add, elem_of_cons. tauto.
Qed.

Lemma add_assignments_NoDup (l : list Assignment) (s : JSSet.t) :
  NoDup s → NoDup (foldl (λ s a, JSSet.add (userId a) s) s l).
Proof.
  revert s. induction l as [|a l IH]; intros s Hs; [done|].
  simpl. by apply IH, JSSet_NoDup_add.
Qed.

Lemma add_truthy_elem (o : option string) (s : JSSet.t) (u : string) :
  u ∈ match truthy o with Some x => JSSet.add x s | None => s end
  ↔ truthy o = Some u ∨ u ∈ s.
Proof.
  destruct (truthy o) as [x|].
  - rewrite JSSet_elem_of_add. split; intros [H|H]; auto; left; congruence.
  - split; [by right | by intros [?|?]].
Qed.

Lemma add_truthy_NoDup (o : option string) (s : JSSet.t) :
  NoDup s → NoDup match truthy o with Some x => JSSet.add x s | None => s end.
Proof. destruct (truthy o); [apply JSSet_NoDup_add | done]. Qed.

Lemma overdue_userIds_elem (task : Task) (u : string) :
  u ∈ JSSet.to_array (overdue_userIds task)
  ↔ truthy (assigneeUserId task) = Some u
    ∨ truthy (createdById task) = Some u
    ∨ u ∈ userId <$> assignments task.
Proof.
  unfold overdue_userIds, JSSet.to_array.
  rewrite add_assignments_elem, !add_truthy_elem.
  unfold JSSet.empty. rewrite elem_of_nil. tauto.
Qed.

Lemma reminder_userIds_elem (task : Task) (u : string) :
  u ∈ JSSet.to_array (reminder_userIds task)
  ↔ truthy (assigneeUserId task) = Some u
    ∨ u ∈ userId <$> assignments task.
Proof.
  unfold reminder_userIds, JSSet.to_array.
  rewrite add_assignments_elem, !add_truthy_elem.
  unfold JSSet.empty. rewrite elem_of_nil. tauto.
Qed.

Lemma truthy_Some (o : option string) (u : string) :
  truthy o = Some u ↔ o = Some u ∧ u ≠ EmptyString.
Proof.
  destruct o as [s|]; simpl; [|split; [done | by intros [? _]]].
  destruct (decide (s = EmptyString)) as [->|Hs].
  - split; [done | intros [[= <-] ?]; done].
  - split; [intros [= <-]; done | intros [[= <-] ?]; done].
Qed.

Lemma overdue_userIds_union (task : Task) (u : string) :
  u ∈ JSSet.to_array (overdue_userIds task)
  ↔ (assigneeUserId task = Some u ∧ u ≠ EmptyString)
    ∨ (createdById task = Some u ∧ u ≠ EmptyString)
    ∨ u ∈ userId <$> assignments task.
Proof. rewrite overdue_userIds_elem, !truthy_Some. tauto. Qed.

(** C4: in the 15-minute scan the recipients of a task are the assignee (if
    set), the creator (if set) and the assignment users, each of them once;
    with assignee U1, creator U1 and assignments U2, U3 they are
    U1, U2, U3. *)
Theorem overdue_recipients_union :
  (∀ task u,
     u ∈ JSSet.to_array (overdue_userIds task)
     ↔ (assigneeUserId task = Some u ∧ u ≠ EmptyString)
       ∨ (createdById task = Some u ∧ u ≠ EmptyString)
       ∨ u ∈ userId <$> assignments task)
  ∧ (∀ task, NoDup (JSSet.to_array (overdue_userIds task)))
  ∧ JSSet.to_array (overdue_userIds shared_task) = ["U1"; "U2"; "U3"].
Proof.
  split; [|split].
  - apply overdue_userIds_union.
  - intros task. unfold overdue_userIds, JSSet.to_array.
    apply add_assignments_NoDup, add_truthy_NoDup, add_truthy_NoDup.
    apply NoDup_nil_2.
  - reflexivity.
Qed.

(** C5: in the daily scan the recipients of a task are the assignee (if set)
    and the assignment users; the creator is among them only as assignee or
    as assignment user, although the 15-minute scan notifies the creator. *)
Theorem reminder_recipients_exclude_creator :
  (∀ task u,
     u ∈ JSSet.to_array (reminder_userIds task)
     ↔ (assigneeUserId task = Some u ∧ u ≠ EmptyString)
       ∨ u ∈ userId <$> assignments task)
  ∧ (∀ task, NoDup (JSSet.to_array (reminder_userIds task)))
  ∧ (∀ task c,
       createdById task = Some c →
       c ∈ JSSet.to_array (reminder_userIds task) →
       assigneeUserId task = Some c ∨ c ∈ userId <$> assignments task)
  ∧ (∀ task c,
       createdById task = Some c → c ≠ EmptyString →
       c ∈ JSSet.to_array (overdue_userIds task)).
Proof.
  split; [|split; [|split]].
  - intros task u. rewrite reminder_userIds_elem, truthy_Some. tauto.
  - intros task. unfold reminder_userIds, JSSet.to_array.
    apply add_assignments_NoDup, add_truthy_NoDup, NoDup_nil_2.
  - intros task c _ Hc. apply reminder_userIds_elem in Hc as [Hc|Hc].
    + left. by apply truthy_Some in Hc as [? _].
    + by right.
  - intros task c Hc Hne. apply overdue_userIds_elem. right. left.
    by apply truthy_Some.
Qed.

Lemma reminder_recipients_exclude_creator_witness :
  "U1" ∈ JSSet.to_array (overdue_userIds
           {| id := "t"; title := "T"; titleAr := "T"; dueDate := Some 0%Z;
              status := "in_progress"; isDeleted := false;
              lastOverdueNotifiedAt := None; assigneeUserId := Some "U2";
              createdById := Some "U1"; trackId := None; assignments := [] |}).
Proof.
  apply (proj2 (proj2 (proj2 reminder_recipients_exclude_creator))).
  - reflexivity.
  - discriminate.
Defined.

(** ** Elapsed days *)

Lemma Math_ceil_div_spec (a b : Z) :
  (0 < b)%Z →
  (b * (Math_ceil_div a b - 1) < a ≤ b * Math_ceil_div a b)%Z.
Proof.
  intros Hb. unfold Math_ceil_div.
  pose proof (Z.div_mod (- a) b ltac:(lia)) as Hdm.
  pose proof (Z.mod_pos_bound (- a) b Hb) as Hm. nia.
Qed.

(** C6: the day count of a daily reminder is the ceiling of the time since
    the due date in days, and it is the number printed in the message; 50
    hours give 3 days. *)
Theorem daysDiff_is_ceiling (now : Z) (task : Task) (d : Z) :
  dueDate task = Some d →
  (MS_PER_DAY * (daysDiff now task - 1) < now - d
   ≤ MS_PER_DAY * daysDiff now task)%Z
  ∧ n_body (reminder_payload now task)
    = "Task " +:+ dq +:+ title task +:+ dq +:+ " is "
       +:+ pretty (daysDiff now task) +:+ " days overdue"
  ∧ (d = (now - 50 * 60 * 60 * 1000)%Z → daysDiff now task = 3%Z).
Proof.
  intros Hd. split; [|split; [reflexivity|]].
  - unfold daysDiff. rewrite Hd. apply Math_ceil_div_spec. reflexivity.
  - unfold daysDiff. rewrite Hd. simpl default.
    intros ->. replace (now - (now - 50 * 60 * 60 * 1000))%Z
    with 180000000%Z by lia. reflexivity.
Qed.

Lemma daysDiff_is_ceiling_witness :
  daysDiff 180000000
    {| id := "t"; title := "T"; titleAr := "T"; dueDate := Some 0%Z;
       status := "in_progress"; isDeleted := false;
       lastOverdueNotifiedAt := Some 1%Z; assigneeUserId := Some "U1";
       createdById := None; trackId := None; assignments := [] |} = 3%Z.
Proof.
  eapply (daysDiff_is_ceiling 180000000 _ 0).
  - reflexivity.
  - reflexivity.
Defined.

(** ** File validation *)

(** C9 (the code does not do this): a file whose MIME type is outside
    [ALLOWED_MIMES] passes [validateFile]; the MIME type is never read. *)
Theorem validateFile_ignores_mimetype :
  DailyUpdates.has DailyUpdates.ALLOWED_MIMES
    (DailyUpdates.mimetype DailyUpdates.disguised) = false
  ∧ DailyUpdates.validateFile (DailyUpdates.new_Service 25)
      DailyUpdates.disguised = inl tt
  ∧ ∀ this name m1 m2 sz,
      DailyUpdates.validateFile this
        {| DailyUpdates.originalname := name; DailyUpdates.mimetype := m1;
           DailyUpdates.size := sz |}
      = DailyUpdates.validateFile this
          {| DailyUpdates.originalname := name; DailyUpdates.mimetype := m2;
             DailyUpdates.size := sz |}.
Proof. split; [|split]; [by vm_compute | by vm_compute | reflexivity]. Qed.

(** ** Stamps *)

Lemma stamp_all_Forall2 (ts : Z) (ids : list string) (rows : list Task) :
  Forall2 (λ t t', t' = t ∨ t' = set_lastOverdueNotifiedAt ts t)
    rows (stamp_all ts ids rows).
Proof.
  unfold stamp_all. apply Forall2_fmap_r, Forall_Forall2_diag, Forall_forall.
  intros t _. simpl. destruct (decide (id t ∈ ids)); auto.
Qed.

Lemma script_update_times wh n pre now (sel : list Task) :
  no_update pre →
  Forall (λ op, ∀ tid ts, op = OpUpdate tid ts → ts = now)
    (script wh n pre now sel).
Proof.
  intros Hpre. unfold script. apply Forall_cons. split; [done|].
  apply Forall_bind, Forall_forall. intros t _. apply Forall_app. split.
  - eapply Forall_impl; [apply Hpre|]. simpl. by intros op Hop tid ts ->.
  - apply Forall_singleton. by intros tid ts [= _ <-].
Qed.

Lemma Forall_prefix {A} (P : A → Prop) (l k : list A) :
  l `prefix_of` k → Forall P k → Forall P l.
Proof. intros [l' ->] Hk. by apply Forall_app in Hk as [? _]. Qed.

(** C10: every stamp written by a run, of either scan, is the time read at
    the start of the run, whatever time the calls of the run take and
    wherever the run ends. *)
Theorem stamps_are_run_start (env : Env) (w : World) :
  (Forall (λ op, ∀ tid ts, op = OpUpdate tid ts → ts = clock w)
     (new_trace w (detectOverdueTasks env w).2)
   ∧ Forall2 (λ t t', t' = t ∨ t' = set_lastOverdueNotifiedAt (clock w) t)
       (tasks w) (tasks (detectOverdueTasks env w).2))
  ∧ (Forall (λ op, ∀ tid ts, op = OpUpdate tid ts → ts = clock w)
       (new_trace w (sendDailyOverdueReminders env w).2)
     ∧ Forall2 (λ t t', t' = t ∨ t' = set_lastOverdueNotifiedAt (clock w) t)
         (tasks w) (tasks (sendDailyOverdueReminders env w).2)).
Proof.
  split.
  - destruct (detect_outcome env w) as (_ & (r & Ho) & _). split.
    + eapply Forall_prefix; [eapply outcome_prefix, Ho|].
      apply script_update_times, overdue_calls_no_update.
    + apply outcome_progress in Ho as (k & _ & -> & _);
        [apply stamp_all_Forall2 | apply overdue_calls_no_update].
  - destruct (daily_outcome env w) as (_ & (r & Ho) & _). split.
    + eapply Forall_prefix; [eapply outcome_prefix, Ho|].
      apply script_update_times, reminder_calls_no_update.
    + apply outcome_progress in Ho as (k & _ & -> & _);
        [apply stamp_all_Forall2 | apply reminder_calls_no_update].
Qed.

(** Every call takes 5 ms here: the run ends at 1035, the second task is
    stamped by the seventh call, and both stamps are 1000. *)
Example stamps_before_processing_time :
  clock (detectOverdueTasks quiet small_world).2 = 1035%Z
  ∧ lastOverdueNotifiedAt <$> tasks (detectOverdueTasks quiet small_world).2
    = [Some 1000%Z; Some 1000%Z].
Proof. split; by vm_compute. Qed.

(** ** Partial progress *)

Lemma unique_ids_inj (rows : list Task) (t t' : Task) :
  unique_ids rows → t ∈ rows → t' ∈ rows → id t = id t' → t = t'.
Proof.
  intros Hu Ht Ht' Hid. apply (row_elem _ _ Hu) in Ht, Ht'.
  rewrite Hid in Ht. congruence.
Qed.

Lemma selected_take_drop (wh : Where) (n k : nat) (w : World) (t : Task) :
  unique_ids (tasks w) →
  t ∈ drop k (selected wh n w) → t ∉ take k (selected wh n w).
Proof.
  intros Hu Hd Ht. pose proof (selected_NoDup wh n w Hu) as Hnd.
  apply NoDup_fmap_1 in Hnd. rewrite <- (take_drop k) in Hnd.
  apply NoDup_app in Hnd as (_ & Hdis & _). by apply (Hdis t).
Qed.

Section Rows.
Context (env : Env).

Lemma progress_rows wh n pre now (w w' : World) r :
  no_update pre →
  unique_ids (tasks w) →
  outcome env w (script wh n pre now (selected wh n w)) r w' →
  ∃ k, k ≤ length (selected wh n w)
    ∧ (∀ t, t ∈ take k (selected wh n w) →
         row (id t) (tasks w') = Some (set_lastOverdueNotifiedAt now t))
    ∧ (∀ t, t ∈ tasks w → t ∉ take k (selected wh n w) →
         row (id t) (tasks w') = Some t)
    ∧ (r = Ok tt → k = length (selected wh n w)).
Proof.
  intros Hpre Hu Ho.
  apply outcome_progress in Ho as (k & Hk & Ht & Hr); [|done].
  exists k. split; [done|]. rewrite Ht.
  assert (Hsub : ∀ t, t ∈ take k (selected wh n w) → t ∈ tasks w).
  { intros t Hin.
    assert (Hs : t ∈ selected wh n w)
      by (eapply elem_of_sublist; [exact Hin | apply sublist_take]).
    by apply selected_elem in Hs as [? _]. }
  split; [|split; [|done]].
  - intros t Hin. rewrite row_stamp_all, (row_elem _ _ Hu (Hsub _ Hin)).
    simpl. rewrite decide_True; [done|]. by apply list_elem_of_fmap_2.
  - intros t Hin Hnot. rewrite row_stamp_all, (row_elem _ _ Hu Hin).
    simpl. rewrite decide_False; [done|].
    intros (t' & Hid & Hin')%list_elem_of_fmap.
    apply Hnot. by rewrite (unique_ids_inj _ t t' Hu Hin (Hsub _ Hin') Hid).
Qed.
End Rows.

Section Calls.
Context (env : Env).

(** The calls of a run that got through. *)
Lemma update_call_selected pre now (sel : list Task) (tid : string) :
  no_update pre →
  OpUpdate tid now ∈ sel ≫= iteration pre now ↔ tid ∈ id <$> sel.
Proof.
  intros Hpre. rewrite list_elem_of_bind, list_elem_of_fmap. split.
  - intros (t & Hin & Hsel). exists t. split; [|done].
    unfold iteration in Hin. apply elem_of_app in Hin as [Hin|Hin].
    + specialize (Hpre t). rewrite Forall_forall in Hpre.
      by apply Hpre in Hin.
    + by apply list_elem_of_singleton in Hin as [= ->].
  - intros (t & -> & Hsel). exists t. split; [|done].
    unfold iteration. apply elem_of_app. right. apply list_elem_of_here.
Qed.

(** The store after a run, and the stamps that got through: the first [k]
    selected tasks are stamped, and they are the tasks whose update was
    called without failing. *)
Lemma outcome_progress_calls wh n pre now (sel : list Task) (w w' : World) r :
  no_update pre →
  outcome env w (script wh n pre now sel) r w' →
  ∃ k, k ≤ length sel
       ∧ tasks w' = stamp_all now (id <$> take k sel) (tasks w)
       ∧ (r = Ok tt → k = length sel)
       ∧ (∀ tid, tid ∈ id <$> take k sel
                 ↔ ∃ j, length (trace w) ≤ j
                        ∧ trace w' !! j = Some (OpUpdate tid now)
                        ∧ fails env j = false).
Proof.
  intros Hpre Ho. unfold script in Ho.
  inversion Ho as [w'' Ht Hnf Hde Hr Hw
                  | w'' done op' rest Hops Ht Hnf Hfl Hde Hr Hw]; subst.
  - exists (length sel). split; [done|]. split; [|split; [done|]].
    { destruct Hde as (-> & _). rewrite firstn_all.
      change (effects (?op :: ?ops) w) with (effects ops (effect op w)).
      by rewrite tasks_effects_iterations. }
    intros tid. rewrite firstn_all.
    rewrite <- (update_call_selected pre now sel tid Hpre). split.
    + intros (i & Hi)%list_elem_of_lookup.
      exists (length (trace w) + S i). split; [lia|]. split.
      * rewrite Ht, lookup_app_r by lia.
        by replace (length (trace w) + S i - length (trace w)) with (S i)
          by lia.
      * apply Hnf. simpl. apply lookup_lt_Some in Hi. lia.
    + intros (j & Hj & Hlook & _).
      rewrite Ht, lookup_app_r in Hlook by lia.
      destruct (j - length (trace w)) as [|i]; [done|].
      simpl in Hlook. by eapply list_elem_of_lookup_2.
  - destruct Hde as (-> & _). destruct done as [|x done].
    + exists 0. split; [lia|]. split; [|split; [done|]].
      { simpl. by rewrite stamp_all_nil. }
      intros tid. simpl. split; [by intros ?%elem_of_nil|].
      intros (j & Hj & Hlook & Hok).
      rewrite Ht, lookup_app_r in Hlook by lia. simpl in Hlook, Hfl.
      destruct (j - length (trace w)) as [|i] eqn:Hi; [|done].
      replace j with (length (trace w) + 0) in Hok by lia. congruence.
    + simpl in Hops. injection Hops as <- Hops.
      apply iterations_split in Hops
        as (s1 & t & s2 & d1 & d2 & -> & -> & Hit).
      apply iteration_cut_no_update in Hit as [Hd1 _]; [|done].
      exists (length s1). split; [rewrite length_app; lia|].
      split; [|split; [done|]].
      { rewrite take_app_length.
        change (effects (?op :: ?ops) w) with (effects ops (effect op w)).
        rewrite effects_app, effects_no_update by done.
        by rewrite tasks_effects_iterations. }
      intros tid. rewrite take_app_length.
      rewrite <- (update_call_selected pre now s1 tid Hpre). split.
      * intros (i & Hi)%list_elem_of_lookup.
        exists (length (trace w) + S i). split; [lia|].
        pose proof (lookup_lt_Some _ _ _ Hi) as Hlt. split.
        -- rewrite Ht, lookup_app_r by lia.
           replace (length (trace w) + S i - length (trace w)) with (S i)
             by lia.
           simpl. rewrite <- app_assoc, lookup_app_l by done. exact Hi.
        -- apply Hnf. simpl. rewrite length_app. lia.
      * intros (j & Hj & Hlook & Hok).
        rewrite Ht, lookup_app_r in Hlook by lia.
        destruct (decide (j - length (trace w)
                          < length (OpFindMany wh n
                                    :: (s1 ≫= iteration pre now) ++ d1)))
          as [Hlt|Hge].
        -- rewrite lookup_app_l in Hlook by done.
           destruct (j - length (trace w)) as [|i]; [done|].
           simpl in Hlook. apply list_elem_of_lookup_2 in Hlook.
           apply elem_of_app in Hlook as [?|Hin]; [done|].
           rewrite Forall_forall in Hd1. by apply Hd1 in Hin.
        -- apply lookup_lt_Some in Hlook.
           rewrite length_app in Hlook. simpl in Hlook.
           replace j with (length (trace w)
                           + length (OpFindMany wh n
                                     :: (s1 ≫= iteration pre now) ++ d1))
             in Hok by (simpl in *; lia).
           congruence.
Qed.

Lemma progress_rows_calls wh n pre now (w w' : World) r :
  no_update pre →
  unique_ids (tasks w) →
  outcome env w (script wh n pre now (selected wh n w)) r w' →
  ∃ k, k ≤ length (selected wh n w)
    ∧ (∀ t, t ∈ take k (selected wh n w) →
         row (id t) (tasks w') = Some (set_lastOverdueNotifiedAt now t))
    ∧ (∀ t, t ∈ tasks w → t ∉ take k (selected wh n w) →
         row (id t) (tasks w') = Some t)
    ∧ (r = Ok tt → k = length (selected wh n w))
    ∧ (∀ t, t ∈ selected wh n w →
         t ∈ take k (selected wh n w)
         ↔ ∃ j, length (trace w) ≤ j
                ∧ trace w' !! j = Some (OpUpdate (id t) now)
                ∧ fails env j = false).
Proof.
  intros Hpre Hu Ho.
  apply outcome_progress_calls in Ho as (k & Hk & Ht & Hr & Hcalls); [|done].
  exists k. split; [done|]. rewrite Ht.
  assert (Hsub : ∀ t, t ∈ take k (selected wh n w) → t ∈ tasks w).
  { intros t Hin.
    assert (Hs : t ∈ selected wh n w)
      by (eapply elem_of_sublist; [exact Hin | apply sublist_take]).
    by apply selected_elem in Hs as [? _]. }
  split; [|split; [|split; [done|]]].
  - intros t Hin. rewrite row_stamp_all, (row_elem _ _ Hu (Hsub _ Hin)).
    simpl. rewrite decide_True; [done|]. by apply list_elem_of_fmap_2.
  - intros t Hin Hnot. rewrite row_stamp_all, (row_elem _ _ Hu Hin).
    simpl. rewrite decide_False; [done|].
    intros (t' & Hid & Hin')%list_elem_of_fmap.
    apply Hnot. by rewrite (unique_ids_inj _ t t' Hu Hin (Hsub _ Hin') Hid).
  - intros t Hsel. rewrite <- Hcalls. split.
    + by apply list_elem_of_fmap_2.
    + intros (t' & Hid & Hin')%list_elem_of_fmap.
      apply selected_elem in Hsel as [Hin _].
      by rewrite (unique_ids_inj _ t t' Hu Hin (Hsub _ Hin') Hid).
Qed.
End Calls.

(** C8 (amended): a run of either scan returns normally whatever fails; a
    failing call is the last call of the run; the selected tasks whose stamp
    was written by a call that got through, which are the first tasks of
    the selection up to the failing call and no others, carry the stamp of
    the run at its end; and every selected task that was not reached keeps
    its row, so its [lastOverdueNotifiedAt] is unchanged (null in the
    15-minute scan, the earlier stamp in the daily scan) and the task is
    selected again by a later run of the same scan. *)
Theorem failure_keeps_partial_progress (env : Env) (w : World) :
  unique_ids (tasks w) →
  ((detectOverdueTasks env w).1 = Ok tt
   ∧ (∀ j, length (trace w) ≤ j →
        j < length (trace (detectOverdueTasks env w).2) →
        fails env j = true →
        S j = length (trace (detectOverdueTasks env w).2))
   ∧ ∃ k, k ≤ length (newly_overdue w)
       ∧ (∀ t, t ∈ take k (newly_overdue w) →
            row (id t) (tasks (detectOverdueTasks env w).2)
            = Some (set_lastOverdueNotifiedAt (clock w) t))
       ∧ (∀ t, t ∈ drop k (newly_overdue w) →
            row (id t) (tasks (detectOverdueTasks env w).2) = Some t
            ∧ lastOverdueNotifiedAt t = None
            ∧ ∀ now', (clock w ≤ now')%Z →
                matches (where_newly_overdue now') t = true)
       ∧ ((∀ j, length (trace w) ≤ j →
             j < length (trace (detectOverdueTasks env w).2) →
             fails env j = false) →
          k = length (newly_overdue w))
       ∧ (∀ t, t ∈ newly_overdue w →
            t ∈ take k (newly_overdue w)
            ↔ ∃ j, length (trace w) ≤ j
                   ∧ trace (detectOverdueTasks env w).2 !! j
                     = Some (OpUpdate (id t) (clock w))
                   ∧ fails env j = false))
  ∧ ((sendDailyOverdueReminders env w).1 = Ok tt
     ∧ (∀ j, length (trace w) ≤ j →
          j < length (trace (sendDailyOverdueReminders env w).2) →
          fails env j = true →
          S j = length (trace (sendDailyOverdueReminders env w).2))
     ∧ ∃ k, k ≤ length (still_overdue w)
         ∧ (∀ t, t ∈ take k (still_overdue w) →
              row (id t) (tasks (sendDailyOverdueReminders env w).2)
              = Some (set_lastOverdueNotifiedAt (clock w) t))
         ∧ (∀ t, t ∈ drop k (still_overdue w) →
              row (id t) (tasks (sendDailyOverdueReminders env w).2) = Some t
              ∧ lastOverdueNotifiedAt t ≠ None
              ∧ ∀ now', (clock w ≤ now')%Z →
                  matches (where_still_overdue now') t = true)
         ∧ ((∀ j, length (trace w) ≤ j →
               j < length (trace (sendDailyOverdueReminders env w).2) →
               fails env j = false) →
            k = length (still_overdue w))
         ∧ (∀ t, t ∈ still_overdue w →
              t ∈ take k (still_overdue w)
              ↔ ∃ j, length (trace w) ≤ j
                     ∧ trace (sendDailyOverdueReminders env w).2 !! j
                       = Some (OpUpdate (id t) (clock w))
                     ∧ fails env j = false)).
Proof.
  intros Hu. split.
  - destruct (detect_outcome env w) as (Hok & (r & Ho) & _).
    split; [exact Hok|]. split.
    { intros j Hlo Hhi Hf. by destruct (outcome_abort env _ _ _ _ j Ho). }
    destruct (progress_rows_calls env _ _ _ _ _ _ _ overdue_calls_no_update
                Hu Ho) as (k & Hk & Hdone & Hrest & Hr & Hcalls).
    exists k. split; [exact Hk|]. split; [exact Hdone|].
    split; [|split; [|exact Hcalls]].
    + intros t Ht.
      assert (Hsel : t ∈ newly_overdue w)
        by (eapply elem_of_sublist; [exact Ht | apply sublist_drop]).
      apply selected_elem in Hsel as [Hin Hm]. split; [|split].
      * apply Hrest; [exact Hin|]. by apply selected_take_drop.
      * by apply matches_newly_overdue in Hm as (_ & _ & _ & _ & ?).
      * intros now' Hle.
        apply (matches_later (where_newly_overdue (clock w)) now' t Hle Hm).
    + intros Hnf. apply Hr.
      by destruct (outcome_no_faults env _ _ _ _ Hnf Ho).
  - destruct (daily_outcome env w) as (Hok & (r & Ho) & _).
    split; [exact Hok|]. split.
    { intros j Hlo Hhi Hf. by destruct (outcome_abort env _ _ _ _ j Ho). }
    destruct (progress_rows_calls env _ _ _ _ _ _ _
                (reminder_calls_no_update (clock w)) Hu Ho)
      as (k & Hk & Hdone & Hrest & Hr & Hcalls).
    exists k. split; [exact Hk|]. split; [exact Hdone|].
    split; [|split; [|exact Hcalls]].
    + intros t Ht.
      assert (Hsel : t ∈ still_overdue w)
        by (eapply elem_of_sublist; [exact Ht | apply sublist_drop]).
      apply selected_elem in Hsel as [Hin Hm]. split; [|split].
      * apply Hrest; [exact Hin|]. by apply selected_take_drop.
      * by apply matches_still_overdue in Hm as (_ & _ & _ & _ & ?).
      * intros now' Hle.
        apply (matches_later (where_still_overdue (clock w)) now' t Hle Hm).
    + intros Hnf. apply Hr.
      by destruct (outcome_no_faults env _ _ _ _ Hnf Ho).
Qed.

Lemma failure_keeps_partial_progress_witness :
  (detectOverdueTasks (failing_at 5) (backlog 3)).1 = Ok tt
  ∧ row "task-0" (tasks (detectOverdueTasks (failing_at 5) (backlog 3)).2)
    = Some (set_lastOverdueNotifiedAt 1000 (backlog_task 0))
  ∧ (sendDailyOverdueReminders (failing_at 3) (reminded 3)).1 = Ok tt.
Proof.
  destruct (failure_keeps_partial_progress (failing_at 5) (backlog 3))
    as ((Hd & _ & k & _ & Hdone & _ & _ & Hcalls) & _).
  { apply (bool_decide_unpack _). vm_compute. exact I. }
  destruct (failure_keeps_partial_progress (failing_at 3) (reminded 3))
    as (_ & (Hr & _)).
  { apply (bool_decide_unpack _). vm_compute. exact I. }
  split; [exact Hd|]. split; [|exact Hr].
  apply (Hdone (backlog_task 0)).
  apply (Hcalls (backlog_task 0)).
  - vm_compute. constructor.
  - exists 3. split; [simpl; lia|]. split; vm_compute; reflexivity.
Defined.

(** C8 as stated fails for the daily scan: the sink fails for the first of
    two tasks, and the task that was not reached keeps the stamp of its
    earlier notification, which is not null. *)
Lemma daily_unreached_task_not_null :
  fails (failing_at 1) 1 = true
  ∧ id <$> still_overdue (reminded 2) = ["task-0"; "task-1"]
  ∧ new_trace (reminded 2)
      (sendDailyOverdueReminders (failing_at 1) (reminded 2)).2
    = [OpFindMany (where_still_overdue 2000) 200;
       OpCreateForUsers ["U1"]
         (reminder_payload 2000 (set_lastOverdueNotifiedAt 500 (backlog_task 0)))]
  ∧ (lastOverdueNotifiedAt
       <$> row "task-1"
             (tasks (sendDailyOverdueReminders (failing_at 1) (reminded 2)).2))
    = Some (Some 500%Z)
  ∧ (lastOverdueNotifiedAt
       <$> row "task-1"
             (tasks (sendDailyOverdueReminders (failing_at 1) (reminded 2)).2))
    ≠ Some None.
Proof. repeat split; by vm_compute. Qed.

(** ** Runs without failures *)

Lemma filter_none {A} (P : A → Prop) `{∀ x, Decision (P x)} (l : list A) :
  Forall (λ x, ¬ P x) l → filter P l = [].
Proof.
  induction 1 as [|x l Hx _ IH]; [done|]. by rewrite filter_cons_False.
Qed.

Lemma filter_is_update_script wh n pre now (sel : list Task) :
  no_update pre →
  filter (λ op, is_update op) (script wh n pre now sel)
  = (λ t, OpUpdate (id t) now) <$> sel.
Proof.
  intros Hpre. unfold script. rewrite filter_cons_False by (simpl; tauto).
  induction sel as [|t sel IH]; [done|].
  rewrite bind_cons, filter_app, IH, fmap_cons. unfold iteration.
  rewrite filter_app.
  rewrite (filter_none _ (pre t)); [done|].
  eapply Forall_impl; [apply Hpre|]. simpl. intros op Hop.
  rewrite Hop. simpl. tauto.
Qed.

Lemma about_app (tid : string) (l1 l2 : list Notification) :
  about tid (l1 ++ l2) = about tid l1 ++ about tid l2.
Proof. apply filter_app. Qed.

Lemma about_overdue_notifications (tid : string) (t : Task) :
  about tid (overdue_notifications t)
  = if decide (id t = tid) then overdue_notifications t else [].
Proof.
  unfold about, overdue_notifications.
  destruct (0 <? _)%nat; [|by destruct (decide _)].
  destruct (decide (id t = tid)) as [Ht|Ht].
  - by rewrite filter_cons_True.
  - by rewrite filter_cons_False.
Qed.

Lemma about_selected_out (tid : string) (sel : list Task) :
  tid ∉ id <$> sel → about tid (sel ≫= overdue_notifications) = [].
Proof.
  induction sel as [|t sel IH]; [done|]. rewrite fmap_cons, not_elem_of_cons.
  intros [Hne Hni]. rewrite bind_cons, about_app, IH by done.
  rewrite about_overdue_notifications, decide_False by done. done.
Qed.

Lemma about_selected_in (sel : list Task) (t : Task) :
  NoDup (id <$> sel) → t ∈ sel →
  about (id t) (sel ≫= overdue_notifications) = overdue_notifications t.
Proof.
  induction sel as [|t' sel IH]; intros Hnd Hin.
  - by apply elem_of_nil in Hin.
  - rewrite fmap_cons in Hnd. apply NoDup_cons in Hnd as [Hni Hnd].
    rewrite bind_cons, about_app, about_overdue_notifications.
    apply elem_of_cons in Hin as [->|Hin].
    + rewrite decide_True, about_selected_out by done. apply app_nil_r.
    + rewrite decide_False, IH; [done..|].
      intros Heq. apply Hni. rewrite Heq. by apply list_elem_of_fmap_2.
Qed.

Lemma overdue_notifications_length (t : Task) :
  length (overdue_notifications t) ≤ 1.
Proof. unfold overdue_notifications. destruct (0 <? _)%nat; simpl; lia. Qed.

Section NoFaults.
Context (env : Env) (Hquiet : no_faults env).

(** A whole run of the 15-minute scan. *)
Lemma detect_completed (w : World) :
  tasks (detectOverdueTasks env w).2
  = stamp_all (clock w) (id <$> newly_overdue w) (tasks w)
  ∧ notifications (detectOverdueTasks env w).2
    = notifications w ++ (newly_overdue w ≫= overdue_notifications)
  ∧ new_trace w (detectOverdueTasks env w).2
    = script (where_newly_overdue (clock w)) 100 overdue_calls (clock w)
        (newly_overdue w).
Proof.
  destruct (detect_outcome env w) as (_ & (r & Ho) & _).
  apply outcome_no_faults in Ho as (_ & Htr & Ht & Hn & _);
    [|intros; apply Hquiet].
  unfold script in *.
  change (effects (?op :: ?ops) w) with (effects ops (effect op w)) in *.
  split; [|split].
  - rewrite Ht. apply tasks_effects_iterations, overdue_calls_no_update.
  - rewrite Hn, notifications_effects. simpl.
    by rewrite overdue_script_notifications.
  - unfold new_trace. by rewrite Htr, drop_app_length.
Qed.
End NoFaults.

(** Stamping the first [n] unstamped rows that match leaves the others. *)
Lemma stamp_all_skip (ts : Z) (tid : string) (ids : list string) rows :
  tid ∉ id <$> rows → stamp_all ts (tid :: ids) rows = stamp_all ts ids rows.
Proof.
  intros Hni. unfold stamp_all. apply list_fmap_ext. intros i t Hi.
  assert (id t ≠ tid).
  { intros <-. apply Hni, list_elem_of_fmap_2.
    by eapply list_elem_of_lookup_2. }
  destruct (decide (id t ∈ ids)) as [Hin|Hin].
  - rewrite decide_True; [done|]. by apply list_elem_of_further.
  - rewrite decide_False; [done|]. by intros [?|?]%elem_of_cons.
Qed.

Lemma filter_stamped (P : Task → Prop) `{∀ t, Decision (P t)} (ts : Z)
    (n : nat) (rows : list Task) :
  unique_ids rows →
  (∀ t, ¬ P (set_lastOverdueNotifiedAt ts t)) →
  filter P (stamp_all ts (id <$> take n (filter P rows)) rows)
  = drop n (filter P rows).
Proof.
  intros Hu Hset. revert n. induction rows as [|t rows IH]; intros n.
  - by destruct n.
  - unfold unique_ids in Hu. rewrite fmap_cons in Hu.
    apply NoDup_cons in Hu as [Hni Hu].
    assert (Hout : ∀ m, id t ∉ id <$> take m (filter P rows)).
    { intros m Hin. apply Hni.
      eapply elem_of_sublist; [exact Hin|]. apply fmap_sublist.
      etrans; [apply sublist_take | apply sublist_filter]. }
    destruct (decide (P t)) as [HP|HP].
    + rewrite (filter_cons_True P t rows HP). destruct n as [|n].
      * simpl take. simpl fmap at 1. rewrite stamp_all_nil.
        by rewrite (filter_cons_True P t rows HP).
      * simpl take. rewrite fmap_cons. unfold stamp_all at 1.
        rewrite fmap_cons. rewrite decide_True by apply list_elem_of_here.
        rewrite filter_cons_False by apply Hset.
        fold (stamp_all ts (id t :: (id <$> take n (filter P rows))) rows).
        rewrite stamp_all_skip by done. apply (IH Hu).
    + rewrite (filter_cons_False P t rows HP).
      unfold stamp_all at 1. rewrite fmap_cons.
      rewrite decide_False by apply Hout.
      rewrite filter_cons_False by done. apply (IH Hu).
Qed.

Lemma filter_ext_in {A} (P Q : A → Prop) `{∀ x, Decision (P x)}
    `{∀ x, Decision (Q x)} (l : list A) :
  Forall (λ x, P x ↔ Q x) l → filter P l = filter Q l.
Proof.
  induction 1 as [|x l Hx _ IH]; [done|].
  destruct (decide (P x)) as [HP|HP].
  - rewrite !filter_cons_True by tauto. by rewrite IH.
  - rewrite !filter_cons_False by tauto. done.
Qed.

Lemma new_notifications_app (w w' : World) (ns : list Notification) :
  notifications w' = notifications w ++ ns → new_notifications w w' = ns.
Proof. unfold new_notifications. intros ->. apply drop_app_length. Qed.

(** When at most 100 rows match, the query returns all of them. *)
Lemma newly_overdue_all (w : World) (t : Task) :
  length (filter (λ t, matches (where_newly_overdue (clock w)) t) (tasks w))
  ≤ 100 →
  t ∈ tasks w → matches (where_newly_overdue (clock w)) t = true →
  t ∈ newly_overdue w.
Proof.
  intros Hlen Hin Hm. unfold newly_overdue, selected.
  rewrite take_ge by done. apply list_elem_of_filter.
  split; [by apply Is_true_eq_left | done].
Qed.

Lemma selected_task_stamped_and_notified_aux (env : Env) (w : World)
    (t : Task) :
  no_faults env →
  unique_ids (tasks w) →
  t ∈ newly_overdue w →
  row (id t) (tasks (detectOverdueTasks env w).2)
  = Some (set_lastOverdueNotifiedAt (clock w) t)
  ∧ about (id t) (new_notifications w (detectOverdueTasks env w).2)
    = overdue_notifications t.
Proof.
  intros Hq Hu Hsel.
  destruct (detect_completed env Hq w) as (Ht & Hn & _). split.
  - rewrite Ht, row_stamp_all, (row_elem _ _ Hu); simpl.
    + rewrite decide_True; [done|]. by apply list_elem_of_fmap_2.
    + by apply selected_elem in Hsel as [? _].
  - rewrite (new_notifications_app _ _ _ Hn).
    by rewrite about_selected_in; [|apply selected_NoDup|].
Qed.

(** C1 (amended): in a run of the 15-minute scan without failures, every
    task returned by the query (the rows with a due date before now, a
    status other than completed and cancelled, not deleted and not yet
    notified; the first 100 of them) is stamped with the time of the run
    and gets exactly one durable notification, addressed to its recipient
    set, when that set is not empty, and none when it is empty. *)
Theorem selected_task_stamped_and_notified (env : Env) (w : World) (t : Task) :
  no_faults env →
  unique_ids (tasks w) →
  t ∈ newly_overdue w →
  row (id t) (tasks (detectOverdueTasks env w).2)
  = Some (set_lastOverdueNotifiedAt (clock w) t)
  ∧ about (id t) (new_notifications w (detectOverdueTasks env w).2)
    = (if decide (JSSet.size (overdue_userIds t) = 0) then []
       else [{| recipients := JSSet.to_array (overdue_userIds t);
                payload := overdue_payload t |}])
  ∧ (∀ u, u ∈ JSSet.to_array (overdue_userIds t)
          ↔ (assigneeUserId t = Some u ∧ u ≠ EmptyString)
            ∨ (createdById t = Some u ∧ u ≠ EmptyString)
            ∨ u ∈ userId <$> assignments t)
  ∧ (length (filter (λ t, matches (where_newly_overdue (clock w)) t)
               (tasks w)) ≤ 100 →
     ∀ t', t' ∈ tasks w →
           matches (where_newly_overdue (clock w)) t' = true →
           t' ∈ newly_overdue w).
Proof.
  intros Hq Hu Hsel.
  destruct (selected_task_stamped_and_notified_aux env w t Hq Hu Hsel)
    as [Hrow Hab].
  split; [exact Hrow|]. split; [|split].
  - rewrite Hab. unfold overdue_notifications.
    destruct (JSSet.size (overdue_userIds t)); done.
  - apply overdue_userIds_union.
  - intros Hlen t'. by apply newly_overdue_all.
Qed.

Lemma selected_task_stamped_and_notified_witness :
  row "task-s" (tasks (detectOverdueTasks quiet small_world).2)
  = Some (set_lastOverdueNotifiedAt 1000 shared_task)
  ∧ about "task-s"
      (new_notifications small_world (detectOverdueTasks quiet small_world).2)
    = [{| recipients := ["U1"; "U2"; "U3"];
          payload := overdue_payload shared_task |}].
Proof.
  destruct (selected_task_stamped_and_notified quiet small_world shared_task)
    as (Hrow & Hab & _).
  - intros k. reflexivity.
  - apply (bool_decide_unpack _). vm_compute. exact I.
  - vm_compute. constructor.
  - split; [exact Hrow | exact Hab].
Defined.

(** The task without recipients is stamped and gets no notification. *)
Example orphan_stamped_without_notification :
  (lastOverdueNotifiedAt
     <$> row "task-o" (tasks (detectOverdueTasks quiet small_world).2))
  = Some (Some 1000%Z)
  ∧ about "task-o"
      (new_notifications small_world (detectOverdueTasks quiet small_world).2)
    = [].
Proof. split; by vm_compute. Qed.

(** C1 as stated fails beyond the cap: with 101 qualifying tasks and no
    failure, the last task is neither stamped nor notified by one run. *)
Lemma cap_leaves_task_unnotified :
  tasks (backlog 101) !! 100 = Some (backlog_task 100)
  ∧ matches (where_newly_overdue (clock (backlog 101))) (backlog_task 100)
    = true
  ∧ row (id (backlog_task 100))
      (tasks (detectOverdueTasks quiet (backlog 101)).2)
    = Some (backlog_task 100)
  ∧ lastOverdueNotifiedAt (backlog_task 100) = None
  ∧ about (id (backlog_task 100))
      (new_notifications (backlog 101)
         (detectOverdueTasks quiet (backlog 101)).2) = [].
Proof. repeat split; by vm_compute. Qed.

(** ** Repeated runs *)

Section Repeated.
Context (env : Env) (Hquiet : no_faults env).

(** The rows left to a second run. *)
Lemma next_run_selection (w : World) :
  unique_ids (tasks w) →
  (∀ t, t ∈ tasks w →
     matches (where_newly_overdue (clock (detectOverdueTasks env w).2)) t
     = true →
     matches (where_newly_overdue (clock w)) t = true) →
  newly_overdue (detectOverdueTasks env w).2
  = take 100
      (drop 100
         (filter (λ t, matches (where_newly_overdue (clock w)) t)
            (tasks w))).
Proof.
  intros Hu Hdue.
  destruct (detect_completed env Hquiet w) as (Ht & _ & _).
  destruct (detect_outcome env w) as (_ & _ & Hclock).
  unfold newly_overdue at 1, selected. f_equal.
  rewrite <- (filter_stamped _ (clock w) 100 (tasks w) Hu).
  - fold (selected (where_newly_overdue (clock w)) 100 w).
    fold (newly_overdue w). rewrite <- Ht.
    apply filter_ext_in, Forall_forall. intros t' Hin.
    rewrite Ht in Hin. unfold stamp_all in Hin.
    apply list_elem_of_fmap in Hin as (t & -> & Hin).
    destruct (decide (id t ∈ id <$> newly_overdue w)) as [Hs|Hs].
    + split; intros Hm; apply Is_true_eq_true in Hm;
        by apply matches_newly_overdue in Hm as (_ & _ & _ & _ & ?).
    + split; intros Hm; apply Is_true_eq_true in Hm;
        apply Is_true_eq_left.
      * by apply Hdue.
      * apply (matches_later (where_newly_overdue (clock w)) _ t Hclock Hm).
  - intros t Hm. apply Is_true_eq_true in Hm.
    by apply matches_newly_overdue in Hm as (_ & _ & _ & _ & ?).
Qed.

(** One run and the notifications about one task. *)
Lemma detect_once (tid : string) (w : World) :
  unique_ids (tasks w) →
  unique_ids (tasks (detectOverdueTasks env w).2)
  ∧ length (about tid (new_notifications w (detectOverdueTasks env w).2))
    ≤ 1
  ∧ (already_notified tid (tasks w) →
     about tid (new_notifications w (detectOverdueTasks env w).2) = []
     ∧ already_notified tid (tasks (detectOverdueTasks env w).2))
  ∧ (about tid (new_notifications w (detectOverdueTasks env w).2) ≠ [] →
     already_notified tid (tasks (detectOverdueTasks env w).2)).
Proof.
  intros Hu. destruct (detect_completed env Hquiet w) as (Ht & Hn & _).
  rewrite (new_notifications_app _ _ _ Hn), Ht.
  pose proof (selected_NoDup (where_newly_overdue (clock w)) 100 w Hu)
    as Hnd. fold (newly_overdue w) in Hnd.
  assert (Hin : tid ∈ id <$> newly_overdue w →
                already_notified tid
                  (stamp_all (clock w) (id <$> newly_overdue w) (tasks w))).
  { intros Hs t' (t & -> & Hin')%list_elem_of_fmap.
    destruct (decide (id t ∈ id <$> newly_overdue w)); [done|].
    intros <-. done. }
  split; [|split; [|split]].
  - unfold unique_ids. by rewrite stamp_all_ids.
  - destruct (decide (tid ∈ id <$> newly_overdue w)) as [Hs|Hs].
    + apply list_elem_of_fmap in Hs as (t & -> & Hs).
      rewrite about_selected_in by done.
      apply overdue_notifications_length.
    + rewrite about_selected_out by done. simpl. lia.
  - intros Hal.
    assert (Hout : tid ∉ id <$> newly_overdue w).
    { intros (t & -> & Hs)%list_elem_of_fmap.
      apply selected_elem in Hs as [Hin' Hm].
      apply matches_newly_overdue in Hm as (_ & _ & _ & _ & Hnone).
      by apply (Hal t). }
    split; [by apply about_selected_out|].
    intros t' (t & -> & Hin')%list_elem_of_fmap.
    destruct (decide (id t ∈ id <$> newly_overdue w)); [done|].
    by apply Hal.
  - intros Hne. apply Hin.
    destruct (decide (tid ∈ id <$> newly_overdue w)) as [Hs|Hs]; [done|].
    by rewrite about_selected_out in Hne.
Qed.

Lemma detect_runs_notifications (n : nat) (w : World) :
  ∃ ns, notifications (detect_runs env n w) = notifications w ++ ns.
Proof.
  revert w. induction n as [|n IH]; intros w.
  - exists []. simpl. by rewrite app_nil_r.
  - simpl. destruct (IH (detectOverdueTasks env w).2) as (ns & ->).
    destruct (detect_completed env Hquiet w) as (_ & -> & _).
    eexists. by rewrite <- app_assoc.
Qed.

Lemma detect_runs_once (tid : string) (n : nat) (w : World) :
  unique_ids (tasks w) →
  length (about tid (new_notifications w (detect_runs env n w))) ≤ 1
  ∧ (already_notified tid (tasks w) →
     about tid (new_notifications w (detect_runs env n w)) = []).
Proof.
  revert w. induction n as [|n IH]; intros w Hu.
  - simpl. unfold new_notifications. rewrite drop_all. simpl. split; [lia|done].
  - simpl. destruct (detect_once tid w Hu) as (Hu1 & Hlen & Hal & Hne).
    destruct (IH _ Hu1) as (IHlen & IHal).
    destruct (detect_runs_notifications n (detectOverdueTasks env w).2)
      as (ns & Hns).
    destruct (detect_completed env Hquiet w) as (_ & Hn & _).
    rewrite (new_notifications_app _ _ _ Hns) in IHlen, IHal.
    rewrite (new_notifications_app _ _ _ Hn) in Hlen, Hal, Hne.
    rewrite Hn, <- app_assoc in Hns.
    rewrite (new_notifications_app _ _ _ Hns), about_app. split.
    + destruct (about tid (newly_overdue w ≫= overdue_notifications))
        as [|x l] eqn:Hab.
      * simpl. exact IHlen.
      * rewrite IHal by (by apply Hne). rewrite app_nil_r. exact Hlen.
    + intros Hw. destruct (Hal Hw) as [-> Hw1]. by rewrite IHal.
Qed.
End Repeated.

(** C2 (amended): without failures, when at most 100 tasks qualify and no
    task falls due between the two runs, the second of two successive runs
    of the 15-minute scan selects no task, creates no notification and
    leaves the store as it is; and whatever the number of qualifying tasks
    and of runs, a task gets at most one notification from the scan, because
    the query only returns unstamped rows and a processed row is stamped. *)
Theorem second_run_selects_nothing (env : Env) (w : World) :
  no_faults env →
  unique_ids (tasks w) →
  (length (filter (λ t, matches (where_newly_overdue (clock w)) t) (tasks w))
   ≤ 100 →
   (∀ t, t ∈ tasks w →
      matches (where_newly_overdue (clock (detectOverdueTasks env w).2)) t
      = true →
      matches (where_newly_overdue (clock w)) t = true) →
   newly_overdue (detectOverdueTasks env w).2 = []
   ∧ notifications (detect_runs env 2 w)
     = notifications (detectOverdueTasks env w).2
   ∧ tasks (detect_runs env 2 w) = tasks (detectOverdueTasks env w).2)
  ∧ (∀ t, t ∈ newly_overdue w →
       lastOverdueNotifiedAt t = None
       ∧ (lastOverdueNotifiedAt
            <$> row (id t) (tasks (detectOverdueTasks env w).2))
         = Some (Some (clock w)))
  ∧ (∀ n tid,
       length (about tid (new_notifications w (detect_runs env n w))) ≤ 1).
Proof.
  intros Hq Hu. split; [|split].
  - intros Hlen Hdue.
    assert (Hnone : newly_overdue (detectOverdueTasks env w).2 = []).
    { rewrite (next_run_selection env Hq w Hu Hdue).
      rewrite drop_ge by done. done. }
    split; [exact Hnone|]. simpl.
    destruct (detect_completed env Hq (detectOverdueTasks env w).2)
      as (-> & -> & _).
    rewrite Hnone. simpl. by rewrite app_nil_r, stamp_all_nil.
  - intros t Ht. split.
    + apply selected_elem in Ht as [_ Hm].
      by apply matches_newly_overdue in Hm as (_ & _ & _ & _ & ?).
    + destruct (selected_task_stamped_and_notified_aux env w t Hq Hu Ht)
        as [-> _]. done.
  - intros n tid. by apply detect_runs_once.
Qed.

Lemma second_run_selects_nothing_witness :
  newly_overdue (detectOverdueTasks quiet small_world).2 = []
  ∧ notifications (detect_runs quiet 2 small_world)
    = notifications (detectOverdueTasks quiet small_world).2
  ∧ tasks (detect_runs quiet 2 small_world)
    = tasks (detectOverdueTasks quiet small_world).2.
Proof.
  apply (second_run_selects_nothing quiet small_world).
  - intros k. reflexivity.
  - apply (bool_decide_unpack _). vm_compute. exact I.
  - vm_compute. lia.
  - intros t Ht _. apply list_elem_of_In in Ht. simpl in Ht.
    destruct Ht as [<-|[<-|[]]]; reflexivity.
Defined.

(** C2 as stated fails beyond the cap: with 101 qualifying tasks the second
    of two successive runs selects the task left by the first run and
    creates a notification for it. *)
Lemma second_run_selects_backlog :
  id <$> newly_overdue (detectOverdueTasks quiet (backlog 101)).2
  = ["task-100"]
  ∧ entityId ∘ payload
      <$> new_notifications (detectOverdueTasks quiet (backlog 101)).2
            (detect_runs quiet 2 (backlog 101))
    = ["task-100"].
Proof. split; by vm_compute. Qed.

(** ** Batch caps *)

Lemma NoDup_take_drop {A} (l : list A) (k : nat) (x : A) :
  NoDup l → x ∈ drop k l → x ∉ take k l.
Proof.
  intros Hnd Hd Ht. rewrite <- (take_drop k l) in Hnd.
  apply NoDup_app in Hnd as (_ & Hdis & _). by apply (Hdis x).
Qed.

Lemma filter_prefix_length {A} (P : A → Prop) `{∀ x, Decision (P x)}
    (l k : list A) :
  l `prefix_of` k → length (filter P l) ≤ length (filter P k).
Proof. intros [l' ->]. rewrite filter_app, length_app. lia. Qed.

Lemma updates_bound (env : Env) wh n pre now (w w' : World) r :
  no_update pre →
  outcome env w (script wh n pre now (selected wh n w)) r w' →
  length (filter (λ op, is_update op) (new_trace w w')) ≤ n.
Proof.
  intros Hpre Ho. apply outcome_prefix in Ho.
  etrans; [apply (filter_prefix_length _ _ _ Ho)|].
  rewrite filter_is_update_script, length_fmap by done.
  unfold selected. rewrite length_take. lia.
Qed.

(** C7: a run of the 15-minute scan issues at most 100 stamps and a run of
    the daily scan at most 200, whatever fails; without failures the
    15-minute scan stamps exactly the first 100 qualifying tasks and leaves
    the others as they are, still qualifying: 100 and 50 out of 150. *)
Theorem batch_is_capped (env : Env) (w : World) :
  (length (newly_overdue w) ≤ 100
   ∧ length (filter (λ op, is_update op)
               (new_trace w (detectOverdueTasks env w).2)) ≤ 100
   ∧ length (still_overdue w) ≤ 200
   ∧ length (filter (λ op, is_update op)
               (new_trace w (sendDailyOverdueReminders env w).2)) ≤ 200)
  ∧ (no_faults env →
     unique_ids (tasks w) →
     ∀ qualifying,
       qualifying
       = filter (λ t, matches (where_newly_overdue (clock w)) t) (tasks w) →
       filter (λ op, is_update op) (new_trace w (detectOverdueTasks env w).2)
       = (λ t, OpUpdate (id t) (clock w)) <$> take 100 qualifying
       ∧ (∀ t, t ∈ take 100 qualifying →
            row (id t) (tasks (detectOverdueTasks env w).2)
            = Some (set_lastOverdueNotifiedAt (clock w) t))
       ∧ filter (λ t, matches (where_newly_overdue (clock w)) t)
           (tasks (detectOverdueTasks env w).2)
         = drop 100 qualifying
       ∧ (∀ t, t ∈ drop 100 qualifying →
            row (id t) (tasks (detectOverdueTasks env w).2) = Some t
            ∧ ∀ now', (clock w ≤ now')%Z →
                matches (where_newly_overdue now') t = true)
       ∧ (length qualifying = 150 →
          length (take 100 qualifying) = 100
          ∧ length (drop 100 qualifying) = 50)).
Proof.
  split.
  - destruct (detect_outcome env w) as (_ & (r & Ho) & _).
    destruct (daily_outcome env w) as (_ & (r' & Ho') & _).
    split; [|split; [|split]].
    + unfold newly_overdue, selected. rewrite length_take. lia.
    + eapply updates_bound; [apply overdue_calls_no_update | exact Ho].
    + unfold still_overdue, selected. rewrite length_take. lia.
    + eapply updates_bound; [apply reminder_calls_no_update | exact Ho'].
  - intros Hq Hu qualifying ->.
    destruct (detect_completed env Hq w) as (Ht & _ & Htr).
    change (take 100 (filter (λ t, matches (where_newly_overdue (clock w)) t)
                        (tasks w))) with (newly_overdue w).
    split; [|split; [|split; [|split]]].
    + rewrite Htr. apply filter_is_update_script, overdue_calls_no_update.
    + intros t Hsel.
      by destruct (selected_task_stamped_and_notified_aux env w t Hq Hu Hsel).
    + rewrite Ht. apply (filter_stamped _ (clock w) 100 (tasks w) Hu).
      intros t Hm. apply Is_true_eq_true in Hm.
      by apply matches_newly_overdue in Hm as (_ & _ & _ & _ & ?).
    + intros t Hd.
      assert (Hf : t ∈ filter (λ t, matches (where_newly_overdue (clock w)) t)
                     (tasks w))
        by (eapply elem_of_sublist; [exact Hd | apply sublist_drop]).
      apply list_elem_of_filter in Hf as [Hm Hin].
      apply Is_true_eq_true in Hm. split.
      * rewrite Ht, row_stamp_all, (row_elem _ _ Hu Hin). simpl.
        rewrite decide_False; [done|].
        intros (t' & Hid & Hsel)%list_elem_of_fmap.
        assert (Hin' : t' ∈ tasks w)
          by (by apply selected_elem in Hsel as [? _]).
        rewrite (unique_ids_inj _ t t' Hu Hin Hin' Hid) in Hd.
        apply (NoDup_take_drop _ 100 t') in Hd; [by apply Hd|].
        apply NoDup_filter. by apply NoDup_fmap_1 in Hu.
      * intros now' Hle.
        apply (matches_later (where_newly_overdue (clock w)) now' t Hle Hm).
    + intros Hlen. unfold newly_overdue, selected.
      rewrite length_take, length_drop, Hlen. lia.
Qed.

Lemma batch_is_capped_witness :
  length (filter (λ op, is_update op)
            (new_trace (backlog 150)
               (detectOverdueTasks quiet (backlog 150)).2)) = 100
  ∧ length (filter (λ t, matches (where_newly_overdue 1000) t)
              (tasks (detectOverdueTasks quiet (backlog 150)).2)) = 50.
Proof.
  assert (Hq : no_faults quiet) by (intros k; reflexivity).
  assert (Hu : unique_ids (tasks (backlog 150)))
    by (apply (bool_decide_unpack _); vm_compute; exact I).
  destruct (proj2 (batch_is_capped quiet (backlog 150)) Hq Hu _ eq_refl)
    as (Hupd & _ & Hleft & _ & Hlen).
  assert (H150 : length (filter
                   (λ t, matches (where_newly_overdue (clock (backlog 150))) t)
                   (tasks (backlog 150))) = 150) by (vm_compute; reflexivity).
  destruct (Hlen H150) as [H100 H50]. split.
  - rewrite Hupd, length_fmap. exact H100.
  - change 1000%Z with (clock (backlog 150)). rewrite Hleft. exact H50.
Defined.

(** ** Failure of the notification sink *)

Lemma create_in_iteration now (t : Task) d1 uids p d2 :
  iteration overdue_calls now t = d1 ++ OpCreateForUsers uids p :: d2 →
  d1 = [] ∧ p = overdue_payload t.
Proof.
  unfold iteration, overdue_calls.
  destruct (0 <? _)%nat.
  - destruct d1 as [|x d1]; simpl; [by intros [= _ <-]|].
    intros [= _ Heq].
    assert (Hin : OpCreateForUsers uids p
                  ∈ ((λ uid, OpEmitToUser (overdue_event t uid))
                       <$> JSSet.to_array (overdue_userIds t))
                    ++ [OpUpdate (id t) now]).
    { rewrite Heq. apply elem_of_app. right. apply list_elem_of_here. }
    apply elem_of_app in Hin as [Hin|Hin].
    + by apply list_elem_of_fmap in Hin as (? & ? & _).
    + by apply list_elem_of_singleton in Hin.
  - simpl. destruct d1 as [|x [|y d1]]; simpl; intros [= ]; done.
Qed.

Lemma update_in_iterations pre now (sel : list Task) tid ts :
  no_update pre →
  OpUpdate tid ts ∈ sel ≫= iteration pre now → tid ∈ id <$> sel.
Proof.
  intros Hpre (t & Hin & Hsel)%list_elem_of_bind.
  unfold iteration in Hin. apply elem_of_app in Hin as [Hin|Hin].
  - specialize (Hpre t). rewrite Forall_forall in Hpre.
    by apply Hpre in Hin.
  - apply list_elem_of_singleton in Hin as [= -> _].
    by apply list_elem_of_fmap_2.
Qed.

(** C3 (amended): when [createForUsers] fails for a task during the
    15-minute scan, the failure ends the run: no call follows, no stamp of
    that task is attempted, its row is left with [lastOverdueNotifiedAt]
    null, and no notification about it is recorded by the run. *)
Theorem sink_failure_leaves_task_unstamped (env : Env) (w : World)
    (j : nat) (uids : list string) (p : Payload) :
  unique_ids (tasks w) →
  length (trace w) ≤ j →
  trace (detectOverdueTasks env w).2 !! j = Some (OpCreateForUsers uids p) →
  fails env j = true →
  S j = length (trace (detectOverdueTasks env w).2)
  ∧ (∀ ts, OpUpdate (entityId p) ts
           ∉ new_trace w (detectOverdueTasks env w).2)
  ∧ (∃ t, t ∈ newly_overdue w ∧ id t = entityId p
          ∧ row (id t) (tasks (detectOverdueTasks env w).2) = Some t
          ∧ lastOverdueNotifiedAt t = None)
  ∧ about (entityId p) (new_notifications w (detectOverdueTasks env w).2)
    = [].
Proof.
  intros Hu Hlo Hlook Hfail.
  destruct (detect_outcome env w) as (_ & (r & Ho) & _).
  pose proof (lookup_lt_Some _ _ _ Hlook) as Hhi.
  destruct (outcome_abort env _ _ _ _ j Ho Hlo Hhi Hfail) as [Hlast _].
  split; [exact Hlast|].
  pose proof (selected_NoDup (where_newly_overdue (clock w)) 100 w Hu) as Hnd.
  fold (newly_overdue w) in Hnd.
  unfold new_trace, new_notifications.
  inversion Ho as [w'' Ht Hnf Hde Hr Hw
                  | w'' done op rest Hops Ht Hnf Hfl Hde Hr Hw]; subst.
  { rewrite Ht, length_app in Hhi.
    specialize (Hnf (j - length (trace w))).
    replace (length (trace w) + (j - length (trace w))) with j in Hnf by lia.
    rewrite Hnf in Hfail by lia. discriminate. }
  rewrite Ht in Hlast, Hlook |- *. rewrite !length_app in Hlast.
  simpl in Hlast.
  assert (Hop : op = OpCreateForUsers uids p).
  { rewrite lookup_app_r, lookup_app_r in Hlook by lia.
    replace (j - length (trace w) - length done) with 0 in Hlook by lia.
    by injection Hlook. }
  subst op. unfold script in Hops.
  destruct done as [|x done]; [discriminate|].
  injection Hops as <- Hops.
  apply iterations_split in Hops as (s1 & t & s2 & d1 & d2 & Hsel & -> & Hit).
  apply create_in_iteration in Hit as [-> ->]. rewrite app_nil_r in *.
  rewrite Hsel, fmap_app, fmap_cons in Hnd.
  apply NoDup_app in Hnd as (_ & Hdis & _).
  assert (Hout : id t ∉ id <$> s1).
  { intros Hin. apply (Hdis _ Hin), list_elem_of_here. }
  destruct Hde as (Hts & Hns & _).
  change (effects (?op :: ?ops) w) with (effects ops (effect op w)) in *.
  rewrite tasks_effects_iterations in Hts by apply overdue_calls_no_update.
  rewrite notifications_effects, overdue_script_notifications in Hns.
  simpl in Hts, Hns. rewrite drop_app_length. split; [|split].
  - intros ts [Hin|Hin]%elem_of_cons; [done|].
    apply elem_of_app in Hin as [Hin|Hin].
    + apply update_in_iterations in Hin; [done | apply overdue_calls_no_update].
    + by apply list_elem_of_singleton in Hin.
  - assert (Hin : t ∈ newly_overdue w).
    { rewrite Hsel. apply elem_of_app. right. apply list_elem_of_here. }
    exists t. split; [exact Hin|]. split; [done|].
    apply selected_elem in Hin as [Hin Hm]. split.
    + rewrite Hts, row_stamp_all, (row_elem _ _ Hu Hin). simpl.
      by rewrite decide_False.
    + by apply matches_newly_overdue in Hm as (_ & _ & _ & _ & ?).
  - rewrite Hns, drop_app_length. by apply about_selected_out.
Qed.

Lemma sink_failure_leaves_task_unstamped_witness :
  2 = length (trace (detectOverdueTasks (failing_at 1) (backlog 2)).2)
  ∧ (∀ ts, OpUpdate "task-0" ts
           ∉ new_trace (backlog 2)
               (detectOverdueTasks (failing_at 1) (backlog 2)).2).
Proof.
  destruct (sink_failure_leaves_task_unstamped (failing_at 1) (backlog 2) 1
              ["U1"] (overdue_payload (backlog_task 0)))
    as (Hlast & Hnone & _).
  - apply (bool_decide_unpack _). vm_compute. exact I.
  - simpl. lia.
  - vm_compute. reflexivity.
  - reflexivity.
  - split; [exact Hlast | exact Hnone].
Defined.

(** C3 as stated fails: the sink fails for the first task, and the trace
    of the run holds the query and the failed call only, the row of the task
    keeps its null stamp. *)
Lemma sink_failure_skips_stamp :
  fails (failing_at 1) 1 = true
  ∧ (detectOverdueTasks (failing_at 1) (backlog 2)).1 = Ok tt
  ∧ new_trace (backlog 2) (detectOverdueTasks (failing_at 1) (backlog 2)).2
    = [OpFindMany (where_newly_overdue 1000) 100;
       OpCreateForUsers ["U1"] (overdue_payload (backlog_task 0))]
  ∧ filter (λ op, is_update op)
      (new_trace (backlog 2)
         (detectOverdueTasks (failing_at 1) (backlog 2)).2) = []
  ∧ (lastOverdueNotifiedAt
       <$> row "task-0"
             (tasks (detectOverdueTasks (failing_at 1) (backlog 2)).2))
    = Some None.
Proof. repeat split; by vm_compute. Qed.

(** ** Events, reminders and logs of a run *)

Lemma events_effects (ops : list Op) (w : World) :
  events (effects ops w) = events w ++ omap event_of ops.
Proof.
  revert w. induction ops as [|op ops IH]; intros w.
  - simpl. by rewrite app_nil_r.
  - change (effects (op :: ops) w) with (effects ops (effect op w)).
    rewrite IH. destruct op; simpl; try done. by rewrite <- app_assoc.
Qed.

Lemma omap_prefix {A B} (f : A → option B) (l k : list A) :
  l `prefix_of` k → omap f l `prefix_of` omap f k.
Proof. intros [l' ->]. rewrite omap_app. by apply prefix_app_r. Qed.

(** What the calls that got through did to the sink and to the bus. *)
Lemma outcome_sink_bus (env : Env) (w w' : World) ops r :
  outcome env w ops r w' →
  ∃ done, done `prefix_of` ops
    ∧ (r = Ok tt → done = ops)
    ∧ notifications w' = notifications w ++ omap notification_of done
    ∧ events w' = events w ++ omap event_of done.
Proof.
  intros Ho. inversion Ho as [w'' Ht Hnf Hde Hr Hw
                  | w'' done op' rest Hops Ht Hnf Hfl Hde Hr Hw]; subst.
  - exists ops. destruct Hde as (_ & Hn & He).
    rewrite Hn, He, notifications_effects, events_effects. done.
  - exists done. destruct Hde as (_ & Hn & He).
    rewrite Hn, He, notifications_effects, events_effects.
    split; [by apply prefix_app_r|]. done.
Qed.

Lemma omap_event_of_emits (g : string → Event) (l : list string) :
  omap event_of ((λ uid, OpEmitToUser (g uid)) <$> l) = g <$> l.
Proof. induction l as [|u l IH]; [done|]. simpl. f_equal. exact IH. Qed.

Lemma overdue_iteration_events now (t : Task) :
  omap event_of (iteration overdue_calls now t) = overdue_events t.
Proof.
  unfold iteration, overdue_calls, overdue_events.
  rewrite omap_app. simpl. rewrite app_nil_r.
  destruct (0 <? JSSet.size (overdue_userIds t))%nat eqn:Hsz.
  - simpl. apply omap_event_of_emits.
  - apply Nat.ltb_ge in Hsz. unfold JSSet.size in Hsz.
    by destruct (overdue_userIds t); [|simpl in Hsz; lia].
Qed.

Lemma overdue_script_events wh n now (sel : list Task) :
  omap event_of (script wh n overdue_calls now sel) = sel ≫= overdue_events.
Proof.
  unfold script.
  change (omap event_of (OpFindMany wh n :: ?l)) with (omap event_of l).
  induction sel as [|t sel IH]; [done|].
  by rewrite !bind_cons, omap_app, IH, overdue_iteration_events.
Qed.

Lemma reminder_script_events wh n now (sel : list Task) :
  omap event_of (script wh n (reminder_calls now) now sel) = [].
Proof.
  unfold script.
  change (omap event_of (OpFindMany wh n :: ?l)) with (omap event_of l).
  induction sel as [|t sel IH]; [done|].
  rewrite bind_cons, omap_app, IH, app_nil_r.
  unfold iteration, reminder_calls.
  by destruct (0 <? _)%nat.
Qed.

(** X1: the real-time events of the 15-minute scan.  Whatever calls fail, the
    events that a run pushes are a prefix of one [notification.new] event of
    type [task_overdue] per recipient of every selected task, in the order
    of the tasks and of their recipients, each carrying the id and the
    Arabic title of its task; a run without failures pushes all of them. *)
Theorem overdue_events_fan_out (env : Env) (w : World) :
  drop (length (events w)) (events (detectOverdueTasks env w).2)
  `prefix_of`
    (newly_overdue w ≫= λ t,
       (λ uid, {| ev_to := uid; ev_name := "notification.new";
                  ev_type := "task_overdue"; ev_taskId := id t;
                  ev_titleAr := titleAr t |})
         <$> JSSet.to_array (overdue_userIds t))
  ∧ (no_faults env →
     events (detectOverdueTasks env w).2
     = events w
       ++ (newly_overdue w ≫= λ t,
             (λ uid, {| ev_to := uid; ev_name := "notification.new";
                        ev_type := "task_overdue"; ev_taskId := id t;
                        ev_titleAr := titleAr t |})
               <$> JSSet.to_array (overdue_userIds t))).
Proof.
  destruct (detect_outcome env w) as (_ & (r & Ho) & _).
  pose proof (outcome_sink_bus env _ _ _ _ Ho) as (done & Hpre & Hall & _ & He).
  change (newly_overdue w ≫= _) with (newly_overdue w ≫= overdue_events).
  rewrite <- (overdue_script_events (where_newly_overdue (clock w)) 100
                (clock w)).
  split.
  - rewrite He, drop_app_length. by apply omap_prefix.
  - intros Hq. apply outcome_no_faults in Ho as (-> & _); [|intros; apply Hq].
    by rewrite He, Hall.
Qed.

(** X2: the daily reminder scan never pushes a real-time event, whatever
    it selects and whatever fails. *)
Theorem daily_scan_pushes_no_event (env : Env) (w : World) :
  events (sendDailyOverdueReminders env w).2 = events w.
Proof.
  destruct (daily_outcome env w) as (_ & (r & Ho) & _).
  pose proof (outcome_sink_bus env _ _ _ _ Ho) as (done & Hpre & _ & _ & He).
  apply (omap_prefix event_of) in Hpre.
  rewrite reminder_script_events in Hpre.
  apply prefix_nil_inv in Hpre. by rewrite He, Hpre, app_nil_r.
Qed.

(** ** The daily scan without failures *)

Lemma filter_all {A} (P : A → Prop) `{∀ x, Decision (P x)} (l : list A) :
  Forall P l → filter P l = l.
Proof.
  induction 1 as [|x l Hx _ IH]; [done|]. by rewrite filter_cons_True, IH.
Qed.

Lemma about_bind_out (f : Task → list Notification) (tid : string)
    (sel : list Task) :
  (∀ t, Forall (λ n, entityId (payload n) = id t) (f t)) →
  tid ∉ id <$> sel → about tid (sel ≫= f) = [].
Proof.
  intros Hf. induction sel as [|t sel IH]; [done|].
  rewrite fmap_cons, not_elem_of_cons. intros [Hne Hni].
  rewrite bind_cons, about_app, IH, app_nil_r by done.
  unfold about. apply filter_none.
  eapply Forall_impl; [apply Hf|]. simpl. intros n Hn. congruence.
Qed.

Lemma about_bind_in (f : Task → list Notification) (sel : list Task)
    (t : Task) :
  (∀ t, Forall (λ n, entityId (payload n) = id t) (f t)) →
  NoDup (id <$> sel) → t ∈ sel → about (id t) (sel ≫= f) = f t.
Proof.
  intros Hf. induction sel as [|t' sel IH]; intros Hnd Hin.
  - by apply elem_of_nil in Hin.
  - rewrite fmap_cons in Hnd. apply NoDup_cons in Hnd as [Hni Hnd].
    rewrite bind_cons, about_app.
    apply elem_of_cons in Hin as [->|Hin].
    + rewrite (about_bind_out f) by done. rewrite app_nil_r.
      unfold about. apply filter_all, Hf.
    + rewrite IH by done.
      replace (about (id t) (f t')) with (@nil Notification); [done|].
      symmetry. unfold about. apply filter_none.
      eapply Forall_impl; [apply Hf|]. simpl. intros n Hn Heq.
      apply Hni. rewrite <- Hn, Heq. by apply list_elem_of_fmap_2.
Qed.

Lemma reminder_notifications_entity now (t : Task) :
  Forall (λ n, entityId (payload n) = id t) (reminder_notifications now t).
Proof.
  unfold reminder_notifications. destruct (0 <? _)%nat; repeat constructor.
Qed.

Lemma reminder_script_notifications now (sel : list Task) :
  omap notification_of (sel ≫= iteration (reminder_calls now) now)
  = sel ≫= reminder_notifications now.
Proof.
  induction sel as [|t sel IH]; [done|].
  rewrite !bind_cons, omap_app, IH. f_equal.
  unfold iteration, reminder_calls, reminder_notifications.
  by destruct (0 <? _)%nat.
Qed.

(** A whole run of the daily scan. *)
Lemma daily_completed (env : Env) (w : World) :
  no_faults env →
  tasks (sendDailyOverdueReminders env w).2
  = stamp_all (clock w) (id <$> still_overdue w) (tasks w)
  ∧ notifications (sendDailyOverdueReminders env w).2
    = notifications w ++ (still_overdue w ≫= reminder_notifications (clock w)).
Proof.
  intros Hq. destruct (daily_outcome env w) as (_ & (r & Ho) & _).
  apply outcome_no_faults in Ho as (_ & Htr & Ht & Hn & _);
    [|intros; apply Hq].
  unfold script in *.
  change (effects (?op :: ?ops) w) with (effects ops (effect op w)) in *.
  split.
  - rewrite Ht. apply tasks_effects_iterations, reminder_calls_no_update.
  - rewrite Hn, notifications_effects. simpl.
    by rewrite reminder_script_notifications.
Qed.

Lemma daysDiff_positive (now : Z) (t : Task) :
  matches (where_still_overdue now) t = true → (1 ≤ daysDiff now t)%Z.
Proof.
  intros (_ & (d & Hd & Hlt) & _)%matches_still_overdue.
  unfold daysDiff. rewrite Hd. simpl.
  pose proof (Math_ceil_div_spec (now - d) MS_PER_DAY eq_refl) as [_ Hup].
  unfold MS_PER_DAY in *. lia.
Qed.

(** X3: in a daily run without collaborator failure over a table with
    unique ids, every selected task ends the run stamped with the time of the
    run and gets exactly one reminder, addressed to the assignee and the
    assignment users, or none when there are no such users; its day count is
    at least 1, and the stamped task still matches the daily query at any
    later time. *)
Theorem still_overdue_task_reminded (env : Env) (w : World) (t : Task) :
  no_faults env →
  unique_ids (tasks w) →
  t ∈ still_overdue w →
  row (id t) (tasks (sendDailyOverdueReminders env w).2)
  = Some (set_lastOverdueNotifiedAt (clock w) t)
  ∧ about (id t) (new_notifications w (sendDailyOverdueReminders env w).2)
    = (if decide (JSSet.size (reminder_userIds t) = 0) then []
       else [{| recipients := JSSet.to_array (reminder_userIds t);
                payload := reminder_payload (clock w) t |}])
  ∧ (1 ≤ daysDiff (clock w) t)%Z
  ∧ (∀ now', (clock w ≤ now')%Z →
       matches (where_still_overdue now')
         (set_lastOverdueNotifiedAt (clock w) t) = true).
Proof.
  intros Hq Hu Hsel.
  destruct (daily_completed env w Hq) as (Ht & Hn).
  pose proof (selected_elem _ _ _ _ Hsel) as [Hin Hm].
  split; [|split; [|split]].
  - rewrite Ht, row_stamp_all, (row_elem _ _ Hu Hin). simpl.
    rewrite decide_True; [done|]. by apply list_elem_of_fmap_2.
  - rewrite (new_notifications_app _ _ _ Hn).
    rewrite (about_bind_in (reminder_notifications (clock w)));
      [|apply reminder_notifications_entity|by apply selected_NoDup|done].
    unfold reminder_notifications.
    by destruct (JSSet.size (reminder_userIds t)).
  - by apply daysDiff_positive.
  - intros now' Hle.
    apply (matches_later (where_still_overdue (clock w)) now' _ Hle).
    apply matches_still_overdue in Hm as (? & ? & ? & ? & _).
    apply matches_still_overdue. by repeat split.
Qed.

Lemma still_overdue_task_reminded_witness :
  row "task-0" (tasks (sendDailyOverdueReminders quiet (reminded 2)).2)
  = Some (set_lastOverdueNotifiedAt 2000
            (set_lastOverdueNotifiedAt 500 (backlog_task 0))).
Proof.
  destruct (still_overdue_task_reminded quiet (reminded 2)
              (set_lastOverdueNotifiedAt 500 (backlog_task 0)))
    as (Hrow & _).
  - intros k. reflexivity.
  - apply (bool_decide_unpack _). vm_compute. exact I.
  - vm_compute. constructor.
  - exact Hrow.
Defined.

(** X4: a task that a 15-minute run without collaborator failure selected
    no longer matches the query of the 15-minute scan at any later time and
    matches the query of the daily scan instead. *)
Theorem notified_task_moves_to_daily_scan (env : Env) (w : World) (t : Task) :
  no_faults env →
  unique_ids (tasks w) →
  t ∈ newly_overdue w →
  ∃ t', row (id t) (tasks (detectOverdueTasks env w).2) = Some t'
        ∧ ∀ now', (clock w ≤ now')%Z →
            matches (where_newly_overdue now') t' = false
            ∧ matches (where_still_overdue now') t' = true.
Proof.
  intros Hq Hu Hsel.
  destruct (selected_task_stamped_and_notified_aux env w t Hq Hu Hsel)
    as [Hrow _].
  exists (set_lastOverdueNotifiedAt (clock w) t). split; [exact Hrow|].
  intros now' Hle. apply selected_elem in Hsel as [_ Hm].
  apply matches_newly_overdue in Hm as (Hdel & (d & Hd & Hlt) & Hs1 & Hs2 & _).
  split.
  - apply not_true_is_false.
    by intros (_ & _ & _ & _ & ?)%matches_newly_overdue.
  - apply matches_still_overdue. repeat split; try done.
    exists d. split; [done | lia].
Qed.

Lemma notified_task_moves_to_daily_scan_witness :
  ∃ t', row "task-s" (tasks (detectOverdueTasks quiet small_world).2) = Some t'
        ∧ ∀ now', (1000 ≤ now')%Z →
            matches (where_newly_overdue now') t' = false
            ∧ matches (where_still_overdue now') t' = true.
Proof.
  apply (notified_task_moves_to_daily_scan quiet small_world shared_task).
  - intros k. reflexivity.
  - apply (bool_decide_unpack _). vm_compute. exact I.
  - vm_compute. constructor.
Defined.

(** ** Failure of the stamp *)

Lemma update_in_iteration pre now (t : Task) d1 tid ts d2 :
  no_update pre →
  iteration pre now t = d1 ++ OpUpdate tid ts :: d2 →
  d1 = pre t ∧ tid = id t ∧ ts = now.
Proof.
  intros Hpre. unfold iteration. intros Heq.
  apply app_eq_inv in Heq as [(l & Hit & Hrest)|(l & Hdone & Hsel)].
  - destruct l as [|x l].
    + injection Hrest as <- <- _. by rewrite app_nil_r in Hit.
    + injection Hrest as <- _. specialize (Hpre t). rewrite Hit in Hpre.
      apply Forall_app in Hpre as [_ Hpre].
      by apply Forall_cons in Hpre as [? _].
  - destruct l as [|x l]; [|by destruct l].
    rewrite app_nil_r in Hdone. by injection Hsel as <- <-.
Qed.

(** X5: when the stamp of a task fails in the 15-minute scan, that call is
    the last of the run, the row of the task is unchanged, the durable
    notification about the task has already been recorded, and the task
    still matches the query of the 15-minute scan at any later time. *)
Theorem stamp_failure_leaves_task_notified_and_eligible (env : Env)
    (w : World) (j : nat) (tid : string) (ts : Z) :
  unique_ids (tasks w) →
  length (trace w) ≤ j →
  trace (detectOverdueTasks env w).2 !! j = Some (OpUpdate tid ts) →
  fails env j = true →
  S j = length (trace (detectOverdueTasks env w).2)
  ∧ ∃ t, t ∈ newly_overdue w ∧ id t = tid
      ∧ row tid (tasks (detectOverdueTasks env w).2) = Some t
      ∧ about tid (new_notifications w (detectOverdueTasks env w).2)
        = (if decide (JSSet.size (overdue_userIds t) = 0) then []
           else [{| recipients := JSSet.to_array (overdue_userIds t);
                    payload := overdue_payload t |}])
      ∧ ∀ now', (clock w ≤ now')%Z →
          matches (where_newly_overdue now') t = true.
Proof.
  intros Hu Hlo Hlook Hfail.
  destruct (detect_outcome env w) as (_ & (r & Ho) & _).
  pose proof (lookup_lt_Some _ _ _ Hlook) as Hhi.
  destruct (outcome_abort env _ _ _ _ j Ho Hlo Hhi Hfail) as [Hlast _].
  split; [exact Hlast|].
  pose proof (selected_NoDup (where_newly_overdue (clock w)) 100 w Hu) as Hnd.
  fold (newly_overdue w) in Hnd. unfold new_notifications.
  inversion Ho as [w'' Ht Hnf Hde Hr Hw
                  | w'' done op rest Hops Ht Hnf Hfl Hde Hr Hw]; subst.
  { rewrite Ht, length_app in Hhi.
    specialize (Hnf (j - length (trace w))).
    replace (length (trace w) + (j - length (trace w))) with j in Hnf by lia.
    rewrite Hnf in Hfail by lia. discriminate. }
  rewrite Ht in Hlast, Hlook. rewrite !length_app in Hlast. simpl in Hlast.
  assert (Hop : op = OpUpdate tid ts).
  { rewrite lookup_app_r, lookup_app_r in Hlook by lia.
    replace (j - length (trace w) - length done) with 0 in Hlook by lia.
    by injection Hlook. }
  subst op. unfold script in Hops.
  destruct done as [|x done]; [discriminate|].
  injection Hops as <- Hops.
  apply iterations_split in Hops as (s1 & t & s2 & d1 & d2 & Hsel & -> & Hit).
  apply update_in_iteration in Hit as (-> & -> & ->);
    [|apply overdue_calls_no_update].
  rewrite Hsel, fmap_app, fmap_cons in Hnd.
  apply NoDup_app in Hnd as (_ & Hdis & _).
  assert (Hout : id t ∉ id <$> s1).
  { intros Hin. apply (Hdis _ Hin), list_elem_of_here. }
  destruct Hde as (Hts & Hns & _).
  change (effects (?op :: ?ops) w) with (effects ops (effect op w)) in *.
  rewrite effects_app, effects_no_update, tasks_effects_iterations in Hts
    by apply overdue_calls_no_update.
  rewrite notifications_effects, omap_app, overdue_script_notifications
    in Hns.
  simpl in Hts, Hns.
  assert (Hin : t ∈ newly_overdue w).
  { rewrite Hsel. apply elem_of_app. right. apply list_elem_of_here. }
  exists t. split; [exact Hin|]. split; [done|].
  apply selected_elem in Hin as [Hin Hm]. split; [|split].
  - rewrite Hts, row_stamp_all, (row_elem _ _ Hu Hin). simpl.
    by rewrite decide_False.
  - rewrite Hns, drop_app_length, about_app, about_selected_out by done.
    simpl.
    replace (omap notification_of (overdue_calls t))
      with (overdue_notifications t).
    + rewrite about_overdue_notifications, decide_True by done.
      unfold overdue_notifications.
      by destruct (JSSet.size (overdue_userIds t)).
    + rewrite <- (overdue_iteration_notifications (clock w)).
      unfold iteration. rewrite omap_app. simpl. by rewrite app_nil_r.
  - intros now' Hle.
    apply (matches_later (where_newly_overdue (clock w)) now' t Hle Hm).
Qed.

Lemma stamp_failure_leaves_task_notified_and_eligible_witness :
  4 = length (trace (detectOverdueTasks (failing_at 3) (backlog 2)).2).
Proof.
  destruct (stamp_failure_leaves_task_notified_and_eligible (failing_at 3)
              (backlog 2) 3 "task-0" 1000) as (Hlast & _).
  - apply (bool_decide_unpack _). vm_compute. exact I.
  - simpl. lia.
  - vm_compute. reflexivity.
  - reflexivity.
  - exact Hlast.
Defined.

(** ** A run that selects nothing *)

(** X6: when no task qualifies, a run of the 15-minute scan issues the
    query and nothing else: no task, notification or event changes, whether
    or not the query fails. *)
Theorem empty_selection_changes_nothing (env : Env) (w : World) :
  newly_overdue w = [] →
  tasks (detectOverdueTasks env w).2 = tasks w
  ∧ notifications (detectOverdueTasks env w).2 = notifications w
  ∧ events (detectOverdueTasks env w).2 = events w
  ∧ new_trace w (detectOverdueTasks env w).2
    = [OpFindMany (where_newly_overdue (clock w)) 100].
Proof.
  intros Hnone. destruct (detect_outcome env w) as (_ & (r & Ho) & _).
  rewrite Hnone in Ho. unfold script, new_trace in *. simpl in Ho.
  inversion Ho as [w'' Ht Hnf Hde Hr Hw
                  | w'' done op rest Hops Ht Hnf Hfl Hde Hr Hw]; subst.
  - destruct Hde as (-> & -> & ->). by rewrite Ht, drop_app_length.
  - destruct done as [|x [|y done]]; try discriminate.
    injection Hops as <- <-.
    destruct Hde as (-> & -> & ->). by rewrite Ht, drop_app_length.
Qed.

Lemma empty_selection_changes_nothing_witness :
  tasks (detectOverdueTasks (failing_at 0) (reminded 2)).2
  = tasks (reminded 2).
Proof.
  destruct (empty_selection_changes_nothing (failing_at 0) (reminded 2))
    as (Ht & _).
  - vm_compute. reflexivity.
  - exact Ht.
Defined.

(** ** The log of a run *)

Lemma new_logs_app (w w' : World) (ls : list LogLine) :
  logs w' = logs w ++ ls → new_logs w w' = ls.
Proof. unfold new_logs. intros ->. apply drop_app_length. Qed.

(** The outcome of a run of the 15-minute scan together with its log. *)
Lemma detect_outcome_logs (env : Env) (w : World) :
  ∃ r, outcome env w
         (script (where_newly_overdue (clock w)) 100 overdue_calls
            (clock w) (newly_overdue w))
         r (detectOverdueTasks env w).2
    ∧ new_logs w (detectOverdueTasks env w).2
      = match r with
        | Ok _ =>
            match newly_overdue w with
            | [] => []
            | _ => [LogInfo ("Found " +:+ pretty (length (newly_overdue w))
                             +:+ " newly overdue tasks");
                    LogInfo ("Notified for "
                             +:+ pretty (length (newly_overdue w))
                             +:+ " overdue tasks")]
            end
        | Throw e =>
            (if fails env (length (trace w)) then []
             else [LogInfo ("Found " +:+ pretty (length (newly_overdue w))
                            +:+ " newly overdue tasks")])
            ++ [LogError "Error in overdue task detection" e]
        end.
Proof.
  unfold detectOverdueTasks, try_catch, newly_overdue.
  rewrite bind_unfold. simpl. rewrite bind_unfold.
  unfold prisma_task_findMany, call.
  destruct (fails env (length (trace w))) eqn:Hf.
  - simpl. eexists. split.
    + apply outcome_add_log, outcome_fail_first; [exact Hf | done | done].
    + by apply new_logs_app.
  - set (w1 := enter_call _ _ w).
    change (take 100 (filter _ (tasks w1)))
      with (selected (where_newly_overdue (clock w)) 100 w).
    destruct (selected (where_newly_overdue (clock w)) 100 w) as [|t sel] eqn:Hsel.
    + simpl. exists (Ok tt). split.
      * apply Completed; [reflexivity| |repeat split].
        intros j Hj. simpl in Hj. replace j with 0 by lia.
        by rewrite Nat.add_0_r.
      * apply new_logs_app. by rewrite app_nil_r.
    + rewrite <- Hsel. simpl (length _ =? 0)%nat.
      replace (length (selected (where_newly_overdue (clock w)) 100 w) =? 0)%nat
        with false by (by rewrite Hsel).
      rewrite !bind_unfold. unfold logger_log.
      set (w2 := add_log _ w1). rewrite bind_unfold.
      destruct (loop_outcome env (where_newly_overdue (clock w)) 100
                  overdue_calls (clock w) (detect_one env (clock w)) w w2)
        as (Ho & Hl & Hc);
        [apply detect_one_script | apply overdue_calls_no_update | exact Hf
        | reflexivity | repeat split |].
      destruct (for_of _ (detect_one env (clock w)) w2) as [[[]|e] w3];
        simpl in Ho, Hl |- *.
      * exists (Ok tt). split; [apply outcome_add_log; exact Ho|].
        apply new_logs_app. simpl. rewrite Hl. simpl.
        by rewrite <- app_assoc.
      * exists (Throw e). split; [apply outcome_add_log; exact Ho|].
        apply new_logs_app. simpl. rewrite Hl. simpl.
        by rewrite <- app_assoc.
Qed.

(** X7: what a run of the 15-minute scan logs.  Without a failing call it
    logs nothing when no task qualifies, and otherwise the number of
    selected tasks twice, as found and as notified.  With a failing call it
    logs the number found, unless the query itself failed, and then the
    error of that call, and never the number notified. *)
Theorem detect_logs_counts_or_error (env : Env) (w : World) :
  ((∀ j, length (trace w) ≤ j →
      j < length (trace (detectOverdueTasks env w).2) →
      fails env j = false) →
   new_logs w (detectOverdueTasks env w).2
   = match newly_overdue w with
     | [] => []
     | _ => [LogInfo ("Found " +:+ pretty (length (newly_overdue w))
                      +:+ " newly overdue tasks");
             LogInfo ("Notified for " +:+ pretty (length (newly_overdue w))
                      +:+ " overdue tasks")]
     end)
  ∧ (∀ j op,
       length (trace w) ≤ j →
       trace (detectOverdueTasks env w).2 !! j = Some op →
       fails env j = true →
       new_logs w (detectOverdueTasks env w).2
       = (if decide (j = length (trace w)) then []
          else [LogInfo ("Found " +:+ pretty (length (newly_overdue w))
                         +:+ " newly overdue tasks")])
         ++ [LogError "Error in overdue task detection"
               (CollaboratorFailure op)]).
Proof.
  destruct (detect_outcome_logs env w) as (r & Ho & Hlogs). split.
  - intros Hnf. apply outcome_no_faults in Ho as (-> & _); [|exact Hnf].
    exact Hlogs.
  - intros j op Hlo Hlook Hfail.
    pose proof (lookup_lt_Some _ _ _ Hlook) as Hhi.
    inversion Ho as [w'' Ht Hnf Hde Hr Hw
                    | w'' done op' rest Hops Ht Hnf Hfl Hde Hr Hw]; subst.
    { rewrite Ht, length_app in Hhi.
      specialize (Hnf (j - length (trace w))).
      replace (length (trace w) + (j - length (trace w))) with j in Hnf by lia.
      rewrite Hnf in Hfail by lia. discriminate. }
    assert (Hj : j = length (trace w) + length done).
    { rewrite Ht, !length_app in Hhi. simpl in Hhi.
      destruct (decide (j - length (trace w) < length done)) as [Hlt|Hge];
        [|lia].
      specialize (Hnf _ Hlt).
      replace (length (trace w) + (j - length (trace w))) with j in Hnf by lia.
      congruence. }
    assert (Hop : op' = op).
    { rewrite Ht, lookup_app_r, lookup_app_r in Hlook by lia.
      replace (j - length (trace w) - length done) with 0 in Hlook by lia.
      by injection Hlook. }
    subst op'. rewrite Hlogs. f_equal.
    destruct done as [|x done].
    + rewrite Nat.add_0_r in Hfl, Hj. rewrite Hfl. by rewrite decide_True.
    + specialize (Hnf 0). rewrite Nat.add_0_r in Hnf.
      rewrite Hnf by (simpl; lia). rewrite decide_False; [done|].
      simpl in Hj. lia.
Qed.

Lemma detect_logs_counts_or_error_witness :
  new_logs (backlog 2) (detectOverdueTasks (failing_at 1) (backlog 2)).2
  = [LogInfo "Found 2 newly overdue tasks";
     LogError "Error in overdue task detection"
       (CollaboratorFailure
          (OpCreateForUsers ["U1"] (overdue_payload (backlog_task 0))))].
Proof.
  apply (proj2 (detect_logs_counts_or_error (failing_at 1) (backlog 2)) 1
           (OpCreateForUsers ["U1"] (overdue_payload (backlog_task 0)))).
  - simpl. lia.
  - vm_compute. reflexivity.
  - reflexivity.
Defined.

(** ** Tasks that a run did not select *)

Lemma overdue_calls_about_own_task : about_own_task overdue_calls.
Proof.
  intros t. unfold overdue_calls. destruct (0 <? _)%nat; [|constructor].
  constructor; [by intros uids p [= _ <-]|].
  apply Forall_fmap, Forall_true. by intros uid.
Qed.

Lemma reminder_calls_about_own_task now :
  about_own_task (reminder_calls now).
Proof.
  intros t. unfold reminder_calls. destruct (0 <? _)%nat; [|constructor].
  apply Forall_singleton. by intros uids p [= _ <-].
Qed.

Lemma script_notifications_entities wh n pre now (sel : list Task) :
  about_own_task pre →
  Forall (λ nt, entityId (payload nt) ∈ id <$> sel)
    (omap notification_of (script wh n pre now sel)).
Proof.
  intros Hpre. unfold script.
  change (omap notification_of (OpFindMany wh n :: ?l))
    with (omap notification_of l).
  induction sel as [|t sel IH]; [constructor|].
  rewrite bind_cons, omap_app. apply Forall_app. split.
  - unfold iteration. rewrite omap_app. simpl. rewrite app_nil_r.
    specialize (Hpre t). induction Hpre as [|op l Hop _ IHl]; [constructor|].
    destruct op; simpl; try exact IHl.
    constructor; [|exact IHl]. simpl. rewrite (Hop _ _ eq_refl).
    apply list_elem_of_here.
  - eapply Forall_impl; [exact IH|]. simpl. intros nt Hin.
    by apply list_elem_of_further.
Qed.

Section Unselected.
Context (env : Env).

Lemma unselected_untouched wh n pre now (w w' : World) r (t : Task) :
  no_update pre →
  about_own_task pre →
  unique_ids (tasks w) →
  outcome env w (script wh n pre now (selected wh n w)) r w' →
  t ∈ tasks w →
  t ∉ selected wh n w →
  row (id t) (tasks w') = Some t
  ∧ about (id t) (new_notifications w w') = []
  ∧ (∀ ts, OpUpdate (id t) ts ∉ new_trace w w').
Proof.
  intros Hpre Hown Hu Ho Hin Hnot.
  assert (Hid : id t ∉ id <$> selected wh n w).
  { intros (t' & Heq & Hsel)%list_elem_of_fmap.
    pose proof (selected_elem _ _ _ _ Hsel) as [Hin' _].
    apply Hnot. by rewrite (unique_ids_inj _ t t' Hu Hin Hin' Heq). }
  split; [|split].
  - destruct (progress_rows env _ _ _ _ _ _ _ Hpre Hu Ho)
      as (k & _ & _ & Hrest & _).
    apply Hrest; [done|]. intros Htk. apply Hnot.
    eapply elem_of_sublist; [exact Htk | apply sublist_take].
  - destruct (outcome_sink_bus env _ _ _ _ Ho) as (done & Hpfx & _ & Hn & _).
    rewrite (new_notifications_app _ _ _ Hn). unfold about.
    apply filter_none.
    eapply Forall_impl;
      [eapply Forall_prefix;
         [apply (omap_prefix notification_of), Hpfx
         | by apply script_notifications_entities]|].
    simpl. intros nt Hnt Heq. apply Hid. by rewrite <- Heq.
  - intros ts Hts. apply Hid.
    apply outcome_prefix in Ho as [rest Hscript].
    assert (Hin' : OpUpdate (id t) ts
                   ∈ script wh n pre now (selected wh n w))
      by (rewrite Hscript; apply elem_of_app; by left).
    unfold script in Hin'.
    apply elem_of_cons in Hin' as [?|Hin']; [done|].
    by apply (update_in_iterations pre now _ _ ts).
Qed.
End Unselected.

(** A row is selected only if it matches. *)
Lemma not_matching_not_selected (wh : Where) (n : nat) (w : World) (t : Task) :
  matches wh t = false → t ∉ selected wh n w.
Proof. intros Hm Hsel. apply selected_elem in Hsel as [_ ?]. congruence. Qed.

(** X8: a run touches only the tasks it selected.  A task that the query of
    a scan did not return keeps its row, gets no notification and no stamp in
    that run, whatever calls fail; and a task that is deleted, completed,
    cancelled or has no due date is returned by neither query. *)
Theorem unselected_tasks_are_untouched (env : Env) (w : World) (t : Task) :
  unique_ids (tasks w) →
  t ∈ tasks w →
  (t ∉ newly_overdue w →
   row (id t) (tasks (detectOverdueTasks env w).2) = Some t
   ∧ about (id t) (new_notifications w (detectOverdueTasks env w).2) = []
   ∧ ∀ ts, OpUpdate (id t) ts ∉ new_trace w (detectOverdueTasks env w).2)
  ∧ (t ∉ still_overdue w →
     row (id t) (tasks (sendDailyOverdueReminders env w).2) = Some t
     ∧ about (id t)
         (new_notifications w (sendDailyOverdueReminders env w).2) = []
     ∧ ∀ ts, OpUpdate (id t) ts
             ∉ new_trace w (sendDailyOverdueReminders env w).2)
  ∧ (status t = "completed" ∨ status t = "cancelled" ∨ isDeleted t = true
     ∨ dueDate t = None →
     (t ∉ newly_overdue w) ∧ (t ∉ still_overdue w)).
Proof.
  intros Hu Hin. split; [|split]; intros Hnot.
  - destruct (detect_outcome env w) as (_ & (r & Ho) & _).
    eapply unselected_untouched; eauto using overdue_calls_no_update,
      overdue_calls_about_own_task.
  - destruct (daily_outcome env w) as (_ & (r & Ho) & _).
    eapply unselected_untouched; eauto using reminder_calls_no_update,
      reminder_calls_about_own_task.
  - assert (Hm : ∀ nf, matches {| w_isDeleted := false;
                                  w_dueDate_lt := clock w;
                                  w_status_notIn := ["completed"; "cancelled"];
                                  w_lastOverdueNotifiedAt := nf |} t = false).
    { intros nf. unfold matches. cbn [w_isDeleted w_dueDate_lt w_status_notIn
        w_lastOverdueNotifiedAt].
      destruct Hnot as [-> | [-> | [-> | ->]]].
      - rewrite bool_decide_eq_true_2 by (apply elem_of_cons; by left).
        cbn [negb]. by rewrite andb_false_r.
      - rewrite bool_decide_eq_true_2
          by (apply elem_of_cons; right; apply elem_of_cons; by left).
        cbn [negb]. by rewrite andb_false_r.
      - done.
      - by rewrite andb_false_r. }
    split; apply not_matching_not_selected; apply Hm.
Qed.

Lemma unselected_tasks_are_untouched_witness :
  row "task-d" (tasks (detectOverdueTasks quiet mixed_world).2)
  = Some done_task.
Proof.
  destruct (unselected_tasks_are_untouched quiet mixed_world done_task)
    as (Hdetect & _ & Hclosed).
  - apply (bool_decide_unpack _). vm_compute. exact I.
  - vm_compute. constructor.
  - destruct Hclosed as [Hnew _]; [left; reflexivity|].
    destruct (Hdetect Hnew) as (Hrow & _). exact Hrow.
Defined.

(** ** File names and extensions *)

Section FileNames.
Import DailyUpdates.

Lemma lower_unit_dot (c : Ascii.ascii) :
  Ascii.eqb (lower_unit c) (Ascii.ascii_of_nat 46)
  = Ascii.eqb c (Ascii.ascii_of_nat 46).
Proof. destruct c as [[] [] [] [] [] [] [] []]; reflexivity. Qed.

Lemma lower_unit_slash (c : Ascii.ascii) :
  Ascii.eqb (lower_unit c) (Ascii.ascii_of_nat 47)
  = Ascii.eqb c (Ascii.ascii_of_nat 47).
Proof. destruct c as [[] [] [] [] [] [] [] []]; reflexivity. Qed.

Lemma lower_unit_idemp (c : Ascii.ascii) :
  lower_unit (lower_unit c) = lower_unit c.
Proof. destruct c as [[] [] [] [] [] [] [] []]; reflexivity. Qed.

Lemma toLowerCase_idemp (s : string) :
  toLowerCase (toLowerCase s) = toLowerCase s.
Proof.
  induction s as [|c s IH]; [done|]. simpl. by rewrite lower_unit_idemp, IH.
Qed.

Lemma toLowerCase_list (s : string) :
  String.list_ascii_of_string (toLowerCase s)
  = lower_unit <$> String.list_ascii_of_string s.
Proof. induction s as [|c s IH]; [done|]. simpl. by rewrite IH. Qed.

Lemma toLowerCase_length (s : string) :
  String.length (toLowerCase s) = String.length s.
Proof. induction s as [|c s IH]; [done|]. simpl. by rewrite IH. Qed.

Lemma toLowerCase_substring (n m : nat) (s : string) :
  toLowerCase (String.substring n m s)
  = String.substring n m (toLowerCase s).
Proof.
  revert n m. induction s as [|c s IH]; intros n m.
  - by destruct n, m.
  - destruct n as [|n]; simpl.
    + destruct m as [|m]; [done|]. simpl. by rewrite IH.
    + apply IH.
Qed.

Lemma see_char_lower (i : Z) (c : Ascii.ascii) (st : ExtState) :
  see_char i (lower_unit c) st = see_char i c st.
Proof. unfold see_char. by rewrite lower_unit_dot. Qed.

Lemma extname_loop_lower (l : list Ascii.ascii) (i : Z) (st : ExtState) :
  extname_loop (lower_unit <$> l) i st = extname_loop l i st.
Proof.
  revert i st. induction l as [|c l IH]; intros i st; [done|].
  simpl. rewrite lower_unit_slash, see_char_lower, !IH. done.
Qed.

(** The extension of the lower-case name is the lower-case extension. *)
Lemma extname_toLowerCase (path : string) :
  extname (toLowerCase path) = toLowerCase (extname path).
Proof.
  unfold extname.
  rewrite toLowerCase_list, toLowerCase_length, <- fmap_reverse,
    extname_loop_lower.
  destruct (_ || _); [done|]. by rewrite toLowerCase_substring.
Qed.

(** The two extension lists share no entry. *)
Lemma blocked_not_allowed (ext : string) :
  has BLOCKED_EXTENSIONS ext = true → has ALLOWED_EXTENSIONS ext = false.
Proof.
  unfold has. intros Hb%bool_decide_eq_true.
  apply bool_decide_eq_false. intros Ha.
  unfold BLOCKED_EXTENSIONS in Hb.
  repeat (apply elem_of_cons in Hb as [->|Hb];
          [revert Ha; apply (bool_decide_unpack _); by vm_compute|]).
  by apply elem_of_nil in Hb.
Qed.
End FileNames.

Section Extensions.
Import DailyUpdates.

Lemma see_char_plain_before_dot (i : Z) (c : Ascii.ascii) (st : ExtState) :
  Ascii.eqb c dot = false → startDot st = (-1)%Z → end_ st ≠ (-1)%Z →
  see_char i c st = st.
Proof.
  intros Hc Hs He. unfold see_char. fold dot. rewrite Hc.
  apply Z.eqb_neq in He. rewrite He, Hs. done.
Qed.

(** Without a dot no extension starts. *)
Lemma extname_loop_no_dot (l : list Ascii.ascii) (i : Z) (st : ExtState) :
  Forall (λ c, Ascii.eqb c dot = false) l →
  startDot st = (-1)%Z →
  startDot (extname_loop l i st) = (-1)%Z.
Proof.
  intros Hl. revert i st. induction Hl as [|c l Hc _ IH]; intros i st Hs;
    [done|].
  simpl. destruct (Ascii.eqb c (Ascii.ascii_of_nat 47)).
  - destruct (negb (matchedSlash st)); [done | by apply IH].
  - apply IH. unfold see_char. fold dot. rewrite Hc.
    destruct (end_ st =? -1)%Z; simpl; by rewrite Hs.
Qed.

Lemma extname_no_dot (path : string) :
  Forall (λ c, Ascii.eqb c dot = false) (String.list_ascii_of_string path) →
  extname path = EmptyString.
Proof.
  intros Hl. unfold extname.
  rewrite (extname_loop_no_dot (reverse _)); [done | | done].
  by apply Forall_reverse.
Qed.

(** Plain characters before any dot only mark the end of the name. *)
Lemma extname_loop_plain (l rest : list Ascii.ascii) (i : Z) (st : ExtState) :
  Forall plain l → startDot st = (-1)%Z → end_ st ≠ (-1)%Z →
  extname_loop (l ++ rest) i st
  = extname_loop rest (i - Z.of_nat (length l)) st.
Proof.
  intros Hl. revert i. induction Hl as [|c l [Hd Hsl] _ IH]; intros i Hs He.
  - simpl. by rewrite Z.sub_0_r.
  - simpl extname_loop. fold slash. rewrite Hsl.
    rewrite see_char_plain_before_dot by done.
    rewrite IH by done. f_equal. simpl length. lia.
Qed.

Lemma extname_loop_plain_start (l rest : list Ascii.ascii) (i : Z) :
  Forall plain l → l ≠ [] → (0 ≤ i)%Z →
  extname_loop (l ++ rest) i ext_start
  = extname_loop rest (i - Z.of_nat (length l))
      {| startDot := -1; startPart := 0; end_ := i + 1;
         matchedSlash := false; preDotState := 0 |}.
Proof.
  intros Hl Hne Hi. destruct l as [|c l]; [done|].
  apply Forall_cons in Hl as [[Hd Hsl] Hl].
  simpl extname_loop. fold slash. rewrite Hsl.
  unfold see_char at 1. fold dot. rewrite Hd. simpl.
  rewrite extname_loop_plain by (done || simpl; lia).
  f_equal. simpl length. lia.
Qed.

(** Once a dot and a plain character before it were read, the extension
    is settled. *)
Lemma extname_loop_after_dot (l : list Ascii.ascii) (i : Z) (st : ExtState) :
  startDot st ≠ (-1)%Z → end_ st ≠ (-1)%Z → matchedSlash st = false →
  preDotState st = (-1)%Z ∨ preDotState st = 1%Z →
  startDot (extname_loop l i st) = startDot st
  ∧ end_ (extname_loop l i st) = end_ st
  ∧ (preDotState (extname_loop l i st) = (-1)%Z
     ∨ preDotState (extname_loop l i st) = 1%Z).
Proof.
  revert i st. induction l as [|c l IH]; intros i st Hs He Hm Hp; [done|].
  simpl. destruct (Ascii.eqb c (Ascii.ascii_of_nat 47)).
  - rewrite Hm. simpl. done.
  - assert (Hsee : startDot (see_char i c st) = startDot st
                   ∧ end_ (see_char i c st) = end_ st
                   ∧ matchedSlash (see_char i c st) = false
                   ∧ (preDotState (see_char i c st) = (-1)%Z
                      ∨ preDotState (see_char i c st) = 1%Z)).
    { unfold see_char. apply Z.eqb_neq in Hs, He. rewrite He, Hs. simpl.
      destruct (Ascii.eqb c (Ascii.ascii_of_nat 46)).
      - destruct (preDotState st =? 1)%Z eqn:Hp1; simpl; auto.
      - simpl. auto. }
    destruct Hsee as (Hs' & He' & Hm' & Hp').
    destruct (IH (i - 1)%Z (see_char i c st)) as (H1 & H2 & H3);
      try congruence.
    rewrite H1, H2, Hs', He'. done.
Qed.

Lemma list_ascii_of_string_app (s1 s2 : string) :
  String.list_ascii_of_string (s1 +:+ s2)
  = String.list_ascii_of_string s1 ++ String.list_ascii_of_string s2.
Proof. induction s1 as [|c s1 IH]; [done|]. simpl. by rewrite IH. Qed.

Lemma list_ascii_of_string_length (s : string) :
  length (String.list_ascii_of_string s) = String.length s.
Proof. induction s as [|c s IH]; [done|]. simpl. by rewrite IH. Qed.

Lemma substring_all (s : string) :
  String.substring 0 (String.length s) s = s.
Proof. induction s as [|c s IH]; [done|]. simpl. by rewrite IH. Qed.

Lemma substring_skip (s1 s2 : string) :
  String.substring (String.length s1) (String.length s2) (s1 +:+ s2) = s2.
Proof.
  induction s1 as [|c s1 IH]; [apply substring_all | exact IH].
Qed.

Lemma see_dot_then_plain (i0 e0 : Z) (c : Ascii.ascii) :
  plain c → i0 ≠ (-1)%Z → e0 ≠ (-1)%Z →
  see_char (i0 - 1) c
    (see_char i0 dot
       {| startDot := -1; startPart := 0; end_ := e0;
          matchedSlash := false; preDotState := 0 |})
  = {| startDot := i0; startPart := 0; end_ := e0;
       matchedSlash := false; preDotState := -1 |}.
Proof.
  intros [Hcd _] Hi He. apply Z.eqb_neq in Hi, He.
  unfold see_char. fold dot. rewrite Hcd.
  replace (Ascii.eqb dot dot) with true by reflexivity.
  simpl. rewrite He. simpl. rewrite He. simpl. by rewrite Hi.
Qed.

(** The extension of [stem ++ c ++ "." ++ e]. *)
Lemma extname_last (stem e : string) (c : Ascii.ascii) :
  plain c →
  e ≠ EmptyString →
  Forall plain (String.list_ascii_of_string e) →
  extname (stem +:+ String c (String dot e)) = String dot e.
Proof.
  intros Hc Hne He.
  set (path := stem +:+ String c (String dot e)).
  assert (Hlen : String.length path
                 = String.length stem + 2 + String.length e).
  { unfold path. rewrite <- !list_ascii_of_string_length,
      list_ascii_of_string_app. rewrite length_app. simpl. lia. }
  assert (Hpos : 0 < String.length e) by (destruct e; [done | simpl; lia]).
  assert (Hrev : reverse (String.list_ascii_of_string path)
                 = reverse (String.list_ascii_of_string e)
                   ++ dot :: c
                      :: reverse (String.list_ascii_of_string stem)).
  { unfold path. rewrite list_ascii_of_string_app. simpl.
    rewrite reverse_app, !reverse_cons, <- !app_assoc. done. }
  set (i0 := Z.of_nat (String.length stem + 1)).
  set (e0 := Z.of_nat (String.length path)).
  assert (Hloop :
    extname_loop (reverse (String.list_ascii_of_string path)) (e0 - 1)
      ext_start
    = extname_loop (reverse (String.list_ascii_of_string stem)) (i0 - 1 - 1)
        {| startDot := i0; startPart := 0; end_ := e0;
           matchedSlash := false; preDotState := -1 |}).
  { rewrite Hrev.
    rewrite extname_loop_plain_start;
      [|by apply Forall_reverse
       |intros Hnil; apply (f_equal length) in Hnil;
        rewrite length_reverse, list_ascii_of_string_length in Hnil;
        simpl in Hnil; lia
       |unfold e0; lia].
    rewrite length_reverse, list_ascii_of_string_length.
    replace (e0 - 1 - Z.of_nat (String.length e))%Z with i0
      by (unfold i0, e0; lia).
    replace (e0 - 1 + 1)%Z with e0 by lia.
    destruct Hc as [Hcd Hcs].
    simpl extname_loop. fold slash dot.
    replace (Ascii.eqb dot slash) with false by reflexivity.
    rewrite Hcs.
    rewrite see_dot_then_plain; [done | done | unfold i0; lia
                                | unfold e0; lia]. }
  destruct (extname_loop_after_dot
              (reverse (String.list_ascii_of_string stem)) (i0 - 1 - 1)
              {| startDot := i0; startPart := 0; end_ := e0;
                 matchedSlash := false; preDotState := -1 |})
    as (H1 & H2 & H3);
    [simpl; unfold i0; lia | simpl; unfold e0; lia | done | by left |].
  simpl in H1, H2.
  unfold extname. fold path. fold ext_start. fold e0. cbv zeta.
  rewrite Hloop, H1, H2.
  replace (i0 =? -1)%Z with false
    by (symmetry; apply Z.eqb_neq; unfold i0; lia).
  replace (e0 =? -1)%Z with false
    by (symmetry; apply Z.eqb_neq; unfold e0; lia).
  replace (preDotState _ =? 0)%Z with false
    by (symmetry; apply Z.eqb_neq; destruct H3 as [H3|H3]; rewrite H3; lia).
  replace (i0 =? e0 - 1)%Z with false
    by (symmetry; apply Z.eqb_neq; unfold i0, e0; lia).
  rewrite andb_false_r. simpl.
  replace (Z.to_nat i0) with (String.length (stem +:+ String c EmptyString)).
  2:{ unfold i0. rewrite Nat2Z.id, <- !list_ascii_of_string_length,
        list_ascii_of_string_app, length_app. done. }
  replace (Z.to_nat (e0 - i0)) with (String.length (String dot e))
    by (unfold i0, e0; simpl; lia).
  assert (Hp : path = (stem +:+ String c EmptyString) +:+ String dot e).
  { unfold path. clear. induction stem as [|x stem IH]; [done|].
    change (String x (stem +:+ String c (String dot e))
            = String x ((stem +:+ String c EmptyString) +:+ String dot e)).
    by rewrite IH. }
  clearbody path. subst path. apply substring_skip.
Qed.
End Extensions.

Section Validation.
Import DailyUpdates.

Lemma validateFile_accepted (this : Service) (file : File) :
  accepted (validateFile this file)
  ↔ has ALLOWED_EXTENSIONS (toLowerCase (extname (originalname file))) = true
    ∧ (size file ≤ maxFileSize this)%Z.
Proof.
  unfold accepted, validateFile.
  destruct (has BLOCKED_EXTENSIONS _) eqn:Hb.
  - apply blocked_not_allowed in Hb. rewrite Hb.
    split; [done | by intros [? _]].
  - destruct (has ALLOWED_EXTENSIONS _); simpl.
    + destruct (Z.ltb_spec (maxFileSize this) (size file)).
      * split; [done | intros [_ ?]; lia].
      * split; [intros _; split; [done | lia] | done].
    + split; [done | by intros [? _]].
Qed.

(** X9: [validateFile] returns normally exactly when the lower-case
    extension of the original name is one of [ALLOWED_EXTENSIONS] and the
    size is at most [maxFileSize]; the list of blocked extensions changes
    the message of a rejection, never the decision. *)
Theorem validateFile_accepts_iff_allowed_and_small (this : Service)
    (file : File) :
  validateFile this file = inl tt
  ↔ toLowerCase (extname (originalname file)) ∈ ALLOWED_EXTENSIONS
    ∧ (size file ≤ maxFileSize this)%Z.
Proof.
  rewrite <- (bool_decide_eq_true (_ ∈ _)). apply validateFile_accepted.
Qed.

(** X10: two files whose names differ only in the case of their letters,
    and that have the same size, get the same answer from [validateFile]. *)
Theorem validateFile_ignores_case (this : Service) (f1 f2 : File) :
  toLowerCase (originalname f1) = toLowerCase (originalname f2) →
  size f1 = size f2 →
  (validateFile this f1 = inl tt ↔ validateFile this f2 = inl tt).
Proof.
  intros Hname Hsize.
  pose proof (validateFile_accepted this f1) as H1.
  pose proof (validateFile_accepted this f2) as H2.
  unfold accepted in *. rewrite H1, H2.
  by rewrite <- !extname_toLowerCase, Hname, Hsize.
Qed.

Lemma validateFile_ignores_case_witness :
  validateFile (new_Service 25)
    {| originalname := "REPORT.PDF"; mimetype := "application/pdf";
       size := 10 |} = inl tt
  ↔ validateFile (new_Service 25)
      {| originalname := "report.pdf"; mimetype := "application/pdf";
         size := 10 |} = inl tt.
Proof.
  apply (validateFile_ignores_case (new_Service 25)).
  - vm_compute. reflexivity.
  - reflexivity.
Defined.

(** X11: only the last extension of a name counts.  For a name that ends in
    a dot and an extension without dot or slash, after a character that is
    neither, [validateFile] answers as for the extension alone, whatever
    precedes it: a name ending in [.exe.pdf] passes as a PDF. *)
Theorem validateFile_last_extension_decides (this : Service)
    (stem e : string) (c : Ascii.ascii) (mime : string) (sz : Z) :
  plain c →
  e ≠ EmptyString →
  Forall plain (String.list_ascii_of_string e) →
  validateFile this
    {| originalname := stem +:+ String c (String dot e); mimetype := mime;
       size := sz |} = inl tt
  ↔ String dot (toLowerCase e) ∈ ALLOWED_EXTENSIONS
    ∧ (sz ≤ maxFileSize this)%Z.
Proof.
  intros Hc Hne He.
  pose proof (validateFile_accepted this
                {| originalname := stem +:+ String c (String dot e);
                   mimetype := mime; size := sz |}) as Hacc.
  unfold accepted in Hacc. rewrite Hacc. simpl.
  rewrite extname_last by done. unfold has.
  by rewrite bool_decide_eq_true.
Qed.

Lemma validateFile_last_extension_decides_witness :
  validateFile (new_Service 25)
    {| originalname := "setup.exe.pdf"; mimetype := "application/pdf";
       size := 10 |} = inl tt
  ↔ ".pdf" ∈ ALLOWED_EXTENSIONS ∧ (10 ≤ maxFileSize (new_Service 25))%Z.
Proof.
  apply (validateFile_last_extension_decides (new_Service 25) "setup.ex"
           "pdf" (Ascii.ascii_of_nat 101)).
  - split; reflexivity.
  - discriminate.
  - repeat constructor.
Defined.

(** X12: a name without a dot has the empty extension and is rejected as an
    unsupported type, with the list of the supported extensions in the
    message. *)
Theorem validateFile_rejects_name_without_dot (this : Service) (file : File) :
  Forall (λ c, c ≠ dot) (String.list_ascii_of_string (originalname file)) →
  validateFile this file
  = inr (BadRequestException
           ("نوع الملف غير مدعوم: " +:+ EmptyString
            +:+ ". الأنواع المدعومة: " +:+ join ", " ALLOWED_EXTENSIONS)).
Proof.
  intros Hno. unfold validateFile. rewrite extname_no_dot; [done|].
  eapply Forall_impl; [exact Hno|]. simpl. intros c Hc.
  by apply Ascii.eqb_neq.
Qed.

Lemma validateFile_rejects_name_without_dot_witness :
  validateFile (new_Service 25)
    {| originalname := "Makefile"; mimetype := "text/plain"; size := 10 |}
  ≠ inl tt.
Proof.
  rewrite (validateFile_rejects_name_without_dot (new_Service 25)).
  - discriminate.
  - repeat constructor; discriminate.
Defined.
End Validation.

(** ** The daily-updates service: loops and uploads *)

Section DailyUpdatesService.
Context (join : string → string → string).
Context (fs_fault : DU.FsCall → DU.Store → option string).
Implicit Types (s : DU.Store) (this : DailyUpdates.Service).
Implicit Types (storage : DU.StorageService) (l : list DU.MulterFile).

Lemma du_bind_unfold {A B} (m : DU.M A) (k : A → DU.M B) s :
  (m ≫= k) s =
  match m s with
  | (inl a, s1) => k a s1
  | (inr e, s1) => (inr e, s1)
  end.
Proof. reflexivity. Qed.

Lemma for_of_validate this l s :
  DU.for_of l (DU.validate this) s =
  (match first_invalid this l with
   | None => inl tt
   | Some msg => inr (DU.BadRequest msg)
   end, s).
Proof.
  induction l as [|f l IH]; [done|].
  cbn [DU.for_of first_invalid]. rewrite du_bind_unfold. unfold DU.validate at 1.
  destruct (DailyUpdates.validateFile this (DU.file f)) as [[]|[msg]]; [|done].
  exact IH.
Qed.

Lemma first_invalid_None this l :
  first_invalid this l = None ↔
  Forall (λ f, DailyUpdates.validateFile this (DU.file f) = inl tt) l.
Proof.
  induction l as [|f l IH]; simpl.
  - split; [constructor|done].
  - destruct (DailyUpdates.validateFile this (DU.file f)) as [[]|[msg]] eqn:E.
    + rewrite IH. split; [by constructor|]. by inversion 1.
    + split; [done|]. inversion 1; congruence.
Qed.


Lemma first_invalid_Some this l :
  first_invalid this l ≠ None ↔
  Exists (λ f, DailyUpdates.validateFile this (DU.file f) ≠ inl tt) l.
Proof.
  induction l as [|f l IH]; simpl.
  - split; [done|by inversion 1].
  - destruct (DailyUpdates.validateFile this (DU.file f)) as [[]|[msg]] eqn:E.
    + rewrite IH. split; [by right|]. by inversion 1.
    + split; [|done]. intros _. left. by rewrite E.
Qed.

Lemma copyFileSync_result (src dest : string) s :
  DU.copyFileSync fs_fault src dest s =
  match fs_fault (DU.CopyFileSync src dest) s with
  | Some msg => (inr (DU.Error msg), s)
  | None =>
      match DU.files s !! src with
      | None =>
          (inr (DU.Error ("ENOENT: no such file or directory, copyfile '"
                          +:+ src +:+ "' -> '" +:+ dest +:+ "'")), s)
      | Some bytes =>
          (inl tt, DU.set_files (<[dest := bytes]> (DU.files s)) s)
      end
  end.
Proof.
  unfold DU.copyFileSync. rewrite du_bind_unfold.
  unfold DU.gets at 1. cbv beta iota.
  destruct (fs_fault _ s); [done|]. rewrite du_bind_unfold.
  unfold DU.gets at 1. cbv beta iota. by destruct (DU.files s !! src).
Qed.

Lemma writeFileSync_result (dest bytes : string) s :
  DU.writeFileSync fs_fault dest bytes s =
  match fs_fault (DU.WriteFileSync dest) s with
  | Some msg => (inr (DU.Error msg), s)
  | None => (inl tt, DU.set_files (<[dest := bytes]> (DU.files s)) s)
  end.
Proof.
  unfold DU.writeFileSync. rewrite du_bind_unfold.
  unfold DU.gets at 1. cbv beta iota. by destruct (fs_fault _ s).
Qed.

Lemma unlinkSync_result (p : string) s :
  DU.unlinkSync fs_fault p s =
  match fs_fault (DU.UnlinkSync p) s with
  | Some msg => (inr (DU.Error msg), s)
  | None =>
      match DU.files s !! p with
      | None =>
          (inr (DU.Error ("ENOENT: no such file or directory, unlink '"
                          +:+ p +:+ "'")), s)
      | Some _ => (inl tt, DU.set_files (delete p (DU.files s)) s)
      end
  end.
Proof.
  unfold DU.unlinkSync. rewrite du_bind_unfold.
  unfold DU.gets at 1. cbv beta iota.
  destruct (fs_fault _ s); [done|]. rewrite du_bind_unfold.
  unfold DU.gets at 1. cbv beta iota. by destruct (DU.files s !! p).
Qed.

(** What [uploadToLocal] leaves behind, and how it fails. *)
Lemma uploadToLocal_spec storage (f : DU.MulterFile) (name : string) s :
  let target := join (DU.uploadDir storage) name in
  match DU.uploadToLocal join fs_fault storage f name s with
  | (inl stored, s') =>
      stored = {| DU.sf_storedName := name; DU.sf_storagePath := target;
                  DU.sf_storageProvider := "LOCAL" |}
      ∧ DU.updates s' = DU.updates s
      ∧ DU.attachments s' = DU.attachments s
      ∧ DU.reads s' = DU.reads s
      ∧ DU.generated s' = DU.generated s
      ∧ DU.now s' = DU.now s
      ∧ DU.warnings s' = DU.warnings s
      ∧ match DU.truthy_string (DU.path f) with
        | Some p =>
            ∃ bytes, DU.files s !! p = Some bytes
              ∧ (DU.files s' = delete p (<[target := bytes]> (DU.files s))
                 ∨ (DU.files s' = <[target := bytes]> (DU.files s)
                    ∧ ∃ s0, fs_fault (DU.UnlinkSync p) s0 ≠ None))
        | None =>
            match DU.buffer f with
            | Some bytes => DU.files s' = <[target := bytes]> (DU.files s)
            | None => DU.files s' = DU.files s
            end
        end
  | (inr e, s') =>
      (∃ msg, e = DU.Error msg)
      ∧ s' = s
      ∧ match DU.truthy_string (DU.path f) with
        | Some p =>
            DU.files s !! p = None
            ∨ ∃ s0, fs_fault (DU.CopyFileSync p target) s0 ≠ None
        | None =>
            ∃ bytes, DU.buffer f = Some bytes
              ∧ ∃ s0, fs_fault (DU.WriteFileSync target) s0 ≠ None
        end
  end.
Proof.
  intros target. unfold DU.uploadToLocal. fold target.
  rewrite du_bind_unfold.
  destruct (DU.truthy_string (DU.path f)) as [p|] eqn:Hp.
  - rewrite du_bind_unfold, copyFileSync_result.
    destruct (fs_fault (DU.CopyFileSync p target) s) as [msg|] eqn:Hcopy.
    { split; [by eexists|]. split; [done|]. right. exists s. by rewrite Hcopy. }
    destruct (DU.files s !! p) as [bytes|] eqn:Hsrc; cycle 1.
    { split; [by eexists|]. split; [done|]. by left. }
    set (s1 := DU.set_files _ s). unfold DU.try_catch.
    rewrite unlinkSync_result.
    destruct (fs_fault (DU.UnlinkSync p) s1) as [msg|] eqn:Hunlink.
    { cbn. repeat (split; [done|]). exists bytes. split; [done|].
      right. split; [done|]. exists s1. by rewrite Hunlink. }
    assert (Hthere : is_Some (DU.files s1 !! p)).
    { unfold s1. cbn [DU.files DU.set_files].
      destruct (decide (target = p)) as [->|Hne].
      - rewrite lookup_insert_eq. by eexists.
      - rewrite lookup_insert_ne by done. by eexists. }
    destruct Hthere as [x Hx]. rewrite Hx.
    cbn. repeat (split; [done|]). exists bytes. split; [done|]. by left.
  - destruct (DU.buffer f) as [bytes|] eqn:Hbuf.
    + rewrite writeFileSync_result.
      destruct (fs_fault (DU.WriteFileSync target) s) as [msg|] eqn:Hwrite.
      * split; [by eexists|]. split; [done|]. exists bytes. split; [done|].
        exists s. by rewrite Hwrite.
      * cbn. by repeat (split; [done|]).
    + cbn. by repeat (split; [done|]).
Qed.

(** What [upload] leaves behind: the name it generates, the file it moves,
    and how it fails. *)
Lemma upload_spec storage (f : DU.MulterFile) s :
  let name := ("uuid-" +:+ pretty (DU.generated s))
              +:+ DailyUpdates.toLowerCase
                    (DailyUpdates.extname
                       (DailyUpdates.originalname (DU.file f))) in
  let target := join (DU.uploadDir storage) name in
  match DU.upload join fs_fault storage f s with
  | (inl stored, s') =>
      stored = {| DU.sf_storedName := name; DU.sf_storagePath := target;
                  DU.sf_storageProvider := "LOCAL" |}
      ∧ DU.updates s' = DU.updates s
      ∧ DU.attachments s' = DU.attachments s
      ∧ DU.reads s' = DU.reads s
      ∧ DU.generated s' = S (DU.generated s)
      ∧ DU.now s' = DU.now s
      ∧ match DU.truthy_string (DU.path f) with
        | Some p =>
            ∃ bytes, DU.files s !! p = Some bytes
              ∧ (DU.files s' = delete p (<[target := bytes]> (DU.files s))
                 ∨ (DU.files s' = <[target := bytes]> (DU.files s)
                    ∧ ∃ s0, fs_fault (DU.UnlinkSync p) s0 ≠ None))
        | None =>
            match DU.buffer f with
            | Some bytes => DU.files s' = <[target := bytes]> (DU.files s)
            | None => DU.files s' = DU.files s
            end
        end
  | (inr e, s') =>
      (∃ msg, e = DU.Error msg)
      ∧ DU.updates s' = DU.updates s
      ∧ DU.attachments s' = DU.attachments s
      ∧ DU.reads s' = DU.reads s
      ∧ DU.now s' = DU.now s
      ∧ DU.files s' = DU.files s
      ∧ match DU.truthy_string (DU.path f) with
        | Some p =>
            DU.files s !! p = None
            ∨ ∃ s0, fs_fault (DU.CopyFileSync p target) s0 ≠ None
        | None =>
            ∃ bytes, DU.buffer f = Some bytes
              ∧ ∃ s0, fs_fault (DU.WriteFileSync target) s0 ≠ None
        end
  end.
Proof.
  intros name target. unfold DU.upload.
  rewrite du_bind_unfold. unfold DU.generate at 1. cbv beta iota.
  fold name.
  assert (Hfrom : ∀ s0,
    DU.updates s0 = DU.updates s → DU.attachments s0 = DU.attachments s →
    DU.reads s0 = DU.reads s → DU.generated s0 = S (DU.generated s) →
    DU.now s0 = DU.now s → DU.files s0 = DU.files s →
    match DU.uploadToLocal join fs_fault storage f name s0 with
    | (inl stored, s') =>
        {| DU.sf_storedName := DU.sf_storedName stored;
           DU.sf_storagePath := DU.sf_storagePath stored;
           DU.sf_storageProvider := "LOCAL" |} = stored
        ∧ stored = {| DU.sf_storedName := name; DU.sf_storagePath := target;
                      DU.sf_storageProvider := "LOCAL" |}
        ∧ DU.updates s' = DU.updates s
        ∧ DU.attachments s' = DU.attachments s
        ∧ DU.reads s' = DU.reads s
        ∧ DU.generated s' = S (DU.generated s)
        ∧ DU.now s' = DU.now s
        ∧ match DU.truthy_string (DU.path f) with
          | Some p =>
              ∃ bytes, DU.files s !! p = Some bytes
                ∧ (DU.files s' = delete p (<[target := bytes]> (DU.files s))
                   ∨ (DU.files s' = <[target := bytes]> (DU.files s)
                      ∧ ∃ s0, fs_fault (DU.UnlinkSync p) s0 ≠ None))
          | None =>
              match DU.buffer f with
              | Some bytes => DU.files s' = <[target := bytes]> (DU.files s)
              | None => DU.files s' = DU.files s
              end
          end
    | (inr e, s') =>
        (∃ msg, e = DU.Error msg)
        ∧ DU.updates s' = DU.updates s
        ∧ DU.attachments s' = DU.attachments s
        ∧ DU.reads s' = DU.reads s
        ∧ DU.now s' = DU.now s
        ∧ DU.files s' = DU.files s
        ∧ match DU.truthy_string (DU.path f) with
          | Some p =>
              DU.files s !! p = None
              ∨ ∃ s0, fs_fault (DU.CopyFileSync p target) s0 ≠ None
          | None =>
              ∃ bytes, DU.buffer f = Some bytes
                ∧ ∃ s0, fs_fault (DU.WriteFileSync target) s0 ≠ None
          end
    end).
  { intros s0 Hu Ha Hr Hg Hn Hf.
    pose proof (uploadToLocal_spec storage f name s0) as Hl.
    cbv zeta in Hl. fold target in Hl.
    destruct (DU.uploadToLocal join fs_fault storage f name s0)
      as [[stored|e] s'].
    - destruct Hl as (-> & Hu' & Ha' & Hr' & Hg' & Hn' & _ & Hfiles).
      rewrite Hf in Hfiles.
      split; [done|]. split; [done|].
      split; [congruence|]. split; [congruence|]. split; [congruence|].
      split; [congruence|]. split; [congruence|]. exact Hfiles.
    - destruct Hl as (He & -> & Hcause). rewrite Hf in Hcause.
      by repeat (split; [done|]). }
  destruct (decide (DU.provider storage = "S3")) as [Hs3|Hs3].
  - unfold DU.uploadToS3. rewrite du_bind_unfold.
    unfold DU.modify at 1. cbv beta iota. rewrite du_bind_unfold.
    specialize (Hfrom (DU.add_warning
      "S3 not fully configured — falling back to local storage"
      (DU.next_generated s)) eq_refl eq_refl eq_refl eq_refl eq_refl eq_refl).
    destruct (DU.uploadToLocal join fs_fault storage f name _)
      as [[stored|e] s'].
    + destruct Hfrom as (Heta & Hrest). unfold mret, DU.M_ret.
      rewrite Heta. exact Hrest.
    + exact Hfrom.
  - specialize (Hfrom (DU.next_generated s)
                  eq_refl eq_refl eq_refl eq_refl eq_refl eq_refl).
    destruct (DU.uploadToLocal join fs_fault storage f name _)
      as [[stored|e] s'].
    + by destruct Hfrom as (_ & Hrest).
    + exact Hfrom.
Qed.

Lemma store_file_spec storage (i who : string) (f : DU.MulterFile) s :
  match DU.store_file join fs_fault storage i who f s with
  | (inl a, s') =>
      a = stored_attachment join storage i who (DU.generated s) f
      ∧ DU.updates s' = DU.updates s
      ∧ DU.attachments s' = DU.attachments s ++ [a]
      ∧ DU.reads s' = DU.reads s
      ∧ DU.generated s' = S (S (DU.generated s))
      ∧ DU.now s' = DU.now s
  | (inr e, s') =>
      (∃ msg, e = DU.Error msg)
      ∧ DU.updates s' = DU.updates s
      ∧ DU.attachments s' = DU.attachments s
      ∧ DU.reads s' = DU.reads s
      ∧ DU.now s' = DU.now s
  end.
Proof.
  unfold DU.store_file. rewrite du_bind_unfold.
  pose proof (upload_spec storage f s) as Hup. cbv zeta in Hup.
  destruct (DU.upload join fs_fault storage f s) as [[stored|e] s1].
  - destruct Hup as (-> & Hu & Ha & Hr & Hg & Hn & _).
    unfold DU.attachment_create. rewrite du_bind_unfold.
    unfold DU.generate at 1. cbv beta iota. rewrite Hg.
    rewrite du_bind_unfold. unfold DU.modify at 1. cbv beta iota.
    unfold mret, DU.M_ret, stored_attachment.
    cbn [DU.updates DU.attachments DU.reads DU.generated DU.now
         DU.set_attachments DU.next_generated DU.sf_storedName
         DU.sf_storagePath DU.sf_storageProvider].
    rewrite Hu, Ha, Hr, Hn, Hg. by repeat split.
  - destruct Hup as (? & ? & ? & ? & ? & _). by repeat (split; [done|]).
Qed.

Lemma collect_store_spec storage (i who : string) l s :
  match DU.collect l (DU.store_file join fs_fault storage i who) s with
  | (inl rows, s') =>
      rows = stored_attachments join storage i who (DU.generated s) l
      ∧ DU.updates s' = DU.updates s
      ∧ DU.attachments s' = DU.attachments s ++ rows
      ∧ DU.reads s' = DU.reads s
      ∧ DU.now s' = DU.now s
  | (inr e, s') =>
      (∃ msg, e = DU.Error msg)
      ∧ DU.updates s' = DU.updates s
      ∧ DU.reads s' = DU.reads s
      ∧ DU.now s' = DU.now s
      ∧ ∃ k, k < length l
             ∧ DU.attachments s' =
               DU.attachments s
               ++ take k (stored_attachments join storage i who
                            (DU.generated s) l)
  end.
Proof.
  revert s. induction l as [|f l IH]; intros s.
  - cbn. rewrite app_nil_r. by repeat split.
  - cbn [DU.collect stored_attachments]. rewrite du_bind_unfold.
    pose proof (store_file_spec storage i who f s) as Hf.
    destruct (DU.store_file join fs_fault storage i who f s) as [[a|e] s1].
    + destruct Hf as (-> & Hu & Ha & Hr & Hg & Hn).
      rewrite du_bind_unfold. specialize (IH s1). rewrite Hg in IH.
      destruct (DU.collect l (DU.store_file join fs_fault storage i who) s1)
        as [[rows|e] s2].
      * destruct IH as (-> & Hu2 & Ha2 & Hr2 & Hn2).
        cbn. rewrite Hu2, Ha2, Hr2, Hn2, Ha, <- app_assoc.
        by repeat split.
      * destruct IH as (He & Hu2 & Hr2 & Hn2 & k & Hk & Ha2).
        repeat split; try congruence.
        exists (S k). split; [simpl; lia|].
        rewrite Ha2, Ha, <- app_assoc. done.
    + destruct Hf as (He & Hu & Ha & Hr & Hn).
      repeat split; try done.
      exists 0. split; [simpl; lia|]. by rewrite app_nil_r.
Qed.

Lemma collect_fmap {A B C} (g : B → C) (body : A → DU.M B) (l : list A) s :
  DU.collect l (λ x, y ← body x; mret (g y)) s =
  match DU.collect l body s with
  | (inl ys, s') => (inl (g <$> ys), s')
  | (inr e, s') => (inr e, s')
  end.
Proof.
  revert s. induction l as [|x l IH]; intros s; [done|].
  cbn [DU.collect]. rewrite !du_bind_unfold.
  destruct (body x s) as [[y|e] s1]; [|done].
  cbn. rewrite !du_bind_unfold. rewrite IH.
  by destruct (DU.collect l body s1) as [[ys|e] s2].
Qed.

Lemma for_of_collect {A B} (body : A → DU.M B) (l : list A) s :
  DU.for_of l (λ x, body x ;; mret tt) s =
  match DU.collect l body s with
  | (inl _, s') => (inl tt, s')
  | (inr e, s') => (inr e, s')
  end.
Proof.
  revert s. induction l as [|x l IH]; intros s; [done|].
  cbn [DU.for_of DU.collect]. rewrite !du_bind_unfold.
  destruct (body x s) as [[y|e] s1]; [|done].
  cbn. rewrite !du_bind_unfold. rewrite IH.
  by destruct (DU.collect l body s1) as [[ys|e] s2].
Qed.

Lemma stored_attachments_length storage (i who : string) n l :
  length (stored_attachments join storage i who n l) = length l.
Proof. revert n. induction l; intros n; simpl; by rewrite ?IHl. Qed.

Lemma stored_attachments_holds storage (i who : string) n l :
  Forall2 holds (stored_attachments join storage i who n l) l.
Proof.
  revert n. induction l; intros n; simpl; constructor; [by repeat split|done].
Qed.

Lemma stored_attachments_updateId storage (i who : string) n l :
  Forall (λ a, DU.att_updateId a = i)
    (stored_attachments join storage i who n l).
Proof. revert n. induction l; intros n; simpl; by constructor. Qed.

Lemma holds_shows (rows : list DU.Attachment) l :
  Forall2 holds rows l → Forall2 shows (DU.view <$> rows) l.
Proof. induction 1; simpl; constructor; done. Qed.
End DailyUpdatesService.

(** ** Looking up an update *)

Section Lookup.
Implicit Types (s : DU.Store) (u : DU.DailyUpdate) (i : string).

Lemma find_update_Some i s u :
  DU.find_update i s = Some u → u ∈ DU.updates s ∧ DU.id u = i.
Proof.
  unfold DU.find_update. intros H.
  destruct (list_find _ _) as [[k u']|] eqn:E; [|done].
  injection H as <-. apply list_find_Some in E as (Hk & Hi & _).
  split; [by eapply list_elem_of_lookup_2|done].
Qed.

Lemma find_update_None i s :
  DU.find_update i s = None ↔ i ∉ DU.id <$> DU.updates s.
Proof.
  unfold DU.find_update. rewrite fmap_None, list_find_None, Forall_forall.
  rewrite list_elem_of_fmap. split.
  - intros H (u & -> & Hin). by apply (H u).
  - intros H u Hin Hi. apply H. by exists u.
Qed.

Lemma find_update_is_Some i s :
  is_Some (DU.find_update i s) ↔ i ∈ DU.id <$> DU.updates s.
Proof.
  rewrite <- not_eq_None_Some, find_update_None.
  split; [|tauto]. intros H. by destruct (decide (i ∈ DU.id <$> DU.updates s)).
Qed.

Lemma find_update_unique s u :
  unique_update_ids s → u ∈ DU.updates s → DU.find_update (DU.id u) s = Some u.
Proof.
  unfold unique_update_ids. intros Hnd Hin.
  destruct (DU.find_update (DU.id u) s) as [u'|] eqn:E.
  - apply find_update_Some in E as [Hin' Hid]. f_equal.
    apply list_elem_of_lookup in Hin as [k Hk].
    apply list_elem_of_lookup in Hin' as [k' Hk'].
    assert (k' = k) as ->.
    { eapply NoDup_lookup; [exact Hnd| |].
      - rewrite list_lookup_fmap, Hk'. simpl. by rewrite Hid.
      - by rewrite list_lookup_fmap, Hk. }
    congruence.
  - apply find_update_None in E. destruct E.
    apply list_elem_of_fmap. by exists u.
Qed.

(** Rewriting the rows with a function that keeps their keys. *)
Lemma find_update_fmap (g : DU.DailyUpdate → DU.DailyUpdate) i s :
  (∀ u, DU.id (g u) = DU.id u) →
  DU.find_update i (DU.set_updates (g <$> DU.updates s) s)
  = g <$> DU.find_update i s.
Proof.
  intros Hg. unfold DU.find_update. cbn [DU.updates DU.set_updates].
  induction (DU.updates s) as [|u us IH]; [done|].
  cbn [fmap list_fmap list_find]. rewrite Hg.
  destruct (decide (DU.id u = i)); [done|].
  rewrite <- !option_fmap_compose in *. 
  destruct (list_find _ (g <$> us)) as [[k x]|], (list_find _ us) as [[k' x']|];
    simpl in *; congruence.
Qed.
End Lookup.

(** ** Creating an update *)

Section Create.
Context (join : string → string → string).
Context (fs_fault : DU.FsCall → DU.Store → option string).
Implicit Types (s : DU.Store) (this : DailyUpdates.Service).
Implicit Types (storage : DU.StorageService) (l : list DU.MulterFile).
Implicit Types (fs : option (list DU.MulterFile)).

Lemma create_checked this storage d dto (author : string) fs s :
  length (default [] fs) ≤ DailyUpdates.maxFilesPerUpdate this →
  first_invalid this (default [] fs) = None →
  DU.create join fs_fault this storage d dto author fs s =
  let i := "upd-" +:+ pretty (DU.generated s) in
  let s1 := DU.set_updates (DU.updates s ++ [DU.new_row d i dto author])
              (DU.next_generated s) in
  match DU.collect (default [] fs) (DU.store_file join fs_fault storage i author) s1
  with
  | (inl _, s2) => DU.findById i s2
  | (inr e, s2) => (inr e, s2)
  end.
Proof.
  intros Hlen Hval. unfold DU.create. cbv zeta.
  assert (Hpre :
    (match fs with
     | Some l =>
         if (DailyUpdates.maxFilesPerUpdate this <? length l)%nat
         then DU.throw (DU.BadRequest
                ("الحد الأقصى " +:+ pretty (DailyUpdates.maxFilesPerUpdate this)
                 +:+ " ملفات لكل تحديث"))
         else mret tt
     | None => mret tt
     end) s = (inl tt, s)).
  { destruct fs as [l|]; [|done]. simpl in Hlen.
    by destruct (Nat.ltb_spec (DailyUpdates.maxFilesPerUpdate this) (length l));
      [lia|]. }
  rewrite du_bind_unfold, Hpre. rewrite du_bind_unfold.
  assert (Hv : (match fs with
                | Some l => DU.for_of l (DU.validate this)
                | None => mret tt
                end) s = (inl tt, s)).
  { destruct fs as [l|]; [|done]. simpl in Hval.
    by rewrite for_of_validate, Hval. }
  rewrite Hv. rewrite du_bind_unfold.
  unfold DU.dailyUpdate_create at 1. rewrite du_bind_unfold.
  unfold DU.generate at 1. cbv beta iota. rewrite du_bind_unfold.
  unfold DU.modify at 1. cbv beta iota.
  unfold mret at 1, DU.M_ret at 1. cbv beta iota.
  change (DU.updates (DU.next_generated s)) with (DU.updates s).
  change (DU.id (DU.new_row d ("upd-" +:+ pretty (DU.generated s)) dto author))
    with ("upd-" +:+ pretty (DU.generated s)).
  rewrite du_bind_unfold.
  set (s1 := DU.set_updates _ _). set (i := "upd-" +:+ _).
  destruct fs as [l|]; simpl default.
  - destruct l as [|f l]; [done|].
    change (0 <? length (f :: l))%nat with true. cbv iota.
    rewrite for_of_collect.
    by destruct (DU.collect (f :: l) (DU.store_file join fs_fault storage i author) s1)
      as [[rows|e] s2].
  - done.
Qed.

Lemma create_unchecked this storage d dto (author : string) fs s :
  DailyUpdates.maxFilesPerUpdate this < length (default [] fs)
  ∨ first_invalid this (default [] fs) ≠ None →
  ∃ msg, DU.create join fs_fault this storage d dto author fs s
         = (inr (DU.BadRequest msg), s).
Proof.
  intros Hbad. unfold DU.create. destruct fs as [l|]; simpl in Hbad.
  - rewrite du_bind_unfold.
    destruct (Nat.ltb_spec (DailyUpdates.maxFilesPerUpdate this) (length l)).
    + by eexists.
    + unfold mret at 1, DU.M_ret at 1. cbv beta iota.
      rewrite du_bind_unfold, for_of_validate.
      destruct (first_invalid this l) as [msg|]; [by eexists|].
      destruct Hbad; [lia|done].
  - destruct Hbad; [lia|done].
Qed.

Lemma findById_result (i : string) s :
  DU.findById i s =
  (match DU.find_update i s with
   | Some u => if DU.isDeleted u then inr DU.not_found_update
               else inl (u, DU.fileAttachments i s)
   | None => inr DU.not_found_update
   end, s).
Proof.
  unfold DU.findById. rewrite du_bind_unfold.
  unfold DU.dailyUpdate_findUnique, DU.gets at 1. cbv beta iota.
  destruct (DU.find_update i s) as [u|]; [|done].
  by destruct (DU.isDeleted u).
Qed.

Lemma first_invalid_dec this l :
  first_invalid this l = None ∨ first_invalid this l ≠ None.
Proof. destruct (first_invalid this l); [by right|by left]. Qed.

(** X13: [create] answers with BadRequest exactly when more files than
    [maxFilesPerUpdate] are submitted or one of them fails [validateFile],
    and in that case nothing has been written: no update row, no attachment,
    no file moved, no identifier consumed. *)
Theorem create_rejects_before_writing this storage d dto (author : string)
    fs s :
  ((∃ msg, (DU.create join fs_fault this storage d dto author fs s).1
           = inr (DU.BadRequest msg))
   ↔ ∃ l, fs = Some l
          ∧ (DailyUpdates.maxFilesPerUpdate this < length l
             ∨ Exists (λ f, DailyUpdates.validateFile this (DU.file f)
                            ≠ inl tt) l))
  ∧ (∀ msg, (DU.create join fs_fault this storage d dto author fs s).1
            = inr (DU.BadRequest msg) →
            (DU.create join fs_fault this storage d dto author fs s).2 = s).
Proof.
  assert (Hcases :
    (DailyUpdates.maxFilesPerUpdate this < length (default [] fs)
     ∨ first_invalid this (default [] fs) ≠ None)
    ∨ (length (default [] fs) ≤ DailyUpdates.maxFilesPerUpdate this
       ∧ first_invalid this (default [] fs) = None)).
  { destruct (first_invalid_dec this (default [] fs)); [|by left; right].
    destruct (Nat.lt_ge_cases (DailyUpdates.maxFilesPerUpdate this)
                (length (default [] fs))); [by left; left|by right]. }
  assert (Hok :
    length (default [] fs) ≤ DailyUpdates.maxFilesPerUpdate this →
    first_invalid this (default [] fs) = None →
    ∀ msg, (DU.create join fs_fault this storage d dto author fs s).1
           ≠ inr (DU.BadRequest msg)).
  { intros Hlen Hval msg. rewrite (create_checked _ _ _ _ _ _ _ Hlen Hval).
    cbv zeta. set (i := "upd-" +:+ _). set (s1 := DU.set_updates _ _).
    pose proof (collect_store_spec join fs_fault storage i author (default [] fs) s1)
      as Hc.
    destruct (DU.collect _ _ s1) as [[rows|e] s2].
    - rewrite findById_result. simpl.
      destruct (DU.find_update i s2) as [u|]; [|done].
      by destruct (DU.isDeleted u).
    - destruct Hc as [[m ->] _]. done. }
  split.
  - split.
    + intros [msg Hmsg]. destruct Hcases as [Hbad|[Hlen Hval]].
      * destruct fs as [l|]; simpl in Hbad.
        -- exists l. split; [done|]. destruct Hbad as [?|Hbad]; [by left|].
           right. by apply first_invalid_Some.
        -- destruct Hbad; [lia|done].
      * by destruct (Hok Hlen Hval msg).
    + intros (l & -> & Hbad).
      destruct (create_unchecked this storage d dto author (Some l) s)
        as [msg Hmsg].
      { simpl. destruct Hbad as [?|Hbad]; [by left|].
        right. by apply first_invalid_Some. }
      exists msg. by rewrite Hmsg.
  - intros msg Hmsg. destruct Hcases as [Hbad|[Hlen Hval]].
    + destruct (create_unchecked this storage d dto author fs s Hbad)
        as [msg' Hmsg'].
      by rewrite Hmsg'.
    + by destruct (Hok Hlen Hval msg).
Qed.
End Create.

Section Created.
Context (join : string → string → string).
Context (fs_fault : DU.FsCall → DU.Store → option string).
Implicit Types (s : DU.Store) (this : DailyUpdates.Service).
Implicit Types (storage : DU.StorageService) (l : list DU.MulterFile).
Implicit Types (fs : option (list DU.MulterFile)).

Lemma find_update_new (i : string) s (us : list DU.DailyUpdate)
    (row : DU.DailyUpdate) :
  DU.updates s = us ++ [row] → DU.id row = i → i ∉ DU.id <$> us →
  DU.find_update i s = Some row.
Proof.
  intros Hu Hrow Hfresh. unfold DU.find_update. rewrite Hu. clear Hu.
  induction us as [|u us IH].
  - simpl. by rewrite decide_True.
  - simpl in *. apply not_elem_of_cons in Hfresh as [Hne Hfresh].
    rewrite decide_False by done. specialize (IH Hfresh).
    destruct (list_find _ (us ++ [row])) as [[k x]|]; simpl in *; congruence.
Qed.

Lemma attachments_of_new (i : string) s (old rows : list DU.Attachment) :
  DU.attachments s = old ++ rows →
  i ∉ DU.att_updateId <$> old →
  Forall (λ a, DU.att_updateId a = i) rows →
  DU.attachments_of i s = rows.
Proof.
  intros Ha Hfresh Hrows. unfold DU.attachments_of. rewrite Ha, filter_app.
  rewrite (filter_none _ old), (filter_all _ rows); [done|..].
  - done.
  - apply Forall_forall. intros a Hin Hi.
    apply Hfresh, list_elem_of_fmap. by exists a.
Qed.

Lemma findById_new (i : string) s (us : list DU.DailyUpdate)
    (row : DU.DailyUpdate) (old rows : list DU.Attachment) :
  DU.updates s = us ++ [row] → DU.id row = i → i ∉ DU.id <$> us →
  DU.attachments s = old ++ rows →
  i ∉ DU.att_updateId <$> old →
  Forall (λ a, DU.att_updateId a = i) rows →
  DU.findById i s =
  (if DU.isDeleted row then inr DU.not_found_update
   else inl (row, DU.view <$> rows), s).
Proof.
  intros Hu Hrow Hfresh Ha Hold Hrows. rewrite findById_result.
  rewrite (find_update_new i s us row Hu Hrow Hfresh).
  unfold DU.fileAttachments.
  by rewrite (attachments_of_new i s old rows Ha Hold Hrows).
Qed.

Lemma stored_attachments_fields storage (i who : string) n l :
  Forall (λ a, DU.att_updateId a = i ∧ DU.uploadedById a = who
               ∧ DU.storageProvider a = "LOCAL")
    (stored_attachments join storage i who n l).
Proof. revert n. induction l; intros n; simpl; by constructor. Qed.

(** X14: when fresh identifiers are generated and [create] returns, it
    returns the new update, which is not deleted and is the last row of its
    table, with one attachment per submitted file, in order and with the
    name, type and size of the file; every file passed [validateFile], there
    are at most [maxFilesPerUpdate] of them, and the attachment rows are
    appended to their table, each bound to the new update, uploaded by the
    author and stored locally. *)
Theorem create_returns_update_with_its_files this storage d dto
    (author : string) fs s (u : DU.DailyUpdate)
    (views : list DU.AttachmentView) (s' : DU.Store) :
  "upd-" +:+ pretty (DU.generated s) ∉ DU.id <$> DU.updates s →
  "upd-" +:+ pretty (DU.generated s)
    ∉ DU.att_updateId <$> DU.attachments s →
  DU.create join fs_fault this storage d dto author fs s = (inl (u, views), s') →
  u = DU.new_row d ("upd-" +:+ pretty (DU.generated s)) dto author
  ∧ DU.isDeleted u = false
  ∧ DU.updates s' = DU.updates s ++ [u]
  ∧ DU.reads s' = DU.reads s
  ∧ Forall2 shows views (default [] fs)
  ∧ length views ≤ DailyUpdates.maxFilesPerUpdate this
  ∧ Forall (λ f, DailyUpdates.validateFile this (DU.file f) = inl tt)
      (default [] fs)
  ∧ ∃ rows, DU.attachments s' = DU.attachments s ++ rows
            ∧ views = DU.view <$> rows
            ∧ Forall (λ a, DU.att_updateId a = DU.id u
                           ∧ DU.uploadedById a = author
                           ∧ DU.storageProvider a = "LOCAL") rows.
Proof.
  intros Hfu Hfa Hres.
  destruct (first_invalid_dec this (default [] fs)) as [Hval|Hval]; cycle 1.
  { destruct (create_unchecked join fs_fault this storage d dto author fs s)
      as [msg Hmsg]; [by right|congruence]. }
  destruct (Nat.lt_ge_cases (DailyUpdates.maxFilesPerUpdate this)
              (length (default [] fs))) as [Hlen|Hlen].
  { destruct (create_unchecked join fs_fault this storage d dto author fs s)
      as [msg Hmsg]; [by left|congruence]. }
  rewrite (create_checked join fs_fault _ _ _ _ _ _ _ Hlen Hval) in Hres.
  cbv zeta in Hres. revert Hres.
  set (i := "upd-" +:+ _) in *. set (s1 := DU.set_updates _ _).
  pose proof (collect_store_spec join fs_fault storage i author (default [] fs) s1)
    as Hc.
  destruct (DU.collect _ _ s1) as [[rows|e] s2]; [|done].
  destruct Hc as (Hrows & Hu & Ha & Hr & Hn).
  rewrite (findById_new i s2 (DU.updates s) (DU.new_row d i dto author)
             (DU.attachments s) rows); try done.
  - destruct (DU.isDeleted (DU.new_row d i dto author)) eqn:Hdel; [done|].
    intros [= <- <- <-]. repeat split; try done.
    + apply holds_shows. rewrite Hrows. apply stored_attachments_holds.
    + by rewrite length_fmap, Hrows, stored_attachments_length.
    + by apply first_invalid_None.
    + exists rows. repeat split; try done.
      rewrite Hrows. apply stored_attachments_fields.
  - rewrite Hrows. apply stored_attachments_updateId.
Qed.

End Created.

Lemma create_rejects_before_writing_witness :
  (DU.create simple_join no_fault (DailyUpdates.new_Service 25) local_storage defaults
     plain_dto "alice" (Some [temp_file "a.PDF"; temp_file "b.exe"])
     fresh_store).2 = fresh_store.
Proof.
  destruct (create_rejects_before_writing simple_join no_fault
              (DailyUpdates.new_Service 25) local_storage defaults plain_dto
              "alice" (Some [temp_file "a.PDF"; temp_file "b.exe"])
              fresh_store) as [_ Hsame].
  apply (Hsame "نوع الملف غير مسموح: .exe"). vm_compute. reflexivity.
Defined.

Lemma create_returns_update_with_its_files_witness :
  DU.updates one_update = [DU.new_row defaults "upd-0" plain_dto "alice"].
Proof.
  destruct (create_returns_update_with_its_files simple_join no_fault
              (DailyUpdates.new_Service 25) local_storage defaults plain_dto
              "alice" (Some [temp_file "a.PDF"; temp_file "b.pdf"])
              fresh_store (DU.new_row defaults "upd-0" plain_dto "alice")
              (DU.fileAttachments "upd-0" one_update) one_update)
    as (_ & _ & Hu & _).
  - apply (bool_decide_unpack _). vm_compute. exact I.
  - apply (bool_decide_unpack _). vm_compute. exact I.
  - vm_compute. reflexivity.
  - exact Hu.
Defined.


(** ** Adding attachments *)

Section AddAttachments.
Context (join : string → string → string).
Context (fs_fault : DU.FsCall → DU.Store → option string).
Implicit Types (s : DU.Store) (this : DailyUpdates.Service).
Implicit Types (storage : DU.StorageService) (l : list DU.MulterFile).

Lemma addAttachments_result this storage (i who : string) l s :
  DU.addAttachments join fs_fault this storage i l who s =
  match DU.find_update i s with
  | None => (inr DU.not_found_update, s)
  | Some u =>
      if DU.isDeleted u then (inr DU.not_found_update, s)
      else if (DailyUpdates.maxFilesPerUpdate this
               <? length (DU.attachments_of i s) + length l)%nat
      then (inr (DU.BadRequest
                   ("الحد الأقصى "
                    +:+ pretty (DailyUpdates.maxFilesPerUpdate this)
                    +:+ " ملفات لكل تحديث. الموجود: "
                    +:+ pretty (length (DU.attachments_of i s)))), s)
      else match first_invalid this l with
           | Some msg => (inr (DU.BadRequest msg), s)
           | None =>
               match DU.collect l (DU.store_file join fs_fault storage i who) s with
               | (inl rows, s') => (inl (DU.view <$> rows), s')
               | (inr e, s') => (inr e, s')
               end
           end
  end.
Proof.
  unfold DU.addAttachments. rewrite du_bind_unfold.
  unfold DU.dailyUpdate_findUnique, DU.gets at 1. cbv beta iota.
  destruct (DU.find_update i s) as [u|]; [|done].
  destruct (DU.isDeleted u); [done|].
  rewrite du_bind_unfold. unfold DU.gets at 1. cbv beta iota.
  destruct (_ <? _)%nat; [done|].
  rewrite du_bind_unfold, for_of_validate.
  destruct (first_invalid this l); [done|].
  apply collect_fmap.
Qed.

Lemma attachments_of_app (j : string) s s' (rows : list DU.Attachment) :
  DU.attachments s' = DU.attachments s ++ rows →
  DU.attachments_of j s'
  = DU.attachments_of j s ++ filter (λ a, DU.att_updateId a = j) rows.
Proof. intros Ha. unfold DU.attachments_of. by rewrite Ha, filter_app. Qed.

(** X16: when [addAttachments] returns, the update exists and is not
    deleted, every file passed [validateFile], the returned views show the
    files in order, the rows are appended to the attachments of this update
    and of no other, and the update holds at most [maxFilesPerUpdate]
    attachments. *)
Theorem addAttachments_appends_files this storage (i who : string) l s
    (views : list DU.AttachmentView) (s' : DU.Store) :
  DU.addAttachments join fs_fault this storage i l who s = (inl views, s') →
  (∃ u, DU.find_update i s = Some u ∧ DU.isDeleted u = false)
  ∧ Forall (λ f, DailyUpdates.validateFile this (DU.file f) = inl tt) l
  ∧ Forall2 shows views l
  ∧ DU.updates s' = DU.updates s
  ∧ (∃ rows, views = DU.view <$> rows
             ∧ DU.attachments s' = DU.attachments s ++ rows
             ∧ DU.attachments_of i s' = DU.attachments_of i s ++ rows)
  ∧ (∀ j, j ≠ i → DU.attachments_of j s' = DU.attachments_of j s)
  ∧ length (DU.attachments_of i s')
    = length (DU.attachments_of i s) + length l
  ∧ length (DU.attachments_of i s') ≤ DailyUpdates.maxFilesPerUpdate this.
Proof.
  rewrite addAttachments_result.
  destruct (DU.find_update i s) as [u|] eqn:Hfind; [|done].
  destruct (DU.isDeleted u) eqn:Hdel; [done|].
  destruct (Nat.ltb_spec (DailyUpdates.maxFilesPerUpdate this)
              (length (DU.attachments_of i s) + length l)) as [|Hcap]; [done|].
  destruct (first_invalid this l) eqn:Hval; [done|].
  pose proof (collect_store_spec join fs_fault storage i who l s) as Hc.
  destruct (DU.collect _ _ s) as [[rows|e] s2]; [|done].
  destruct Hc as (Hrows & Hu & Ha & Hr & Hn). intros [= <- <-].
  assert (Hmine : Forall (λ a, DU.att_updateId a = i) rows).
  { rewrite Hrows. apply stored_attachments_updateId. }
  assert (Hof : DU.attachments_of i s2 = DU.attachments_of i s ++ rows).
  { by rewrite (attachments_of_app i s s2 rows Ha), filter_all. }
  assert (Hlen : length rows = length l).
  { by rewrite Hrows, stored_attachments_length. }
  repeat split.
  - by exists u.
  - by apply first_invalid_None.
  - apply holds_shows. rewrite Hrows. apply stored_attachments_holds.
  - done.
  - by exists rows.
  - intros j Hj. rewrite (attachments_of_app j s s2 rows Ha), filter_none.
    + by rewrite app_nil_r.
    + eapply Forall_impl; [exact Hmine|]. simpl. congruence.
  - rewrite Hof, length_app. lia.
  - rewrite Hof, length_app. lia.
Qed.

(** X17: the cap is an invariant of [addAttachments].  If no update holds
    more than [maxFilesPerUpdate] attachments before the call then none does
    after it, whatever the outcome, an upload that fails midway included. *)
Theorem addAttachments_keeps_cap this storage (i who : string) l s :
  (∀ j, length (DU.attachments_of j s)
        ≤ DailyUpdates.maxFilesPerUpdate this) →
  ∀ j, length (DU.attachments_of j
                 (DU.addAttachments join fs_fault this storage i l who s).2)
       ≤ DailyUpdates.maxFilesPerUpdate this.
Proof.
  intros Hinv j. rewrite addAttachments_result.
  destruct (DU.find_update i s) as [u|] eqn:Hfind; [|apply Hinv].
  destruct (DU.isDeleted u) eqn:Hdel; [apply Hinv|].
  destruct (Nat.ltb_spec (DailyUpdates.maxFilesPerUpdate this)
              (length (DU.attachments_of i s) + length l)) as [|Hcap];
    [apply Hinv|].
  destruct (first_invalid this l) eqn:Hval; [apply Hinv|].
  pose proof (collect_store_spec join fs_fault storage i who l s) as Hc.
  assert (Hgen : ∀ s2 (rows : list DU.Attachment),
    DU.attachments s2 = DU.attachments s ++ rows →
    Forall (λ a, DU.att_updateId a = i) rows →
    length rows ≤ length l →
    length (DU.attachments_of j s2) ≤ DailyUpdates.maxFilesPerUpdate this).
  { intros s2 rows Ha Hmine Hlen.
    rewrite (attachments_of_app j s s2 rows Ha), length_app.
    destruct (decide (j = i)) as [->|Hj].
    - rewrite filter_all by done. lia.
    - rewrite filter_none; [simpl; specialize (Hinv j); lia|].
      eapply Forall_impl; [exact Hmine|]. simpl. congruence. }
  destruct (DU.collect _ _ s) as [[rows|e] s2]; cbn [snd].
  - destruct Hc as (Hrows & Hu & Ha & Hr & Hn).
    apply (Hgen s2 rows Ha).
    + rewrite Hrows. apply stored_attachments_updateId.
    + by rewrite Hrows, stored_attachments_length.
  - destruct Hc as (_ & Hu & Hr & Hn & k & Hk & Ha).
    apply (Hgen s2 _ Ha).
    + apply Forall_take, stored_attachments_updateId.
    + rewrite length_take, stored_attachments_length. lia.
Qed.

(** X18: [addAttachments] answers NotFound exactly when the update is
    missing or deleted, and BadRequest exactly when the update is live and
    the files would take it above [maxFilesPerUpdate] or one of them fails
    [validateFile]; in both cases nothing has been written. *)
Theorem addAttachments_rejects_without_writing this storage (i who : string)
    l s :
  ((∃ msg, (DU.addAttachments join fs_fault this storage i l who s).1
           = inr (DU.NotFound msg))
   ↔ ∀ u, DU.find_update i s = Some u → DU.isDeleted u = true)
  ∧ ((∃ msg, (DU.addAttachments join fs_fault this storage i l who s).1
             = inr (DU.BadRequest msg))
     ↔ (∃ u, DU.find_update i s = Some u ∧ DU.isDeleted u = false)
       ∧ (DailyUpdates.maxFilesPerUpdate this
          < length (DU.attachments_of i s) + length l
          ∨ Exists (λ f, DailyUpdates.validateFile this (DU.file f)
                         ≠ inl tt) l))
  ∧ (∀ msg, (DU.addAttachments join fs_fault this storage i l who s).1
            = inr (DU.NotFound msg)
            ∨ (DU.addAttachments join fs_fault this storage i l who s).1
              = inr (DU.BadRequest msg) →
            (DU.addAttachments join fs_fault this storage i l who s).2 = s).
Proof.
  rewrite addAttachments_result.
  destruct (DU.find_update i s) as [u|] eqn:Hfind; cycle 1.
  { split; [split|split; [split|]].
    - by intros _ u' ?.
    - by eexists.
    - by intros [? ?].
    - by intros [(u & ? & _) _].
    - done. }
  destruct (DU.isDeleted u) eqn:Hdel.
  { split; [split|split; [split|]].
    - by intros _ u' [= <-].
    - by eexists.
    - by intros [? ?].
    - intros [(u' & [= <-] & ?) _]. congruence.
    - done. }
  assert (Hlive : ¬ ∀ u', Some u = Some u' → DU.isDeleted u' = true).
  { intros H. specialize (H u eq_refl). congruence. }
  destruct (Nat.ltb_spec (DailyUpdates.maxFilesPerUpdate this)
              (length (DU.attachments_of i s) + length l)) as [Hcap|Hcap].
  { split; [split|split; [split|]].
    - by intros [? ?].
    - done.
    - intros _. split; [by exists u|by left].
    - by eexists.
    - done. }
  destruct (first_invalid this l) as [bad|] eqn:Hval.
  { split; [split|split; [split|]].
    - by intros [? ?].
    - done.
    - intros _. split; [by exists u|].
      right. apply first_invalid_Some. by rewrite Hval.
    - by eexists.
    - done. }
  assert (Hfine :
    ¬ (DailyUpdates.maxFilesPerUpdate this
       < length (DU.attachments_of i s) + length l
       ∨ Exists (λ f, DailyUpdates.validateFile this (DU.file f) ≠ inl tt) l)).
  { intros [?|Hbad]; [lia|]. apply first_invalid_Some in Hbad. congruence. }
  pose proof (collect_store_spec join fs_fault storage i who l s) as Hc.
  destruct (DU.collect _ _ s) as [[rows|e] s2]; cbn [fst snd].
  - split; [split|split; [split|]].
    + by intros [? ?].
    + done.
    + by intros [? ?].
    + by intros [_ ?].
    + by intros msg [?|?].
  - destruct Hc as ([m ->] & _). split; [split|split; [split|]].
    + by intros [? ?].
    + done.
    + by intros [? ?].
    + by intros [_ ?].
    + by intros msg [?|?].
Qed.
End AddAttachments.

Lemma addAttachments_appends_files_witness :
  length (DU.attachments_of "upd-0"
            (DU.addAttachments simple_join no_fault (DailyUpdates.new_Service 25)
               local_storage "upd-0" [memory_file "c.png"] "bob"
               one_update).2) = 3.
Proof.
  destruct (addAttachments_appends_files simple_join no_fault
              (DailyUpdates.new_Service 25) local_storage "upd-0" "bob"
              [memory_file "c.png"] one_update
              [{| DU.v_id := "att-6"; DU.v_originalName := "c.png";
                  DU.v_mimeType := "image/png"; DU.v_sizeBytes := 20 |}]
              (DU.addAttachments simple_join no_fault (DailyUpdates.new_Service 25)
                 local_storage "upd-0" [memory_file "c.png"] "bob"
                 one_update).2)
    as (_ & _ & _ & _ & _ & _ & Hlen & _).
  - vm_compute. reflexivity.
  - rewrite Hlen. vm_compute. reflexivity.
Defined.

Lemma addAttachments_keeps_cap_witness :
  length (DU.attachments_of "upd-0"
            (DU.addAttachments simple_join no_fault (DailyUpdates.new_Service 25)
               local_storage "upd-0" [memory_file "c.png"] "bob"
               one_update).2) ≤ 10.
Proof.
  apply (addAttachments_keeps_cap simple_join no_fault (DailyUpdates.new_Service 25)
           local_storage "upd-0" "bob" [memory_file "c.png"] one_update).
  intros j. etransitivity; [apply length_filter|]. vm_compute. lia.
Defined.

Lemma addAttachments_rejects_without_writing_witness :
  (DU.addAttachments simple_join no_fault (DailyUpdates.new_Service 25) local_storage
     "upd-9" [memory_file "c.png"] "bob" one_update).2 = one_update.
Proof.
  destruct (addAttachments_rejects_without_writing simple_join no_fault
              (DailyUpdates.new_Service 25) local_storage "upd-9" "bob"
              [memory_file "c.png"] one_update) as (_ & _ & Hsame).
  apply (Hsame "التحديث غير موجود"). left. vm_compute. reflexivity.
Defined.

(** ** Editing, deleting and pinning *)

Section Editing.
Implicit Types (s : DU.Store) (u : DU.DailyUpdate) (i : string).

(** The rows after [update({ where: { id: i }, data })]. *)
Lemma dailyUpdate_update_result i (data : DU.DailyUpdate → DU.DailyUpdate) s :
  DU.dailyUpdate_update i data s =
  match DU.find_update i s with
  | None => (inr (DU.Error "Record to update not found."), s)
  | Some u =>
      (inl (data u),
       DU.set_updates
         ((λ r, if decide (DU.id r = i) then data r else r) <$> DU.updates s)
         s)
  end.
Proof.
  unfold DU.dailyUpdate_update. rewrite du_bind_unfold.
  unfold DU.dailyUpdate_findUnique, DU.gets at 1. cbv beta iota.
  by destruct (DU.find_update i s).
Qed.

Lemma may_edit_spec u (user role : string) :
  DU.may_edit u user role = true
  ↔ DU.authorId u = user ∨ role = "admin" ∨ role = "pm".
Proof.
  unfold DU.may_edit. rewrite orb_true_iff, !bool_decide_eq_true.
  rewrite !elem_of_cons, elem_of_nil. tauto.
Qed.

Lemma update_result i (dto : DU.UpdateDto) (user role : string) s :
  DU.update i dto user role s =
  match DU.find_update i s with
  | None => (inr DU.not_found_update, s)
  | Some u =>
      if DU.isDeleted u then (inr DU.not_found_update, s)
      else if DU.may_edit u user role then
        let history :=
          default [] (DU.editHistory u)
          ++ [{| DU.editedBy := user; DU.editedAt := DU.now s;
                 DU.previousTitle := DU.titleAr u;
                 DU.previousContent :=
                   default (DU.content u)
                     (DU.truthy_string (DU.contentAr u)) |}] in
        (inl (DU.apply_dto dto history u, DU.fileAttachments i s),
         DU.set_updates
           ((λ r, if decide (DU.id r = i) then DU.apply_dto dto history r
                  else r) <$> DU.updates s) s)
      else (inr (DU.Forbidden "لا يمكنك تعديل هذا التحديث"), s)
  end.
Proof.
  unfold DU.update. rewrite du_bind_unfold.
  unfold DU.dailyUpdate_findUnique at 1, DU.gets at 1. cbv beta iota.
  destruct (DU.find_update i s) as [u|] eqn:Hfind; [|done].
  destruct (DU.isDeleted u); [done|].
  destruct (DU.may_edit u user role); [|done].
  cbn [negb]. cbv iota. rewrite du_bind_unfold.
  unfold DU.gets at 1. cbv beta iota. rewrite du_bind_unfold.
  rewrite dailyUpdate_update_result, Hfind. done.
Qed.

Lemma delete_result i (user role : string) s :
  DU.delete i user role s =
  match DU.find_update i s with
  | None => (inr DU.not_found_update, s)
  | Some u =>
      if DU.may_edit u user role then
        (inl "تم حذف التحديث",
         DU.set_updates
           ((λ r, if decide (DU.id r = i) then DU.soft_delete r else r)
              <$> DU.updates s) s)
      else (inr (DU.Forbidden "لا يمكنك حذف هذا التحديث"), s)
  end.
Proof.
  unfold DU.delete. rewrite du_bind_unfold.
  unfold DU.dailyUpdate_findUnique at 1, DU.gets at 1. cbv beta iota.
  destruct (DU.find_update i s) as [u|] eqn:Hfind; [|done].
  destruct (DU.may_edit u user role); [|done].
  cbn [negb]. cbv iota. rewrite du_bind_unfold.
  rewrite dailyUpdate_update_result, Hfind. done.
Qed.

Lemma togglePin_result i s :
  DU.togglePin i s =
  match DU.find_update i s with
  | None => (inr DU.not_found_update, s)
  | Some u =>
      (inl (DU.set_pinned (negb (DU.pinned u)) u, DU.fileAttachments i s),
       DU.set_updates
         ((λ r, if decide (DU.id r = i)
                then DU.set_pinned (negb (DU.pinned u)) r else r)
            <$> DU.updates s) s)
  end.
Proof.
  unfold DU.togglePin. rewrite du_bind_unfold.
  unfold DU.dailyUpdate_findUnique at 1, DU.gets at 1. cbv beta iota.
  destruct (DU.find_update i s) as [u|] eqn:Hfind; [|done].
  rewrite du_bind_unfold, dailyUpdate_update_result, Hfind. done.
Qed.

(** Rewriting the rows with key [i] leaves the other keys as they were and
    rewrites the row found under [i]. *)
Lemma find_update_rewritten i j (g : DU.DailyUpdate → DU.DailyUpdate) s :
  (∀ u, DU.id (g u) = DU.id u) →
  DU.find_update j
    (DU.set_updates
       ((λ r, if decide (DU.id r = i) then g r else r) <$> DU.updates s) s)
  = if decide (j = i) then g <$> DU.find_update i s else DU.find_update j s.
Proof.
  intros Hg. rewrite find_update_fmap; cycle 1.
  { intros u. by destruct (decide (DU.id u = i)). }
  destruct (decide (j = i)) as [->|Hj].
  - destruct (DU.find_update i s) as [u|] eqn:Hfind; [|done].
    apply find_update_Some in Hfind as [_ Hid]. simpl.
    by rewrite decide_True.
  - destruct (DU.find_update j s) as [u|] eqn:Hfind; [|done].
    apply find_update_Some in Hfind as [_ Hid]. simpl.
    rewrite decide_False; [done|congruence].
Qed.
End Editing.

Section Edited.
Context (join : string → string → string).
Context (fs_fault : DU.FsCall → DU.Store → option string).
Implicit Types (s : DU.Store) (u : DU.DailyUpdate) (i : string).

(** X19: [update] succeeds exactly when the update exists, is not deleted,
    and the caller is its author or has the role admin or pm; [delete]
    succeeds exactly when the update exists, deleted or not, and the caller
    is its author or has one of these roles.  A refused call changes
    nothing. *)
Theorem only_author_or_manager_edits i (dto : DU.UpdateDto)
    (user role : string) s :
  ((∃ r, (DU.update i dto user role s).1 = inl r)
   ↔ ∃ u, DU.find_update i s = Some u ∧ DU.isDeleted u = false
          ∧ (DU.authorId u = user ∨ role = "admin" ∨ role = "pm"))
  ∧ ((∃ m, (DU.delete i user role s).1 = inl m)
     ↔ ∃ u, DU.find_update i s = Some u
            ∧ (DU.authorId u = user ∨ role = "admin" ∨ role = "pm"))
  ∧ (∀ e, (DU.update i dto user role s).1 = inr e →
          (DU.update i dto user role s).2 = s)
  ∧ (∀ e, (DU.delete i user role s).1 = inr e →
          (DU.delete i user role s).2 = s).
Proof.
  rewrite update_result, delete_result.
  destruct (DU.find_update i s) as [u|] eqn:Hfind; cycle 1.
  { split; [split|split; [split|split]]; try done.
    - by intros [? ?].
    - by intros (? & ? & _).
    - by intros [? ?].
    - by intros (? & ? & _). }
  pose proof (may_edit_spec u user role) as Hmay.
  destruct (DU.may_edit u user role) eqn:Hedit.
  - assert (Hwho : DU.authorId u = user ∨ role = "admin" ∨ role = "pm")
      by by apply Hmay.
    destruct (DU.isDeleted u) eqn:Hdel.
    + split; [split|split; [split|split]]; try done.
      * by intros [? ?].
      * intros (u' & [= <-] & ? & _). congruence.
      * intros _. by exists u.
      * by eexists.
    + split; [split|split; [split|split]]; try done.
      * intros _. by exists u.
      * by eexists.
      * intros _. by exists u.
      * by eexists.
  - assert (Hwho : ¬ (DU.authorId u = user ∨ role = "admin" ∨ role = "pm")).
    { intros H. apply Hmay in H. congruence. }
    destruct (DU.isDeleted u) eqn:Hdel.
    + split; [split|split; [split|split]]; try done.
      * by intros [? ?].
      * intros (u' & [= <-] & ? & _). congruence.
      * by intros [? ?].
      * by intros (u' & [= <-] & ?).
    + split; [split|split; [split|split]]; try done.
      * by intros [? ?].
      * by intros (u' & [= <-] & _ & ?).
      * by intros [? ?].
      * by intros (u' & [= <-] & ?).
Qed.

Lemma markAsRead_result i (user : string) s :
  DU.markAsRead i user s =
  match DU.find_update i s with
  | None => (inr DU.not_found_update, s)
  | Some u =>
      if DU.isDeleted u then (inr DU.not_found_update, s)
      else (inl true,
            if DU.has_read i user s then s
            else DU.set_reads
                   (DU.reads s ++ [{| DU.read_updateId := i;
                                      DU.read_userId := user |}]) s)
  end.
Proof.
  unfold DU.markAsRead. rewrite du_bind_unfold.
  unfold DU.dailyUpdate_findUnique at 1, DU.gets at 1. cbv beta iota.
  destruct (DU.find_update i s) as [u|] eqn:Hfind; [|done].
  by destruct (DU.isDeleted u).
Qed.

Lemma find_attachment_Some (k : string) s (a : DU.Attachment) :
  DU.find_attachment k s = Some a → a ∈ DU.attachments s ∧ DU.att_id a = k.
Proof.
  unfold DU.find_attachment. intros H.
  destruct (list_find _ _) as [[n a']|] eqn:E; [|done].
  injection H as <-. apply list_find_Some in E as (Hk & Hi & _).
  split; [by eapply list_elem_of_lookup_2|done].
Qed.

Lemma getAttachment_result (k : string) s :
  DU.getAttachment k s =
  (match DU.find_attachment k s with
   | None => inr DU.not_found_attachment
   | Some a =>
       match DU.find_update (DU.att_updateId a) s with
       | Some u => if DU.isDeleted u then inr DU.not_found_attachment
                   else inl a
       | None => inr (DU.Error "Cannot read properties of null")
       end
   end, s).
Proof.
  unfold DU.getAttachment. rewrite du_bind_unfold.
  unfold DU.attachment_findUnique at 1, DU.gets at 1. cbv beta iota.
  destruct (DU.find_attachment k s) as [a|]; [|done].
  rewrite du_bind_unfold.
  unfold DU.dailyUpdate_findUnique at 1, DU.gets at 1. cbv beta iota.
  destruct (DU.find_update (DU.att_updateId a) s) as [u|]; [|done].
  by destruct (DU.isDeleted u).
Qed.

(** X20: a deleted update is hidden but nothing of it is removed.  After a
    successful [delete], [findById], [update], [markAsRead] and
    [addAttachments] answer NotFound for this update and [getAttachment]
    answers NotFound for its attachments, while the other updates, the
    attachment rows, the read marks and the stored files are as before. *)
Theorem delete_hides_update i (user role msg : string) s (s' : DU.Store) :
  DU.delete i user role s = (inl msg, s') →
  DU.findById i s' = (inr DU.not_found_update, s')
  ∧ (∀ dto who r, DU.update i dto who r s' = (inr DU.not_found_update, s'))
  ∧ (∀ who, DU.markAsRead i who s' = (inr DU.not_found_update, s'))
  ∧ (∀ this storage l who,
       DU.addAttachments join fs_fault this storage i l who s'
       = (inr DU.not_found_update, s'))
  ∧ (∀ k a, DU.find_attachment k s = Some a → DU.att_updateId a = i →
            DU.getAttachment k s' = (inr DU.not_found_attachment, s'))
  ∧ (∀ j, j ≠ i → DU.find_update j s' = DU.find_update j s)
  ∧ length (DU.updates s') = length (DU.updates s)
  ∧ DU.attachments s' = DU.attachments s
  ∧ DU.reads s' = DU.reads s
  ∧ DU.files s' = DU.files s.
Proof.
  rewrite delete_result.
  destruct (DU.find_update i s) as [u|] eqn:Hfind; [|done].
  destruct (DU.may_edit u user role); [|done].
  intros [= <- <-].
  set (s' := DU.set_updates _ s).
  assert (Hfind' : ∀ j, DU.find_update j s'
                        = if decide (j = i)
                          then DU.soft_delete <$> DU.find_update i s
                          else DU.find_update j s).
  { intros j. by apply find_update_rewritten. }
  assert (Hi : DU.find_update i s' = Some (DU.soft_delete u)).
  { by rewrite Hfind', decide_True, Hfind. }
  repeat split.
  - by rewrite findById_result, Hi.
  - intros dto who r. by rewrite update_result, Hi.
  - intros who. by rewrite markAsRead_result, Hi.
  - intros this storage l who. by rewrite addAttachments_result, Hi.
  - intros k a Hk Ha. rewrite getAttachment_result.
    change (DU.find_attachment k s') with (DU.find_attachment k s).
    by rewrite Hk, Ha, Hi.
  - intros j Hj. by rewrite Hfind', decide_False.
  - unfold s'. cbn [DU.updates DU.set_updates]. by rewrite length_fmap.
Qed.

(** X21: a successful [update] is read back by [findById], keeps the key,
    the author and the other updates, and extends the edit history by
    exactly one entry, which holds the caller, the time of the call, the
    previous Arabic title and the previous Arabic content, or the previous
    content when the Arabic one is missing or empty. *)
Theorem update_records_previous_version i (dto : DU.UpdateDto)
    (user role : string) s u (u' : DU.DailyUpdate)
    (views : list DU.AttachmentView) (s' : DU.Store) :
  DU.find_update i s = Some u →
  DU.update i dto user role s = (inl (u', views), s') →
  DU.findById i s' = (inl (u', views), s')
  ∧ DU.editHistory u'
    = Some (default [] (DU.editHistory u)
            ++ [{| DU.editedBy := user; DU.editedAt := DU.now s;
                   DU.previousTitle := DU.titleAr u;
                   DU.previousContent :=
                     match DU.contentAr u with
                     | Some c => if decide (c = EmptyString)
                                 then DU.content u else c
                     | None => DU.content u
                     end |}])
  ∧ DU.id u' = i ∧ DU.authorId u' = DU.authorId u
  ∧ DU.titleAr u' = default (DU.titleAr u) (DU.u_titleAr dto)
  ∧ DU.content u' = default (DU.content u) (DU.u_content dto)
  ∧ (∀ j, j ≠ i → DU.find_update j s' = DU.find_update j s)
  ∧ DU.attachments s' = DU.attachments s
  ∧ DU.reads s' = DU.reads s.
Proof.
  intros Hfind. rewrite update_result, Hfind.
  destruct (DU.isDeleted u) eqn:Hdel; [done|].
  destruct (DU.may_edit u user role); [|done].
  cbv zeta. set (history := _ ++ [_]). intros [= <- <- <-].
  set (s' := DU.set_updates _ s).
  assert (Hfind' : ∀ j, DU.find_update j s'
                        = if decide (j = i)
                          then DU.apply_dto dto history <$> DU.find_update i s
                          else DU.find_update j s).
  { intros j. by apply find_update_rewritten. }
  repeat split.
  - rewrite findById_result, Hfind', decide_True, Hfind by done. simpl.
    by rewrite Hdel.
  - cbn [DU.editHistory DU.apply_dto]. unfold history. do 4 f_equal.
    unfold DU.truthy_string. destruct (DU.contentAr u) as [c|]; [|done].
    by destruct (decide (c = EmptyString)).
  - by apply find_update_Some in Hfind as [_ ?].
  - intros j Hj. by rewrite Hfind', decide_False.
Qed.

Lemma set_pinned_back u (b : bool) :
  DU.set_pinned (DU.pinned u) (DU.set_pinned b u) = u.
Proof. by destruct u. Qed.

Lemma set_updates_same s : DU.set_updates (DU.updates s) s = s.
Proof. by destruct s. Qed.

(** X22: with unique keys, [togglePin] flips the flag of the update, deleted
    or not, and of no other, and a second [togglePin] restores the store. *)
Theorem togglePin_twice_restores i s u :
  unique_update_ids s →
  DU.find_update i s = Some u →
  (∃ views, (DU.togglePin i s).1
            = inl (DU.set_pinned (negb (DU.pinned u)) u, views))
  ∧ DU.find_update i (DU.togglePin i s).2
    = Some (DU.set_pinned (negb (DU.pinned u)) u)
  ∧ (∀ j, j ≠ i → DU.find_update j (DU.togglePin i s).2
                  = DU.find_update j s)
  ∧ (DU.togglePin i (DU.togglePin i s).2).2 = s.
Proof.
  intros Hnd Hfind. rewrite (togglePin_result i s), Hfind. cbn [fst snd].
  set (s1 := DU.set_updates _ s).
  assert (Hfind1 : ∀ j, DU.find_update j s1
                        = if decide (j = i)
                          then DU.set_pinned (negb (DU.pinned u))
                               <$> DU.find_update i s
                          else DU.find_update j s).
  { intros j. by apply find_update_rewritten. }
  assert (Hi : DU.find_update i s1
               = Some (DU.set_pinned (negb (DU.pinned u)) u)).
  { by rewrite Hfind1, decide_True, Hfind. }
  repeat split.
  - by eexists.
  - done.
  - intros j Hj. by rewrite Hfind1, decide_False.
  - rewrite togglePin_result, Hi. cbn [snd].
    transitivity (DU.set_updates (DU.updates s) s);
      [|apply set_updates_same].
    unfold s1, DU.set_updates. cbn [DU.updates DU.attachments DU.reads
      DU.files DU.warnings DU.generated DU.now]. f_equal.
    rewrite <- list_fmap_compose.
    transitivity (Datatypes.id <$> DU.updates s); [|apply list_fmap_id].
    apply Forall_fmap_ext_1, Forall_forall. intros r Hr. simpl.
    destruct (decide (DU.id r = i)) as [Hid|Hid].
    + assert (r = u) as ->.
      { pose proof (find_update_unique s r Hnd Hr) as Hr'.
        rewrite Hid, Hfind in Hr'. congruence. }
      cbn [DU.id DU.set_pinned]. rewrite decide_True by done.
      cbn [DU.pinned]. rewrite negb_involutive. apply set_pinned_back.
    + by rewrite decide_False.
Qed.
End Edited.

Lemma only_author_or_manager_edits_witness :
  (DU.delete "upd-0" "bob" "user" one_update).2 = one_update.
Proof.
  destruct (only_author_or_manager_edits "upd-0" retitle "bob" "user"
              one_update) as (_ & _ & _ & Hsame).
  apply (Hsame (DU.Forbidden "لا يمكنك حذف هذا التحديث")).
  vm_compute. reflexivity.
Defined.

Lemma delete_hides_update_witness :
  DU.findById "upd-0" (DU.delete "upd-0" "carol" "pm" one_update).2
  = (inr DU.not_found_update, (DU.delete "upd-0" "carol" "pm" one_update).2).
Proof.
  destruct (delete_hides_update simple_join no_fault "upd-0" "carol" "pm"
              "تم حذف التحديث" one_update
              (DU.delete "upd-0" "carol" "pm" one_update).2) as (Hfind & _).
  - vm_compute. reflexivity.
  - exact Hfind.
Defined.

Lemma update_records_previous_version_witness :
  ∃ u', DU.titleAr u' = "NewTitleAr"
        ∧ DU.editHistory u'
          = Some [{| DU.editedBy := "alice"; DU.editedAt := 1000;
                     DU.previousTitle := "TitleAr";
                     DU.previousContent := "Content" |}].
Proof.
  exists (DU.apply_dto retitle
            [{| DU.editedBy := "alice"; DU.editedAt := 1000;
                DU.previousTitle := "TitleAr";
                DU.previousContent := "Content" |}]
            (DU.new_row defaults "upd-0" plain_dto "alice")).
  destruct (update_records_previous_version "upd-0" retitle "alice" "user"
              one_update (DU.new_row defaults "upd-0" plain_dto "alice")
              (DU.apply_dto retitle
                 [{| DU.editedBy := "alice"; DU.editedAt := 1000;
                     DU.previousTitle := "TitleAr";
                     DU.previousContent := "Content" |}]
                 (DU.new_row defaults "upd-0" plain_dto "alice"))
              (DU.fileAttachments "upd-0" one_update)
              (DU.update "upd-0" retitle "alice" "user" one_update).2)
    as (_ & Hhist & _ & _ & Htitle & _).
  - vm_compute. reflexivity.
  - vm_compute. reflexivity.
  - split; [exact Htitle|exact Hhist].
Defined.

Lemma togglePin_twice_restores_witness :
  (DU.togglePin "upd-0" (DU.togglePin "upd-0" one_update).2).2 = one_update.
Proof.
  destruct (togglePin_twice_restores "upd-0" one_update
              (DU.new_row defaults "upd-0" plain_dto "alice"))
    as (_ & _ & _ & Hback).
  - apply (bool_decide_unpack _). vm_compute. exact I.
  - vm_compute. reflexivity.
  - exact Hback.
Defined.

(** ** Read marks *)

Section ReadMarks.
Implicit Types (s : DU.Store) (u : DU.DailyUpdate) (i user : string).

Lemma has_read_spec i user s :
  DU.has_read i user s = true ↔ mark i user ∈ DU.reads s.
Proof.
  unfold DU.has_read. rewrite bool_decide_eq_true, Exists_exists. split.
  - intros ([j who] & Hin & Hi & Hu). simpl in *. by subst.
  - intros Hin. by exists (mark i user).
Qed.

Lemma has_read_false i user s :
  DU.has_read i user s = false ↔ mark i user ∉ DU.reads s.
Proof. rewrite <- has_read_spec. by destruct (DU.has_read i user s). Qed.

Lemma read_upsert_result i user s :
  DU.read_upsert i user s =
  (inl tt, if DU.has_read i user s then s
           else DU.set_reads (DU.reads s ++ [mark i user]) s).
Proof. done. Qed.

Lemma read_upsert_spec i user s :
  let s' := (DU.read_upsert i user s).2 in
  DU.updates s' = DU.updates s
  ∧ DU.attachments s' = DU.attachments s
  ∧ DU.files s' = DU.files s
  ∧ (∀ r, r ∈ DU.reads s' ↔ r ∈ DU.reads s ∨ r = mark i user)
  ∧ (NoDup (DU.reads s) → NoDup (DU.reads s'))
  ∧ (DU.has_read i user s = true → s' = s).
Proof.
  rewrite read_upsert_result. cbn [snd].
  destruct (DU.has_read i user s) eqn:Hread.
  - repeat split; try done; [tauto|].
    intros [?| ->]; [done|]. by apply has_read_spec.
  - apply has_read_false in Hread. cbn [DU.set_reads DU.reads DU.updates
      DU.attachments DU.files]. repeat split; try done.
    + rewrite elem_of_app, list_elem_of_singleton. tauto.
    + rewrite elem_of_app, list_elem_of_singleton. tauto.
    + intros Hnd. apply NoDup_app. repeat split; [done| |apply NoDup_singleton].
      intros r Hr ->%list_elem_of_singleton. done.
Qed.

Lemma read_createMany_spec (data : list DU.Read) s :
  ∃ s', DU.read_createMany data s = (inl tt, s')
        ∧ DU.updates s' = DU.updates s
        ∧ DU.attachments s' = DU.attachments s
        ∧ DU.files s' = DU.files s
        ∧ (∀ r, r ∈ DU.reads s' ↔ r ∈ DU.reads s ∨ r ∈ data)
        ∧ (NoDup (DU.reads s) → NoDup (DU.reads s'))
        ∧ (data = [] → s' = s).
Proof.
  unfold DU.read_createMany. revert s.
  induction data as [|[j who] data IH]; intros s.
  - exists s. repeat split; try done; [tauto|].
    intros [?|?%elem_of_nil]; done.
  - cbn [DU.for_of]. rewrite du_bind_unfold.
    cbn [DU.read_updateId DU.read_userId].
    pose proof (read_upsert_spec j who s) as Hup.
    rewrite read_upsert_result in *. cbn [snd] in Hup. cbv zeta in Hup.
    set (s1 := if DU.has_read j who s then _ else _) in *.
    destruct Hup as (Hu & Ha & Hf & Hr & Hnd & _).
    destruct (IH s1) as (s' & Hrun & Hu' & Ha' & Hf' & Hr' & Hnd' & _).
    exists s'. repeat split; try congruence.
    + rewrite Hr', Hr, elem_of_cons. unfold mark. tauto.
    + rewrite Hr', Hr, elem_of_cons. unfold mark. tauto.
    + tauto.
Qed.

Lemma markAllAsRead_result user s :
  ∃ s', DU.markAllAsRead user s = (inl (length (DU.unread user s)), s')
        ∧ DU.updates s' = DU.updates s
        ∧ DU.attachments s' = DU.attachments s
        ∧ DU.files s' = DU.files s
        ∧ (∀ r, r ∈ DU.reads s'
                ↔ r ∈ DU.reads s
                  ∨ r ∈ (λ u, mark (DU.id u) user) <$> DU.unread user s)
        ∧ (NoDup (DU.reads s) → NoDup (DU.reads s'))
        ∧ (DU.unread user s = [] → s' = s).
Proof.
  unfold DU.markAllAsRead. rewrite du_bind_unfold.
  unfold DU.gets at 1. cbv beta iota. rewrite du_bind_unfold.
  destruct (DU.unread user s) as [|u us] eqn:Hun.
  - exists s. repeat split; try done; [tauto|].
    intros [?|?%elem_of_nil]; done.
  - change (0 <? length (u :: us))%nat with true. cbv iota.
    destruct (read_createMany_spec
                ((λ u, mark (DU.id u) user) <$> u :: us) s)
      as (s' & Hrun & Hu & Ha & Hf & Hr & Hnd & _).
    exists s'. unfold mark in Hrun. rewrite Hrun.
    repeat (split; [done|]). done.
Qed.

Lemma unread_elem user s u :
  u ∈ DU.unread user s
  ↔ u ∈ DU.updates s ∧ DU.isDeleted u = false
    ∧ mark (DU.id u) user ∉ DU.reads s.
Proof.
  unfold DU.unread. rewrite list_elem_of_filter, has_read_false. tauto.
Qed.

Lemma markAllAsRead_leaves_nothing_unread_aux user s :
  (DU.markAllAsRead user s).1 = inl (length (DU.unread user s))
  ∧ DU.unread user (DU.markAllAsRead user s).2 = []
  ∧ (∀ who, who ≠ user →
            DU.unread who (DU.markAllAsRead user s).2 = DU.unread who s)
  ∧ DU.updates (DU.markAllAsRead user s).2 = DU.updates s
  ∧ (unique_reads s → unique_reads (DU.markAllAsRead user s).2)
  ∧ DU.markAllAsRead user (DU.markAllAsRead user s).2
    = (inl 0, (DU.markAllAsRead user s).2).
Proof.
  destruct (markAllAsRead_result user s)
    as (s' & Hrun & Hu & Ha & Hf & Hr & Hnd & _).
  rewrite Hrun. cbn [fst snd].
  assert (Hnone : DU.unread user s' = []).
  { apply filter_none, Forall_forall. intros u Hin [Hlive Hread].
    apply has_read_false in Hread. apply Hread, Hr.
    destruct (DU.has_read (DU.id u) user s) eqn:Hold.
    - left. by apply has_read_spec.
    - right. apply list_elem_of_fmap. exists u. split; [done|].
      apply unread_elem. rewrite Hu in Hin.
      by apply has_read_false in Hold. }
  repeat split; try done.
  - intros who Hwho. unfold DU.unread. rewrite Hu.
    apply filter_ext_in, Forall_forall. intros u Hin.
    rewrite !has_read_false, Hr, list_elem_of_fmap.
    split; intros [Hlive Hread]; (split; [done|]).
    + tauto.
    + intros [?|(u' & Heq & _)]; [done|]. unfold mark in Heq. congruence.
  - destruct (markAllAsRead_result user s')
      as (s2 & Hrun2 & _ & _ & _ & _ & _ & Hsame).
    rewrite Hrun2, Hnone. by rewrite (Hsame Hnone).
Qed.

(** X24: [markAllAsRead] returns the number of live updates that the user
    had not read and leaves none unread; the updates and the unread lists of
    the other users are as before, the unique pair of the read marks is
    kept, and a second call marks nothing and changes nothing. *)
Theorem markAllAsRead_leaves_nothing_unread user s :
  (DU.markAllAsRead user s).1 = inl (length (DU.unread user s))
  ∧ DU.unread user (DU.markAllAsRead user s).2 = []
  ∧ (∀ who, who ≠ user →
            DU.unread who (DU.markAllAsRead user s).2 = DU.unread who s)
  ∧ DU.updates (DU.markAllAsRead user s).2 = DU.updates s
  ∧ (unique_reads s → unique_reads (DU.markAllAsRead user s).2)
  ∧ DU.markAllAsRead user (DU.markAllAsRead user s).2
    = (inl 0, (DU.markAllAsRead user s).2).
Proof. apply markAllAsRead_leaves_nothing_unread_aux. Qed.
End ReadMarks.

Section Unread.
Implicit Types (s : DU.Store) (u : DU.DailyUpdate) (i user : string).

(** X23: [markAsRead] is idempotent: a second call answers as the first and
    changes nothing.  A successful call leaves the update read by the user,
    adds at most one read mark, touches no other mark and keeps the unique
    pair; a failing call changes nothing. *)
Theorem markAsRead_is_idempotent i user s :
  DU.markAsRead i user (DU.markAsRead i user s).2
  = DU.markAsRead i user s
  ∧ ((DU.markAsRead i user s).1 = inl true →
     DU.has_read i user (DU.markAsRead i user s).2 = true)
  ∧ (∀ e, (DU.markAsRead i user s).1 = inr e →
          (DU.markAsRead i user s).2 = s)
  ∧ (∀ r, r ∈ DU.reads (DU.markAsRead i user s).2 →
          r ∈ DU.reads s ∨ r = mark i user)
  ∧ (∀ r, r ∈ DU.reads s → r ∈ DU.reads (DU.markAsRead i user s).2)
  ∧ (unique_reads s → unique_reads (DU.markAsRead i user s).2)
  ∧ DU.updates (DU.markAsRead i user s).2 = DU.updates s.
Proof.
  rewrite (markAsRead_result i user s).
  destruct (DU.find_update i s) as [u|] eqn:Hfind; cycle 1.
  { cbn [fst snd]. rewrite markAsRead_result, Hfind.
    repeat (split; [done|]). split; [by left|done]. }
  destruct (DU.isDeleted u) eqn:Hdel.
  { cbn [fst snd]. rewrite markAsRead_result, Hfind, Hdel.
    repeat (split; [done|]). split; [by left|done]. }
  cbn [fst snd]. pose proof (read_upsert_spec i user s) as Hup.
  rewrite read_upsert_result in Hup. cbn [snd] in Hup. cbv zeta in Hup.
  set (s1 := if DU.has_read i user s then _ else _) in *.
  destruct Hup as (Hu & Ha & Hf & Hr & Hnd & Hsame).
  assert (Hread : DU.has_read i user s1 = true).
  { apply has_read_spec, Hr. by right. }
  assert (Hfind1 : DU.find_update i s1 = Some u).
  { unfold DU.find_update. by rewrite Hu. }
  split; [|split; [done|split; [done|split; [|split; [|done]]]]].
  - rewrite markAsRead_result, Hfind1, Hdel, Hread. done.
  - intros r. apply Hr.
  - intros r ?. apply Hr. by left.
Qed.

Lemma marks_of_inj user (l : list DU.DailyUpdate) :
  NoDup (DU.id <$> l) → NoDup ((λ u, mark (DU.id u) user) <$> l).
Proof.
  intros Hnd.
  replace ((λ u, mark (DU.id u) user) <$> l)
    with ((λ i, mark i user) <$> (DU.id <$> l))
    by by rewrite <- list_fmap_compose.
  apply NoDup_fmap_2; [|done]. intros i j. unfold mark. congruence.
Qed.

Lemma NoDup_ids_filter (P : DU.DailyUpdate → Prop) `{∀ u, Decision (P u)}
    (l : list DU.DailyUpdate) :
  NoDup (DU.id <$> l) → NoDup (DU.id <$> filter P l).
Proof.
  induction l as [|u l IH]; [done|]. simpl. rewrite NoDup_cons.
  intros [Hu Hl]. destruct (decide (P u)).
  - rewrite filter_cons_True by done. simpl. apply NoDup_cons.
    split; [|by apply IH]. intros Hin. apply Hu.
    apply list_elem_of_fmap in Hin as (u' & -> & Hin).
    apply list_elem_of_filter in Hin as [_ Hin].
    apply list_elem_of_fmap. by exists u'.
  - rewrite filter_cons_False by done. by apply IH.
Qed.

(** The read marks of a user are as many as the updates that carry one. *)
Lemma readCount_updates user s :
  unique_update_ids s → unique_reads s → reads_refer_to_updates s →
  length (filter (λ r, DU.read_userId r = user) (DU.reads s))
  = length (filter (λ u, DU.has_read (DU.id u) user s = true)
              (DU.updates s)).
Proof.
  intros Hids Hreads Hfk. unfold reads_refer_to_updates in Hfk.
  rewrite Forall_forall in Hfk.
  rewrite <- (length_fmap (λ u, mark (DU.id u) user)
                (filter _ (DU.updates s))).
  apply Permutation_length, NoDup_Permutation.
  - by apply NoDup_filter.
  - by apply marks_of_inj, NoDup_ids_filter.
  - intros [j who]. rewrite list_elem_of_filter, list_elem_of_fmap. simpl.
    split.
    + intros [-> Hin]. specialize (Hfk _ Hin). simpl in Hfk.
      apply list_elem_of_fmap in Hfk as (u & -> & Hu).
      exists u. split; [done|]. apply list_elem_of_filter.
      split; [|done]. by apply has_read_spec.
    + intros (u & Heq & Hin). apply list_elem_of_filter in Hin as [Hread _].
      apply has_read_spec in Hread. unfold mark in Heq.
      injection Heq as -> ->. done.
Qed.

Lemma filter_length_split {A} (P Q : A → Prop) `{∀ x, Decision (P x)}
    `{∀ x, Decision (Q x)} (l : list A) :
  length (filter P l)
  = length (filter (λ x, P x ∧ Q x) l)
    + length (filter (λ x, P x ∧ ¬ Q x) l).
Proof.
  induction l as [|x l IH]; [done|].
  destruct (decide (P x)), (decide (Q x)).
  - rewrite (filter_cons_True P), (filter_cons_True (λ x, P x ∧ Q x)),
      (filter_cons_False (λ x, P x ∧ ¬ Q x)) by tauto. simpl. lia.
  - rewrite (filter_cons_True P), (filter_cons_False (λ x, P x ∧ Q x)),
      (filter_cons_True (λ x, P x ∧ ¬ Q x)) by tauto. simpl. lia.
  - rewrite (filter_cons_False P), (filter_cons_False (λ x, P x ∧ Q x)),
      (filter_cons_False (λ x, P x ∧ ¬ Q x)) by tauto. lia.
  - rewrite (filter_cons_False P), (filter_cons_False (λ x, P x ∧ Q x)),
      (filter_cons_False (λ x, P x ∧ ¬ Q x)) by tauto. lia.
Qed.

Lemma getUnreadCount_result user s :
  DU.getUnreadCount user s =
  (inl (Z.max 0
          (Z.of_nat (length (filter (λ u, DU.isDeleted u = false)
                               (DU.updates s)))
           - Z.of_nat (length (filter (λ r, DU.read_userId r = user)
                                 (DU.reads s))))), s).
Proof. done. Qed.

(** X26: with unique keys, unique read marks and read marks that refer to
    updates, [getUnreadCount] is the number of live updates the user has not
    read minus the number of deleted updates the user has read, or zero when
    that is negative.  So it never exceeds the number of unread updates, it
    is that number when the user has read no deleted update, and it is
    smaller when the user has read a deleted update and has an update left
    to read. *)
Theorem getUnreadCount_discounts_deleted_reads user s :
  unique_update_ids s → unique_reads s → reads_refer_to_updates s →
  DU.getUnreadCount user s
  = (inl (Z.max 0 (Z.of_nat (length (DU.unread user s))
                   - Z.of_nat (length (stale_reads user s)))), s)
  ∧ (∀ n, (DU.getUnreadCount user s).1 = inl n →
          (n ≤ Z.of_nat (length (DU.unread user s)))%Z)
  ∧ (stale_reads user s = [] →
     DU.getUnreadCount user s
     = (inl (Z.of_nat (length (DU.unread user s))), s))
  ∧ (stale_reads user s ≠ [] → DU.unread user s ≠ [] →
     ∀ n, (DU.getUnreadCount user s).1 = inl n →
          (n < Z.of_nat (length (DU.unread user s)))%Z).
Proof.
  intros Hids Hreads Hfk.
  assert (Hcount : DU.getUnreadCount user s
    = (inl (Z.max 0 (Z.of_nat (length (DU.unread user s))
                     - Z.of_nat (length (stale_reads user s)))), s)).
  { rewrite getUnreadCount_result, readCount_updates by done.
    rewrite (filter_length_split (λ u, DU.isDeleted u = false)
               (λ u, DU.has_read (DU.id u) user s = true)).
    rewrite (filter_length_split (λ u, DU.has_read (DU.id u) user s = true)
               (λ u, DU.isDeleted u = false)).
    assert (H1 : filter (λ u, DU.isDeleted u = false
                              ∧ DU.has_read (DU.id u) user s = true)
                   (DU.updates s)
                 = filter (λ u, DU.has_read (DU.id u) user s = true
                                ∧ DU.isDeleted u = false) (DU.updates s)).
    { apply filter_ext_in, Forall_forall. intros; tauto. }
    assert (H2 : filter (λ u, DU.isDeleted u = false
                              ∧ ¬ DU.has_read (DU.id u) user s = true)
                   (DU.updates s) = DU.unread user s).
    { apply filter_ext_in, Forall_forall. intros u _.
      by destruct (DU.has_read (DU.id u) user s); intuition. }
    assert (H3 : filter (λ u, DU.has_read (DU.id u) user s = true
                              ∧ ¬ DU.isDeleted u = false) (DU.updates s)
                 = stale_reads user s).
    { apply filter_ext_in, Forall_forall. intros u _.
      by destruct (DU.isDeleted u); intuition. }
    rewrite H1, H2, H3. do 3 f_equal. lia. }
  split; [done|]. rewrite Hcount. split; [|split].
  - intros n [= <-]. lia.
  - intros ->. simpl. do 2 f_equal. lia.
  - intros Hstale Hunread n [= <-].
    destruct (stale_reads user s) as [|x xs]; [done|].
    destruct (DU.unread user s) as [|y ys]; [done|].
    cbn [length]. lia.
Qed.

(** X25: with unique keys, [getUnreadCount] answers zero right after
    [markAllAsRead], and whenever the user has no unread update. *)
Theorem unread_count_is_zero_after_markAllAsRead user s :
  unique_update_ids s →
  DU.getUnreadCount user (DU.markAllAsRead user s).2
  = (inl 0%Z, (DU.markAllAsRead user s).2)
  ∧ (DU.unread user s = [] → DU.getUnreadCount user s = (inl 0%Z, s)).
Proof.
  intros Hids.
  assert (Hzero : ∀ s1, unique_update_ids s1 → DU.unread user s1 = [] →
                        DU.getUnreadCount user s1 = (inl 0%Z, s1)).
  { intros s1 Hids1 Hnone. rewrite getUnreadCount_result. do 2 f_equal.
    assert (length (filter (λ u, DU.isDeleted u = false) (DU.updates s1))
            ≤ length (filter (λ r, DU.read_userId r = user) (DU.reads s1)));
      [|lia].
    rewrite <- (length_fmap (λ u, mark (DU.id u) user)
                  (filter _ (DU.updates s1))).
    apply submseteq_length, NoDup_submseteq.
    - by apply marks_of_inj, NoDup_ids_filter.
    - intros r (u & -> & Hin)%list_elem_of_fmap.
      apply list_elem_of_filter in Hin as [Hlive Hin].
      apply list_elem_of_filter. split; [done|].
      apply has_read_spec.
      destruct (DU.has_read (DU.id u) user s1) eqn:Hread; [done|].
      assert (u ∈ DU.unread user s1) as Hu.
      { apply unread_elem. by apply has_read_false in Hread. }
      rewrite Hnone in Hu. by apply elem_of_nil in Hu. }
  destruct (markAllAsRead_leaves_nothing_unread_aux user s)
    as (_ & Hnone & _ & Hu & _).
  split; [|by apply Hzero].
  apply Hzero; [|done]. unfold unique_update_ids. by rewrite Hu.
Qed.
End Unread.

Lemma markAsRead_is_idempotent_witness :
  DU.has_read "upd-0" "bob" (DU.markAsRead "upd-0" "bob" one_update).2 = true.
Proof.
  destruct (markAsRead_is_idempotent "upd-0" "bob" one_update)
    as (_ & Hread & _).
  apply Hread. vm_compute. reflexivity.
Defined.

Lemma markAllAsRead_leaves_nothing_unread_witness :
  DU.unread "alice" (DU.markAllAsRead "bob" two_updates).2
  = DU.unread "alice" two_updates.
Proof.
  destruct (markAllAsRead_leaves_nothing_unread "bob" two_updates)
    as (_ & _ & Hothers & _).
  apply Hothers. apply (bool_decide_unpack _). vm_compute. exact I.
Defined.

Lemma getUnreadCount_discounts_deleted_reads_witness :
  length (DU.unread "bob" read_then_deleted) = 1
  ∧ DU.getUnreadCount "bob" read_then_deleted = (inl 0%Z, read_then_deleted)
  ∧ (0 < Z.of_nat (length (DU.unread "bob" read_then_deleted)))%Z.
Proof.
  destruct (getUnreadCount_discounts_deleted_reads "bob" read_then_deleted)
    as (Hcount & _ & _ & Hless).
  - apply (bool_decide_unpack _). vm_compute. exact I.
  - apply (bool_decide_unpack _). vm_compute. exact I.
  - apply (bool_decide_unpack _). vm_compute. exact I.
  - split; [vm_compute; reflexivity|]. split.
    + rewrite Hcount. vm_compute. reflexivity.
    + apply Hless.
      * vm_compute. discriminate.
      * vm_compute. discriminate.
      * rewrite Hcount. vm_compute. reflexivity.
Defined.

Lemma unread_count_is_zero_after_markAllAsRead_witness :
  DU.getUnreadCount "bob" (DU.markAllAsRead "bob" two_updates).2
  = (inl 0%Z, (DU.markAllAsRead "bob" two_updates).2).
Proof.
  destruct (unread_count_is_zero_after_markAllAsRead "bob" two_updates)
    as (Hzero & _).
  - apply (bool_decide_unpack _). vm_compute. exact I.
  - exact Hzero.
Defined.

(** ** Stored files *)

Section Files.
Context (fs_fault : DU.FsCall → DU.Store → option string).
Implicit Types (s : DU.Store) (k : string) (a : DU.Attachment).




End Files.

Section Uploads.
Context (join : string → string → string).
Context (fs_fault : DU.FsCall → DU.Store → option string).
Implicit Types (s : DU.Store).

(** X28: an upload that returns is recorded as stored locally, also when
    the provider is S3, under a generated name that ends in the lower-case
    extension of the original name, which for a file that passed
    [validateFile] is one of the allowed extensions.  The bytes of a file
    that multer wrote to disk are at the storage path, when that is another
    path, and its temporary file is gone unless [unlinkSync] failed, which
    is not reported.  An
    upload throws only when the temporary file is missing or [copyFileSync]
    fails, or when [writeFileSync] of a buffer fails, and then no file has
    changed.  On a file system without faults the upload of an existing
    temporary file returns and removes it. *)
Theorem upload_stores_locally (storage : DU.StorageService)
    (f : DU.MulterFile) s :
  (∀ stored s', DU.upload join fs_fault storage f s = (inl stored, s') →
     DU.sf_storageProvider stored = "LOCAL"
     ∧ DU.sf_storedName stored
       = ("uuid-" +:+ pretty (DU.generated s))
         +:+ DailyUpdates.toLowerCase
               (DailyUpdates.extname (DailyUpdates.originalname (DU.file f)))
     ∧ DU.sf_storagePath stored
       = join (DU.uploadDir storage) (DU.sf_storedName stored)
     ∧ (∀ this, DailyUpdates.validateFile this (DU.file f) = inl tt →
                DailyUpdates.toLowerCase
                  (DailyUpdates.extname
                     (DailyUpdates.originalname (DU.file f)))
                ∈ DailyUpdates.ALLOWED_EXTENSIONS)
     ∧ (∀ p, DU.path f = Some p → p ≠ EmptyString →
             is_Some (DU.files s !! p)
             ∧ (DU.sf_storagePath stored ≠ p →
                DU.files s' !! DU.sf_storagePath stored = DU.files s !! p)
             ∧ (DU.files s' !! p = None
                ∨ ∃ s0, fs_fault (DU.UnlinkSync p) s0 ≠ None))
     ∧ DU.updates s' = DU.updates s
     ∧ DU.attachments s' = DU.attachments s)
  ∧ (∀ e s', DU.upload join fs_fault storage f s = (inr e, s') →
       (∃ msg, e = DU.Error msg)
       ∧ DU.files s' = DU.files s
       ∧ ((∃ p, DU.path f = Some p ∧ p ≠ EmptyString
                ∧ (DU.files s !! p = None
                   ∨ ∃ dest s0, fs_fault (DU.CopyFileSync p dest) s0 ≠ None))
          ∨ ((∀ p, DU.path f = Some p → p = EmptyString)
             ∧ ∃ bytes, DU.buffer f = Some bytes
                 ∧ ∃ dest s0, fs_fault (DU.WriteFileSync dest) s0 ≠ None)))
  ∧ ((∀ c s0, fs_fault c s0 = None) →
     ∀ p, DU.path f = Some p → p ≠ EmptyString →
          is_Some (DU.files s !! p) →
          (∃ stored, (DU.upload join fs_fault storage f s).1 = inl stored)
          ∧ DU.files (DU.upload join fs_fault storage f s).2 !! p = None).
Proof.
  pose proof (upload_spec join fs_fault storage f s) as Hup.
  cbv zeta in Hup.
  assert (Htruthy : ∀ p, DU.truthy_string (DU.path f) = Some p
                         ↔ DU.path f = Some p ∧ p ≠ EmptyString).
  { intros p. unfold DU.truthy_string. destruct (DU.path f) as [q|].
    - destruct (decide (q = EmptyString)); split.
      + done.
      + intros [[= <-] ?]. done.
      + intros [= <-]. done.
      + by intros [[= <-] _].
    - split; [done|by intros [? _]]. }
  split; [|split].
  - intros stored s' Hres. rewrite Hres in Hup.
    destruct Hup as (-> & Hu & Ha & Hr & Hg & Hn & Hf).
    cbn [DU.sf_storedName DU.sf_storagePath DU.sf_storageProvider].
    repeat (split; [done|]). split; [|split; [|done]].
    + intros this Hok.
      apply (validateFile_accepted this (DU.file f)) in Hok as [Hok _].
      by apply bool_decide_eq_true in Hok.
    + intros p Hp Hne.
      assert (Ht : DU.truthy_string (DU.path f) = Some p) by by apply Htruthy.
      rewrite Ht in Hf. destruct Hf as (bytes & Hbytes & Hf).
      split; [by eexists|]. rewrite Hbytes. split.
      * intros Hdiff. destruct Hf as [->|[-> _]].
        -- rewrite lookup_delete_ne by done. by rewrite lookup_insert_eq.
        -- by rewrite lookup_insert_eq.
      * destruct Hf as [->|[_ Hfault]]; [left|by right].
        apply lookup_delete_eq.
  - intros e s' Hres. rewrite Hres in Hup.
    destruct Hup as (He & _ & _ & _ & _ & Hf & Hcause).
    split; [done|]. split; [done|].
    destruct (DU.truthy_string (DU.path f)) as [p|] eqn:Ht.
    + left. exists p. destruct (proj1 (Htruthy p) eq_refl) as [? ?].
      split; [done|]. split; [done|].
      destruct Hcause as [?|[s0 ?]]; [by left|]. right. by eexists _, s0.
    + right. split.
      * intros p Hp. destruct (decide (p = EmptyString)) as [|Hne]; [done|].
        discriminate (proj2 (Htruthy p) (conj Hp Hne)).
      * destruct Hcause as (bytes & ? & s0 & ?). exists bytes.
        split; [done|]. by eexists _, s0.
  - intros Hquiet p Hp Hne [bytes Hbytes].
    assert (Ht : DU.truthy_string (DU.path f) = Some p) by by apply Htruthy.
    rewrite Ht in Hup.
    destruct (DU.upload join fs_fault storage f s) as [[stored|e] s'].
    + destruct Hup as (_ & _ & _ & _ & _ & _ & b & _ & Hf).
      split; [by eexists|]. cbn [snd].
      destruct Hf as [->|[_ [s0 Hfault]]]; [apply lookup_delete_eq|].
      by rewrite Hquiet in Hfault.
    + destruct Hup as (_ & _ & _ & _ & _ & _ & [Hnone|[s0 Hfault]]).
      * congruence.
      * by rewrite Hquiet in Hfault.
Qed.
End Uploads.


Lemma upload_stores_locally_witness :
  DU.files (DU.upload simple_join no_fault s3_storage (temp_file "a.PDF")
              fresh_store).2 !! "/tmp/a.PDF" = None
  ∧ (DU.upload simple_join no_upload_dir s3_storage (temp_file "a.PDF")
       fresh_store).1
    = inr (DU.Error
             ("ENOENT: no such file or directory, copyfile '/tmp/a.PDF'"
              +:+ " -> '/srv/uploads/uuid-0.pdf'")).
Proof.
  destruct (upload_stores_locally simple_join no_fault s3_storage
              (temp_file "a.PDF") fresh_store) as (_ & _ & Hquiet).
  destruct (Hquiet (λ c s0, eq_refl) "/tmp/a.PDF") as [_ Hgone].
  - reflexivity.
  - apply (bool_decide_unpack _). vm_compute. exact I.
  - exists "AAA". vm_compute. reflexivity.
  - split; [exact Hgone|]. vm_compute. reflexivity.
Defined.

(** ** The controller *)

Section ControllerHandlers.
Context (join : string → string → string).
Context (fs_fault : DU.FsCall → DU.Store → option string).
Context (audit_log : DU.AuditEntry → DU.M unit).
Implicit Types (s : DU.Store) (u : DU.DailyUpdate) (i : string).

Lemma controller_update_result i (dto : DU.UpdateDto)
    (user role req_ip : string) s :
  DU.controller_update audit_log i dto user role req_ip s =
  match DU.findById i s with
  | (inl before, _) =>
      match DU.update i dto user role s with
      | (inl result, s1) =>
          match audit_log
                  {| DU.actorId := user; DU.actionType := "update";
                     DU.entityType := "daily_update"; DU.entityId := i;
                     DU.a_trackId := DU.truthy_string (DU.trackId before.1);
                     DU.beforeData := Some before;
                     DU.afterData := Some result; DU.ip := req_ip |} s1
          with
          | (inl _, s2) => (inl result, s2)
          | (inr e, s2) => (inr e, s2)
          end
      | (inr e, s1) => (inr e, s1)
      end
  | (inr e, _) => (inr e, s)
  end.
Proof.
  unfold DU.controller_update. rewrite du_bind_unfold, findById_result.
  destruct (DU.find_update i s) as [u|]; [|done].
  destruct (DU.isDeleted u); [done|]. cbv beta iota.
  rewrite du_bind_unfold.
  destruct (DU.update i dto user role s) as [[result|e] s1]; [|done].
  rewrite du_bind_unfold. by destruct (audit_log _ s1) as [[[]|e] s2].
Qed.

Lemma controller_delete_result i (user role req_ip : string) s :
  DU.controller_delete audit_log i user role req_ip s =
  match DU.findById i s with
  | (inl before, _) =>
      match DU.delete i user role s with
      | (inl result, s1) =>
          match audit_log
                  {| DU.actorId := user; DU.actionType := "delete";
                     DU.entityType := "daily_update"; DU.entityId := i;
                     DU.a_trackId := DU.truthy_string (DU.trackId before.1);
                     DU.beforeData := Some before; DU.afterData := None;
                     DU.ip := req_ip |} s1
          with
          | (inl _, s2) => (inl result, s2)
          | (inr e, s2) => (inr e, s2)
          end
      | (inr e, s1) => (inr e, s1)
      end
  | (inr e, _) => (inr e, s)
  end.
Proof.
  unfold DU.controller_delete. rewrite du_bind_unfold, findById_result.
  destruct (DU.find_update i s) as [u|]; [|done].
  destruct (DU.isDeleted u); [done|]. cbv beta iota.
  rewrite du_bind_unfold.
  destruct (DU.delete i user role s) as [[result|e] s1]; [|done].
  rewrite du_bind_unfold. by destruct (audit_log _ s1) as [[[]|e] s2].
Qed.

(** X29: the handlers of the controller refuse before anything is written or
    audited, whatever the audit service does.  PATCH and DELETE of an update
    that is missing or deleted answer NotFound; for a live update whose
    caller is neither the author nor admin nor pm they answer Forbidden; POST
    of attachments without files answers BadRequest, and so does POST of an
    update with too many files or a file that fails [validateFile].  In all
    these cases the store is as before. *)
Theorem controller_refuses_before_audit (this : DailyUpdates.Service)
    (storage : DU.StorageService) (d : DU.Defaults) i
    (cdto : DU.CreateDto) (dto : DU.UpdateDto)
    (user role req_ip : string) s :
  ((∀ u, DU.find_update i s = Some u → DU.isDeleted u = true) →
   DU.controller_update audit_log i dto user role req_ip s
   = (inr DU.not_found_update, s)
   ∧ DU.controller_delete audit_log i user role req_ip s
     = (inr DU.not_found_update, s))
  ∧ (∀ u, DU.find_update i s = Some u → DU.isDeleted u = false →
          DU.authorId u ≠ user → role ≠ "admin" → role ≠ "pm" →
          (∃ msg, DU.controller_update audit_log i dto user role req_ip s
                  = (inr (DU.Forbidden msg), s))
          ∧ (∃ msg, DU.controller_delete audit_log i user role req_ip s
                    = (inr (DU.Forbidden msg), s)))
  ∧ (∃ msg, DU.controller_addAttachments join fs_fault this storage i None user s
            = (inr (DU.BadRequest msg), s)
            ∧ DU.controller_addAttachments join fs_fault this storage i (Some []) user s
              = (inr (DU.BadRequest msg), s))
  ∧ (∀ l, DailyUpdates.maxFilesPerUpdate this < length l
          ∨ Exists (λ f, DailyUpdates.validateFile this (DU.file f) ≠ inl tt)
              l →
          ∃ msg, DU.controller_create join fs_fault audit_log this storage d cdto
                   (Some l) user req_ip s
                 = (inr (DU.BadRequest msg), s)).
Proof.
  rewrite controller_update_result, controller_delete_result.
  rewrite findById_result, update_result, delete_result.
  split; [|split; [|split]].
  - intros Hgone. destruct (DU.find_update i s) as [u|]; [|done].
    by rewrite (Hgone u eq_refl).
  - intros u -> Hlive Hauthor Hadmin Hpm. rewrite Hlive.
    assert (DU.may_edit u user role = false) as ->.
    { apply not_true_is_false. rewrite may_edit_spec. tauto. }
    split; by eexists.
  - by eexists.
  - intros l Hbad.
    destruct (create_unchecked join fs_fault this storage d cdto user (Some l) s)
      as [msg Hmsg].
    { simpl. destruct Hbad as [?|Hbad]; [by left|].
      right. by apply first_invalid_Some. }
    exists msg. unfold DU.controller_create.
    by rewrite du_bind_unfold, Hmsg.
Qed.

Lemma find_update_same_updates i s (s' : DU.Store) :
  DU.updates s' = DU.updates s → DU.find_update i s' = DU.find_update i s.
Proof. unfold DU.find_update. by intros ->. Qed.

(** X30: through the controller a deletion cannot be repeated.  When the
    audit service leaves the updates alone and DELETE of an update has
    succeeded, any further DELETE of it answers NotFound and changes
    nothing, although [delete] of the service would succeed again for the
    same caller. *)
Theorem controller_delete_is_not_repeatable i (user role req_ip msg : string)
    s (s' : DU.Store) :
  (∀ e s0, DU.updates (audit_log e s0).2 = DU.updates s0) →
  DU.controller_delete audit_log i user role req_ip s = (inl msg, s') →
  (∀ user' role' req_ip',
     DU.controller_delete audit_log i user' role' req_ip' s'
     = (inr DU.not_found_update, s'))
  ∧ (∃ msg', (DU.delete i user role s').1 = inl msg').
Proof.
  intros Haudit. rewrite controller_delete_result, findById_result.
  rewrite delete_result.
  destruct (DU.find_update i s) as [u|] eqn:Hfind; [|done].
  destruct (DU.isDeleted u) eqn:Hlive; [done|]. cbv beta iota.
  destruct (DU.may_edit u user role) eqn:Hmay; [|done].
  set (s1 := DU.set_updates _ s). set (entry := DU.Build_AuditEntry _ _ _ _ _ _ _ _).
  pose proof (Haudit entry s1) as Hkeep.
  destruct (audit_log entry s1) as [[[]|e] s2]; [|done].
  intros [= <- <-]. cbn [snd] in Hkeep.
  assert (Hgone : DU.find_update i s2 = Some (DU.soft_delete u)).
  { rewrite (find_update_same_updates i s1 s2 Hkeep). unfold s1.
    rewrite find_update_rewritten by done.
    by rewrite decide_True, Hfind. }
  split.
  - intros user' role' req_ip'.
    by rewrite controller_delete_result, findById_result, Hgone.
  - rewrite delete_result, Hgone.
    change (DU.may_edit (DU.soft_delete u) user role)
      with (DU.may_edit u user role). rewrite Hmay. by eexists.
Qed.
End ControllerHandlers.

Lemma controller_refuses_before_audit_witness :
  ∃ msg, DU.controller_delete audit_to_warnings "upd-0" "bob" "user"
           "10.0.0.1" one_update
         = (inr (DU.Forbidden msg), one_update).
Proof.
  destruct (controller_refuses_before_audit simple_join no_fault audit_to_warnings
              (DailyUpdates.new_Service 25) local_storage defaults "upd-0"
              plain_dto retitle "bob" "user" "10.0.0.1" one_update)
    as (_ & Hforbidden & _).
  destruct (Hforbidden (DU.new_row defaults "upd-0" plain_dto "alice"))
    as [_ Hdelete].
  - vm_compute. reflexivity.
  - reflexivity.
  - apply (bool_decide_unpack _). vm_compute. exact I.
  - apply (bool_decide_unpack _). vm_compute. exact I.
  - apply (bool_decide_unpack _). vm_compute. exact I.
  - exact Hdelete.
Defined.

Lemma controller_delete_is_not_repeatable_witness :
  DU.controller_delete audit_to_warnings "upd-0" "carol" "pm" "10.0.0.1"
    (DU.controller_delete audit_to_warnings "upd-0" "alice" "user"
       "10.0.0.1" one_update).2
  = (inr DU.not_found_update,
     (DU.controller_delete audit_to_warnings "upd-0" "alice" "user"
        "10.0.0.1" one_update).2).
Proof.
  destruct (controller_delete_is_not_repeatable audit_to_warnings "upd-0"
              "alice" "user" "10.0.0.1" "تم حذف التحديث" one_update
              (DU.controller_delete audit_to_warnings "upd-0" "alice" "user"
                 "10.0.0.1" one_update).2) as [Hagain _].
  - intros e s0. reflexivity.
  - vm_compute. reflexivity.
  - apply Hagain.
Defined.
